(** * PyType: the scene engine and the gameplay simulation of [pytype.py]

    A shallow embedding of the word pool, the timer registry, the entity
    collection, the gameplay sub-state machine, the scene stack and the frame
    loop, followed by the properties established about them.

    Conventions.
    - Python objects that are shared by reference (sprites, explosions) live in
      an arena addressed by a natural number; the sprite group holds tags.
    - Stacks ([updatestack], [StateManager.stack]) are lists whose head is the
      top, i.e. Python's last element.
    - Floating point geometry is not computed: points, angles and the
      operations on them are the fields of the class [Geometry].
    - Random draws are inputs of the functions that consume them. *)

From Stdlib Require Import String Ascii ZArith List Bool Lia Arith PeanoNat.
From Stdlib Require Import Permutation.
Import ListNotations.
Local Open Scope Z_scope.

Set Implicit Arguments.

(** ** Python results *)

Inductive pyerr : Type :=
| TypeError
| AttributeError
| IndexError
| ValueError
| Starved. (* the random oracle ran dry before a loop ended; not a Python exception *)

Inductive res (A : Type) : Type :=
| Ok (a : A)
| Raise (e : pyerr).

Arguments Ok {A} a.
Arguments Raise {A} e.

Definition bind {A B : Type} (m : res A) (f : A -> res B) : res B :=
  match m with
  | Ok a => f a
  | Raise e => Raise e
  end.

Notation "x <- m ;; k" := (bind m (fun x => k))
  (at level 61, m at next level, right associativity).

(** ** Arena: objects addressed by identity *)

Section Arena.
Variable V : Type.

Fixpoint aget (i : nat) (l : list (nat * V)) : option V :=
  match l with
  | [] => None
  | (j, v) :: r => if Nat.eqb i j then Some v else aget i r
  end.

Fixpoint aset (i : nat) (v : V) (l : list (nat * V)) : list (nat * V) :=
  match l with
  | [] => [(i, v)]
  | (j, u) :: r => if Nat.eqb i j then (i, v) :: r else (j, u) :: aset i v r
  end.

End Arena.

(** ** Timer registry: the module-level [cooldowns] (l.17)

    [cooldowns = collections.defaultdict(int)]: a dictionary in insertion
    order whose missing keys read as [0].  Reading a missing key also stores the
    [0]; a stored [0] is never decremented and reads as ready, so the model
    leaves that store out. *)

Inductive ckey : Type :=
| KSpawnWord             (* the bound method [self.spawn_word] *)
| KPlayerHit             (* the string 'player-hit' *)
| KExplosion (e : nat).  (* an [Explosion] instance *)

Definition ckey_eqb (a b : ckey) : bool :=
  match a, b with
  | KSpawnWord, KSpawnWord => true
  | KPlayerHit, KPlayerHit => true
  | KExplosion e, KExplosion f => Nat.eqb e f
  | _, _ => false
  end.

Definition Cooldowns := list (ckey * Z).

Fixpoint cd_find (k : ckey) (cd : Cooldowns) : option Z :=
  match cd with
  | [] => None
  | (j, v) :: r => if ckey_eqb k j then Some v else cd_find k r
  end.

(** [cooldowns[k]] *)
Definition cd_get (k : ckey) (cd : Cooldowns) : Z :=
  match cd_find k cd with
  | Some v => v
  | None => 0
  end.

(** [cooldowns[k] = v] *)
Fixpoint cd_set (k : ckey) (v : Z) (cd : Cooldowns) : Cooldowns :=
  match cd with
  | [] => [(k, v)]
  | (j, u) :: r => if ckey_eqb k j then (k, v) :: r else (j, u) :: cd_set k v r
  end.

(** [del cooldowns[k]] for every key that is an [Explosion]
    ([Gameplay.clear_explosions], l.424-427) *)
Definition is_explosion_key (k : ckey) : bool :=
  match k with
  | KExplosion _ => true
  | _ => false
  end.

Definition clear_explosions (cd : Cooldowns) : Cooldowns :=
  filter (fun kv => negb (is_explosion_key (fst kv))) cd.

(** The cooldown update of [Engine.run] (l.190-193):
    [for key, value in cooldowns.items(): if value > 0: cooldowns[key] -= elapsed] *)
Definition tick1 (elapsed : Z) (v : Z) : Z :=
  if 0 <? v then v - elapsed else v.

Definition tick (elapsed : Z) (cd : Cooldowns) : Cooldowns :=
  map (fun kv => (fst kv, tick1 elapsed (snd kv))) cd.

(** ** Word pool: [class Wordbag] (l.352-372) *)

Record Wordbag : Type := mkWordbag {
  words : list string;
  _sample : option (list string)   (* [None] until [randomize] is called *)
}.

(** [Wordbag.__init__] *)
Definition Wordbag_init (ws : list string) : Wordbag :=
  mkWordbag ws None.

(** [Wordbag.__bool__]: [bool(self._sample)] *)
Definition wb_bool (w : Wordbag) : bool :=
  match _sample w with
  | None => false
  | Some [] => false
  | Some (_ :: _) => true
  end.

(** [Wordbag.__len__]: [len(self._sample)] *)
Definition wb_len (w : Wordbag) : res nat :=
  match _sample w with
  | None => Raise TypeError
  | Some l => Ok (length l)
  end.

(** [Wordbag.pop]: [self._sample.pop()], the last item of the list *)
Definition wb_pop (w : Wordbag) : res (string * Wordbag) :=
  match _sample w with
  | None => Raise AttributeError
  | Some [] => Raise IndexError
  | Some (x :: r) =>
      Ok (last (x :: r) EmptyString,
          mkWordbag (words w) (Some (removelast (x :: r))))
  end.

(** [random.sample(population, k)] of the Python library, pool variant:
    [j = randbelow(n-i); result[i] = pool[j]; pool[j] = pool[n-i-1]].
    The raw random numbers are an input; [randbelow m] is the next one
    modulo [m]. *)
Fixpoint list_upd (A : Type) (j : nat) (v : A) (l : list A) : list A :=
  match l, j with
  | [], _ => []
  | _ :: r, O => v :: r
  | x :: r, S j' => x :: list_upd j' v r
  end.

Definition swap_remove (j : nat) (pool : list string) : list string :=
  removelast (list_upd j (last pool EmptyString) pool).

Fixpoint sample_pool (pool : list string) (k : nat) (rs : list nat) : list string :=
  match k with
  | O => []
  | S k' =>
      let j := Nat.modulo (hd O rs) (length pool) in
      nth j pool EmptyString :: sample_pool (swap_remove j pool) k' (tl rs)
  end.

(** [random.sample(population, k)] on a population that is a set, as
    [randomize] gives it.  Up to Python 3.10 the set is made a tuple first
    (with a deprecation warning from 3.9) and sampled; from Python 3.11 a
    population that is not a sequence raises [TypeError] before its size is
    looked at.  [sets] says whether the interpreter still takes a set. *)
Definition random_sample (sets : bool) (population : list string) (k : Z)
  (rs : list nat) : res (list string) :=
  if negb sets then Raise TypeError
  else if (k <? 0) || (Z.of_nat (length population) <? k)
  then Raise ValueError
  else Ok (sample_pool population (Z.to_nat k) rs).

(** [set(word for word in self.words if predicate(word))]: the distinct
    eligible words (the iteration order of a set is unspecified; the order
    chosen here is the order of first occurrence from the right). *)
Definition population (ws : list string) (predicate : string -> bool) : list string :=
  nodup string_dec (filter predicate ws).

(** [Wordbag.randomize] (l.368-372); [predicate=None] is [fun _ => true].
    The population handed to [random.sample] is a set, so the outcome
    depends on the interpreter ([sets], see [random_sample]). *)
Definition randomize (sets : bool) (k : Z) (predicate : option (string -> bool))
  (rs : list nat) (w : Wordbag) : res Wordbag :=
  let p := match predicate with
           | None => fun _ => true
           | Some f => f
           end in
  s <- random_sample sets (population (words w) p) k rs ;;
  Ok (mkWordbag (words w) (Some s)).

(** ** Rectangles: the integer [pygame.Rect] operations the game calls *)

Record Rect : Type := mkRect { left : Z; top : Z; width : Z; height : Z }.

Definition right (r : Rect) : Z := left r + width r.
Definition bottom (r : Rect) : Z := top r + height r.

Definition center (r : Rect) : Z * Z :=
  (left r + Z.quot (width r) 2, top r + Z.quot (height r) 2).

(** [rect.center = (cx, cy)] *)
Definition set_center (r : Rect) (c : Z * Z) : Rect :=
  mkRect (fst c - Z.quot (width r) 2) (snd c - Z.quot (height r) 2)
         (width r) (height r).

Definition clamp1 (x w ix iw : Z) : Z :=
  if iw <=? w then ix + Z.quot iw 2 - Z.quot w 2
  else if x <? ix then ix
  else if ix + iw <? x + w then ix + iw - w
  else x.

(** [rect.clamp_ip(inside)] *)
Definition clamp (r inside : Rect) : Rect :=
  mkRect (clamp1 (left r) (width r) (left inside) (width inside))
         (clamp1 (top r) (height r) (top inside) (height inside))
         (width r) (height r).

(** [a.colliderect(b)] *)
Definition colliderect (a b : Rect) : bool :=
  if (width a =? 0) || (height a =? 0) || (width b =? 0) || (height b =? 0)
  then false
  else (Z.min (left a) (right a) <? Z.max (left b) (right b))
       && (Z.min (top a) (bottom a) <? Z.max (top b) (bottom b))
       && (Z.min (left b) (right b) <? Z.max (left a) (right a))
       && (Z.min (top b) (bottom b) <? Z.max (top a) (bottom a)).

(** [a.contains(b)] *)
Definition contains (a b : Rect) : bool :=
  (left a <=? left b) && (top a <=? top b)
  && (right b <=? right a) && (bottom b <=? bottom a)
  && (left b <? right a) && (top b <? bottom a).

(** [random.randint(a, b)] on the raw random number [r] *)
Definition randint (a b : Z) (r : Z) : res Z :=
  if b <? a then Raise ValueError else Ok (a + r mod (b - a + 1)).

(** [random_location] (l.48-67).  [avoiding=None] is the empty list,
    [limit=None] is [None]; every turn of the loop consumes one pair of raw
    random numbers. *)
Fixpoint random_location_from (count : nat) (rect inside : Rect)
  (avoiding : list Rect) (limit : option nat) (draws : list (Z * Z)) : res Rect :=
  if match limit with
     | Some l => Nat.leb l count
     | None => false
     end
  then Ok rect
  else
    match draws with
    | [] => Raise Starved
    | (rx, ry) :: ds =>
        cx <- randint (left inside) (right inside) rx ;;
        cy <- randint (top inside) (bottom inside) ry ;;
        let rect' := clamp (set_center rect (cx, cy)) inside in
        match avoiding with
        | [] => Ok rect'
        | _ :: _ =>
            if existsb (colliderect rect') avoiding
            then random_location_from (S count) rect' inside avoiding limit ds
            else Ok rect'
        end
    end.

Definition random_location (rect inside : Rect) (avoiding : list Rect)
  (limit : option nat) (draws : list (Z * Z)) : res Rect :=
  random_location_from O rect inside avoiding limit draws.

(** ** Geometry: what the game computes in floating point, and what it
    asks of the platform it runs on *)

Class Geometry : Type := {
  point : Type;
  angle : Type;
  (** a pair of integers used as a position *)
  of_pixels : Z * Z -> point;
  (** the [Rect] of the given size after [rect.center = p] *)
  pixel_rect : Z * Z -> point -> Rect;
  (** [math.degrees(abs_angle_to(p1, p2))] *)
  degrees_to : point -> point -> angle;
  (** an integer used as an angle *)
  of_degrees : Z -> angle;
  (** [(x + cos(a) * 1, y + sin(-a) * 1)] with [a = abs_angle_to((x,y), q)] (l.625-628) *)
  step_toward : point -> point -> point;
  (** [lerpi(a, b, accumulator / timetolive)] (l.705) *)
  lerpi : point -> point -> Z -> Z -> point;
  (** the knock-back of a target hit by a bullet (l.710-714) *)
  knock_back : point -> point -> point;
  (** [(cos(radians(a)) * speed, sin(-radians(a)) * speed)] (l.731-732) *)
  velocity : Z -> Z -> point;
  (** component-wise sum *)
  padd : point -> point -> point;
  (** [(space.centerx, 3*space.height/4)] (l.385) *)
  player_home : Rect -> point;
  (** [font.size(text)] *)
  font_size : string -> Z * Z;
  (** [font.get_height()] *)
  font_height : Z;
  (** whether [random.sample] takes a set: Python up to 3.10 does, Python
      3.11 and later raise [TypeError] *)
  samples_sets : bool;
  (** [random.uniform(minspeed, maxspeed)] on a raw random number *)
  uniform : Z * Z -> Z -> Z;
  (** after [n] additions of [.02] the ready banner's time is at least [3] *)
  intro_over : nat -> bool
}.

(** ** Entities *)

Inductive sprite : Type :=
| Player
| Ready                 (* [Gameplay.readysprite] *)
| Text (i : nat)        (* a [TextSprite] *)
| Ship (i : nat)        (* the [EnemyShipSprite] paired with [Text i] *)
| Bullet (b : nat)
| SparkS (k : nat).

Definition sprite_eqb (a b : sprite) : bool :=
  match a, b with
  | Player, Player => true
  | Ready, Ready => true
  | Text i, Text j => Nat.eqb i j
  | Ship i, Ship j => Nat.eqb i j
  | Bullet i, Bullet j => Nat.eqb i j
  | SparkS i, SparkS j => Nat.eqb i j
  | _, _ => false
  end.

Definition is_text (s : sprite) : bool :=
  match s with Text _ => true | _ => false end.
Definition is_ship (s : sprite) : bool :=
  match s with Ship _ => true | _ => false end.
Definition is_bullet (s : sprite) : bool :=
  match s with Bullet _ => true | _ => false end.
Definition is_spark (s : sprite) : bool :=
  match s with SparkS _ => true | _ => false end.

(** The [LayeredUpdates] group: a list in drawing order.  Text sprites have
    [_layer = 10] (l.570), every other sprite the default layer [0]. *)
Definition layer (s : sprite) : Z :=
  match s with Text _ => 10 | _ => 0 end.

Fixpoint insert_layered (s : sprite) (g : list sprite) : list sprite :=
  match g with
  | [] => [s]
  | x :: r => if layer x <=? layer s then x :: insert_layered s r else s :: x :: r
  end.

Definition group_has (s : sprite) (g : list sprite) : bool :=
  existsb (sprite_eqb s) g.

Definition group_add (s : sprite) (g : list sprite) : list sprite :=
  if group_has s g then g else insert_layered s g.

Definition group_remove (s : sprite) (g : list sprite) : list sprite :=
  filter (fun x => negb (sprite_eqb s x)) g.

(** [group.move_to_front(sprite)] for a sprite of the top layer *)
Definition move_to_front (s : sprite) (g : list sprite) : list sprite :=
  group_remove s g ++ [s].

(** The arguments of a spark that differ within an explosion: the size, the
    angle in degrees and the speed (the float returned by [random.uniform],
    as a code).  Center and color are the same for all sparks of an
    explosion. *)
Definition sparkargs : Type := (Z * Z * Z)%type.

Definition sparkargs_dec (a b : sparkargs) : {a = b} + {a <> b}.
Proof. repeat decide equality. Defined.

(** ** Scenes and events *)

Inductive callback : Type :=
| CbPopstate          (* [popstate] *)
| CbBackToMainmenu    (* [Gameplay.back_to_mainmenu] *)
| CbQuit              (* [quit] *)
| CbPushGameplay.     (* [lambda: pushstate(gameplay)] *)

Inductive item : Type :=
| Label (t : string)
| Button (t : string) (cb : callback).

(** A [MenuState]: its items and the attribute [hover].  [__init__]
    (l.245-260) does not assign [hover]: the attribute is missing ([None]
    here) until [select_first_button] or [on_mousemotion] assigns it; once
    assigned it is Python's [None] or a button, as an index among the
    buttons. *)
Record MenuState : Type := mkMenuState {
  items : list item;
  hover_attr : option (option nat)
}.

(** a menu whose [hover] has been assigned *)
Definition mkMenu (its : list item) (h : option nat) : MenuState :=
  mkMenuState its (Some h).

(** the hovered button of a menu whose [hover] has been assigned *)
Definition hover (m : MenuState) : option nat :=
  match hover_attr m with
  | Some h => h
  | None => None
  end.

Inductive scene : Type :=
| SGameplay            (* the one [Gameplay] instance *)
| SMenu (m : MenuState).

Inductive key : Type := K_ESCAPE | K_RETURN | K_DOWN | K_UP | K_OTHER.

(** Mouse events carry the result of the hit test
    [sprite.rect.collidepoint(event.pos)]: the first button under the
    pointer, if any. *)
Inductive event : Type :=
| POPSTATE
| PUSHSTATE (s : scene)
| QUIT
| KEYDOWN (k : key) (unicode : string)
| MOUSEBUTTONDOWN (hit : option nat)
| MOUSEMOTION (hit : option nat).

Definition is_quit (e : event) : bool :=
  match e with QUIT => true | _ => false end.

Definition pause_menu : MenuState :=
  mkMenuState [Label "Paused"; Button "Resume" CbPopstate;
          Button "Main menu" CbBackToMainmenu; Button "Exit to desktop" CbQuit] None.

Definition died_menu : MenuState :=
  mkMenuState [Label "You Died"; Button "Restart" CbPopstate;
          Button "Main menu" CbBackToMainmenu; Button "Exit to desktop" CbQuit] None.

Definition gameover_menu : MenuState :=
  mkMenuState [Label "Game Over"; Button "Restart" CbPushGameplay;
          Button "Exit to desktop" CbQuit] None.

Definition win_menu : MenuState :=
  mkMenuState [Label "A Winner is You!"; Button "Restart" CbPopstate;
          Button "Main menu" CbBackToMainmenu; Button "Exit to desktop" CbQuit] None.

Definition main_menu : MenuState :=
  mkMenuState [Label "PyType"; Button "Play" CbPushGameplay;
          Button "Exit to desktop" CbPopstate] None.

Inductive umode : Type :=
| update_intro_m                         (* [self.update_intro] *)
| update_gameplay_m                      (* [self.update_gameplay] *)
| update_gameplay_wait_for_animations_m. (* [self.update_gameplay_wait_for_animations] *)

(** ** The gameplay scene: [class Gameplay] and the sprites it owns *)

Record TextSprite : Type := mkText {
  text : string;
  marked : bool    (* the colours set on a hit (l.467-468) *)
}.

Section Game.
Context {G : Geometry}.

Record EnemyShipSprite : Type := mkShip {
  position : point;
  ship_angle : angle
}.

Record BulletSprite : Type := mkBullet {
  target : nat;                      (* the [EnemyShipSprite] pursued *)
  bullet_position : point;
  accumulator : Z;
  original_position : option point
}.

Record Spark : Type := mkSpark {
  spark_size : Z;
  spark_xy : point;
  spark_dxy : point;
  spark_rect : Rect
}.

Record Explosion : Type := mkExplosion {
  explosion_center : point;
  sparks : list nat                  (* the group [self.sparks] *)
}.

Record Gameplay : Type := mkGameplay {
  space : Rect;
  spawn_area : Rect;
  wordbag : Wordbag;   (* the shared [Wordbag] *)
  levels : list (Z * (string -> bool));   (* [(k, predicate)] per level *)
  skip_intro : bool;
  player_position : point;   (* [self.player.position] *)
  player_angle : angle;   (* [self.player.angle] *)
  health : Z;   (* [self.player.health] *)
  group : list sprite;   (* [self.group], in drawing order *)
  paused : bool;
  updatestack : list umode;   (* head = [self.updatestack[-1]] *)
  ready_time : nat;   (* number of [.02] steps added to [readysprite.time] *)
  damage_on_miss : bool;
  level : nat;
  max_nsprites : Z;
  locked : option nat;   (* the locked [TextSprite], by identity *)
  texts : list (nat * TextSprite);   (* arena of [TextSprite] objects *)
  ships : list (nat * EnemyShipSprite);   (* arena of [EnemyShipSprite] objects *)
  bullets : list (nat * BulletSprite);   (* arena of [BulletSprite] objects *)
  sparkobjs : list (nat * Spark);   (* arena of [Spark] objects *)
  explosions : list (nat * Explosion);   (* arena of [Explosion] objects *)
  next_id : nat   (* next fresh identity *)
}.

Definition set_wordbag (v : Wordbag) (g : Gameplay) : Gameplay :=
  mkGameplay (space g) (spawn_area g) v (levels g) (skip_intro g) (player_position g)
    (player_angle g) (health g) (group g) (paused g) (updatestack g) (ready_time g)
    (damage_on_miss g) (level g) (max_nsprites g) (locked g) (texts g) (ships g)
    (bullets g) (sparkobjs g) (explosions g) (next_id g).

Definition set_player_angle (v : angle) (g : Gameplay) : Gameplay :=
  mkGameplay (space g) (spawn_area g) (wordbag g) (levels g) (skip_intro g)
    (player_position g) v (health g) (group g) (paused g) (updatestack g) (ready_time g)
    (damage_on_miss g) (level g) (max_nsprites g) (locked g) (texts g) (ships g)
    (bullets g) (sparkobjs g) (explosions g) (next_id g).

Definition set_health (v : Z) (g : Gameplay) : Gameplay :=
  mkGameplay (space g) (spawn_area g) (wordbag g) (levels g) (skip_intro g)
    (player_position g) (player_angle g) v (group g) (paused g) (updatestack g)
    (ready_time g) (damage_on_miss g) (level g) (max_nsprites g) (locked g) (texts g)
    (ships g) (bullets g) (sparkobjs g) (explosions g) (next_id g).

Definition set_group (v : list sprite) (g : Gameplay) : Gameplay :=
  mkGameplay (space g) (spawn_area g) (wordbag g) (levels g) (skip_intro g)
    (player_position g) (player_angle g) (health g) v (paused g) (updatestack g)
    (ready_time g) (damage_on_miss g) (level g) (max_nsprites g) (locked g) (texts g)
    (ships g) (bullets g) (sparkobjs g) (explosions g) (next_id g).

Definition set_paused (v : bool) (g : Gameplay) : Gameplay :=
  mkGameplay (space g) (spawn_area g) (wordbag g) (levels g) (skip_intro g)
    (player_position g) (player_angle g) (health g) (group g) v (updatestack g)
    (ready_time g) (damage_on_miss g) (level g) (max_nsprites g) (locked g) (texts g)
    (ships g) (bullets g) (sparkobjs g) (explosions g) (next_id g).

Definition set_updatestack (v : list umode) (g : Gameplay) : Gameplay :=
  mkGameplay (space g) (spawn_area g) (wordbag g) (levels g) (skip_intro g)
    (player_position g) (player_angle g) (health g) (group g) (paused g) v (ready_time
    g) (damage_on_miss g) (level g) (max_nsprites g) (locked g) (texts g) (ships g)
    (bullets g) (sparkobjs g) (explosions g) (next_id g).

Definition set_ready_time (v : nat) (g : Gameplay) : Gameplay :=
  mkGameplay (space g) (spawn_area g) (wordbag g) (levels g) (skip_intro g)
    (player_position g) (player_angle g) (health g) (group g) (paused g) (updatestack g)
    v (damage_on_miss g) (level g) (max_nsprites g) (locked g) (texts g) (ships g)
    (bullets g) (sparkobjs g) (explosions g) (next_id g).

Definition set_level (v : nat) (g : Gameplay) : Gameplay :=
  mkGameplay (space g) (spawn_area g) (wordbag g) (levels g) (skip_intro g)
    (player_position g) (player_angle g) (health g) (group g) (paused g) (updatestack g)
    (ready_time g) (damage_on_miss g) v (max_nsprites g) (locked g) (texts g) (ships g)
    (bullets g) (sparkobjs g) (explosions g) (next_id g).

Definition set_max_nsprites (v : Z) (g : Gameplay) : Gameplay :=
  mkGameplay (space g) (spawn_area g) (wordbag g) (levels g) (skip_intro g)
    (player_position g) (player_angle g) (health g) (group g) (paused g) (updatestack g)
    (ready_time g) (damage_on_miss g) (level g) v (locked g) (texts g) (ships g)
    (bullets g) (sparkobjs g) (explosions g) (next_id g).

Definition set_locked (v : option nat) (g : Gameplay) : Gameplay :=
  mkGameplay (space g) (spawn_area g) (wordbag g) (levels g) (skip_intro g)
    (player_position g) (player_angle g) (health g) (group g) (paused g) (updatestack g)
    (ready_time g) (damage_on_miss g) (level g) (max_nsprites g) v (texts g) (ships g)
    (bullets g) (sparkobjs g) (explosions g) (next_id g).

Definition set_texts (v : list (nat * TextSprite)) (g : Gameplay) : Gameplay :=
  mkGameplay (space g) (spawn_area g) (wordbag g) (levels g) (skip_intro g)
    (player_position g) (player_angle g) (health g) (group g) (paused g) (updatestack g)
    (ready_time g) (damage_on_miss g) (level g) (max_nsprites g) (locked g) v (ships g)
    (bullets g) (sparkobjs g) (explosions g) (next_id g).

Definition set_ships (v : list (nat * EnemyShipSprite)) (g : Gameplay) : Gameplay :=
  mkGameplay (space g) (spawn_area g) (wordbag g) (levels g) (skip_intro g)
    (player_position g) (player_angle g) (health g) (group g) (paused g) (updatestack g)
    (ready_time g) (damage_on_miss g) (level g) (max_nsprites g) (locked g) (texts g) v
    (bullets g) (sparkobjs g) (explosions g) (next_id g).

Definition set_bullets (v : list (nat * BulletSprite)) (g : Gameplay) : Gameplay :=
  mkGameplay (space g) (spawn_area g) (wordbag g) (levels g) (skip_intro g)
    (player_position g) (player_angle g) (health g) (group g) (paused g) (updatestack g)
    (ready_time g) (damage_on_miss g) (level g) (max_nsprites g) (locked g) (texts g)
    (ships g) v (sparkobjs g) (explosions g) (next_id g).

Definition set_sparkobjs (v : list (nat * Spark)) (g : Gameplay) : Gameplay :=
  mkGameplay (space g) (spawn_area g) (wordbag g) (levels g) (skip_intro g)
    (player_position g) (player_angle g) (health g) (group g) (paused g) (updatestack g)
    (ready_time g) (damage_on_miss g) (level g) (max_nsprites g) (locked g) (texts g)
    (ships g) (bullets g) v (explosions g) (next_id g).

Definition set_explosions (v : list (nat * Explosion)) (g : Gameplay) : Gameplay :=
  mkGameplay (space g) (spawn_area g) (wordbag g) (levels g) (skip_intro g)
    (player_position g) (player_angle g) (health g) (group g) (paused g) (updatestack g)
    (ready_time g) (damage_on_miss g) (level g) (max_nsprites g) (locked g) (texts g)
    (ships g) (bullets g) (sparkobjs g) v (next_id g).

Definition set_next_id (v : nat) (g : Gameplay) : Gameplay :=
  mkGameplay (space g) (spawn_area g) (wordbag g) (levels g) (skip_intro g)
    (player_position g) (player_angle g) (health g) (group g) (paused g) (updatestack g)
    (ready_time g) (damage_on_miss g) (level g) (max_nsprites g) (locked g) (texts g)
    (ships g) (bullets g) (sparkobjs g) (explosions g) v.

(** Per-frame inputs: the clock, the events that arrived, the random draws. *)
Record FrameIn : Type := mkFrameIn {
  elapsed : Z;                               (* [self.clock.tick()] *)
  inputs : list event;
  rnd_sample : list nat;                     (* for [random.sample] *)
  rnd_location : Z * Z;                      (* for [random_location] *)
  rnd_sparks : nat -> nat -> nat * nat * Z   (* for the explosion whose first spark gets that identity *)
}.

(** The process: the global [cooldowns], the [Gameplay] instance, the pygame
    event queue and the [StateManager] stack. *)
Record World : Type := mkWorld {
  cooldowns : Cooldowns;
  game : Gameplay;
  events : list event;
  stack : list scene
}.

Definition set_cooldowns (v : Cooldowns) (w : World) : World :=
  mkWorld v (game w) (events w) (stack w).
Definition set_game (v : Gameplay) (w : World) : World :=
  mkWorld (cooldowns w) v (events w) (stack w).
Definition set_events (v : list event) (w : World) : World :=
  mkWorld (cooldowns w) (game w) v (stack w).
Definition set_stack (v : list scene) (w : World) : World :=
  mkWorld (cooldowns w) (game w) (events w) v.

(** [pg.event.post] *)
Definition post (e : event) (w : World) : World :=
  set_events (events w ++ [e]) w.

(** [Gameplay.__init__] (l.377-394); [max_nsprites] and [locked] are first
    assigned by [reset]. *)
Definition Gameplay_init (space spawn_area : Rect) (wordbag : Wordbag)
  (levels : list (Z * (string -> bool))) (skip_intro : bool) : Gameplay :=
  mkGameplay space spawn_area wordbag levels skip_intro
    (player_home space) (of_degrees 90) 3 [] false [] O false O 3 None
    [] [] [] [] [] O.

(** *** Sprites *)

Definition timetolive : Z := 500.

Definition text_of (t : nat) (g : Gameplay) : string :=
  match aget t (texts g) with
  | Some o => text o
  | None => EmptyString
  end.

(** [sprite.kill()] for a sprite that belongs to the main group only *)
Definition kill (s : sprite) (g : Gameplay) : Gameplay :=
  set_group (group_remove s (group g)) g.

(** [spark.kill()]: a spark also leaves the group of its explosion *)
Definition kill_spark (k : nat) (g : Gameplay) : Gameplay :=
  set_explosions
    (map (fun ex => (fst ex,
                     mkExplosion (explosion_center (snd ex))
                       (filter (fun j => negb (Nat.eqb k j)) (sparks (snd ex)))))
         (explosions g))
    (kill (SparkS k) g).

(** [BulletSprite.update] (l.701-718) *)
Definition bullet_update (dt : Z) (b : nat) (g : Gameplay) : Gameplay :=
  match aget b (bullets g) with
  | None => g
  | Some o =>
      match aget (target o) (ships g) with
      | None => g
      | Some s =>
          let orig := match original_position o with
                      | Some p => p
                      | None => bullet_position o
                      end in
          let acc := accumulator o + dt in
          let o' := mkBullet (target o) (lerpi orig (position s) acc timetolive)
                             acc (Some orig) in
          let g1 := set_bullets (aset b o' (bullets g)) g in
          if timetolive <=? acc then
            let g2 := kill (Bullet b) g1 in
            let s' := mkShip (knock_back orig (position s)) (ship_angle s) in
            let g3 := set_ships (aset (target o) s' (ships g2)) g2 in
            match text_of (target o) g3 with
            | EmptyString => kill (Text (target o)) (kill (Ship (target o)) g3)
            | String _ _ => g3
            end
          else g1
      end
  end.

(** [Spark.update] (l.734-737) *)
Definition spark_update (k : nat) (g : Gameplay) : Gameplay :=
  match aget k (sparkobjs g) with
  | None => g
  | Some o =>
      let xy := padd (spark_xy o) (spark_dxy o) in
      set_sparkobjs
        (aset k (mkSpark (spark_size o) xy (spark_dxy o)
                         (pixel_rect (spark_size o, spark_size o) xy))
              (sparkobjs g)) g
  end.

(** [sprite.update(elapsed)]: the player only recomputes its rect and image,
    the other sprites inherit the empty [Sprite.update]. *)
Definition sprite_update (dt : Z) (s : sprite) (g : Gameplay) : Gameplay :=
  match s with
  | Bullet b => bullet_update dt b g
  | SparkS k => spark_update k g
  | _ => g
  end.

(** [self.group.update(elapsed)]: over a copy of the sprite list *)
Definition group_update (dt : Z) (g : Gameplay) : Gameplay :=
  fold_left (fun acc s => sprite_update dt s acc) (group g) g.

(** [Spark.__init__] (l.725-732) *)
Definition Spark_init (c : point) (a : sparkargs) : Spark :=
  let '(s, ang, sp) := a in
  mkSpark s c (velocity ang sp) (mkRect 0 0 s s).

(** [randomspark_args()] (l.749-752) on the three raw random numbers of
    its draws: [sizes] is [(1,1), (2,2)], [angles] is [range(360)] *)
Definition randomspark_args (speeds : Z * Z) (raw : nat * nat * Z) : sparkargs :=
  let '(r1, r2, r3) := raw in
  (1 + Z.of_nat (Nat.modulo r1 2), Z.of_nat (Nat.modulo r2 360), uniform speeds r3).

(** [sparkargs = set(randomspark_args() for _ in range(nsparks))] (l.753) *)
Definition sparkargs_set (nsparks : nat) (speeds : Z * Z)
  (draw : nat -> nat * nat * Z) : list sparkargs :=
  nodup sparkargs_dec (map (fun i => randomspark_args speeds (draw i)) (seq 0 nsparks)).

(** [Explosion.__init__] (l.742-755): the new explosion and the arena
    holding its sparks *)
Definition Explosion_init (c : point) (nsparks : nat) (speeds : Z * Z)
  (draw : nat -> nat * nat * Z) (g : Gameplay) : Explosion * Gameplay :=
  let args := sparkargs_set nsparks speeds draw in
  let ids := seq (next_id g) (List.length args) in
  (mkExplosion c ids,
   set_next_id (next_id g + List.length args)%nat
     (set_sparkobjs (sparkobjs g ++ combine ids (map (Spark_init c) args)) g)).

(** [Gameplay._add_sparks]: [self.group.add( *sparks )] *)
Definition _add_sparks (ks : list nat) (g : Gameplay) : Gameplay :=
  fold_left (fun acc k => set_group (group_add (SparkS k) (group acc)) acc) ks g.

(** *** Typing *)

Definition starts_with (letter : string) (t : string) : bool :=
  match t with
  | EmptyString => false
  | String c _ => String.eqb letter (String c EmptyString)
  end.

(** the [for ... else] of [fire] (l.454-460): the first text sprite of the
    group whose text is not empty and starts with [letter] *)
Fixpoint scan (letter : string) (g : Gameplay) (l : list sprite) : option nat :=
  match l with
  | [] => None
  | Text i :: r =>
      if starts_with letter (text_of i g) then Some i else scan letter g r
  | _ :: r => scan letter g r
  end.

(** [Gameplay.hit_player] (l.482-491) *)
Definition hit_player (w : World) : World :=
  let g := set_health (health (game w) - 1) (game w) in
  if health g =? 0
  then post (PUSHSTATE (SMenu gameover_menu))
         (post POPSTATE (set_game (set_paused false g) w))
  else set_game g w.

(** [Gameplay.fire] (l.452-476) *)
Definition fire (letter : string) (w : World) : res World :=
  let g0 := game w in
  let lk := match locked g0 with
            | Some t => Some t
            | None => scan letter g0 (group g0)
            end in
  let g := set_locked lk g0 in
  match lk with
  | None => Ok (set_game g w)
  | Some t =>
      match aget t (texts g) with
      | None => Raise AttributeError
      | Some o =>
          match text o with
          | EmptyString => Raise IndexError
          | String c rest =>
              if String.eqb letter (String c EmptyString) then
                let g1 := set_texts (aset t (mkText rest (marked o)) (texts g)) g in
                let g2 := if group_has (Text t) (group g1)
                          then set_group (move_to_front (Text t) (group g1)) g1
                          else g1 in
                let g3 := set_texts (aset t (mkText rest true) (texts g2)) g2 in
                let b := next_id g3 in
                let g4 := set_next_id (S b)
                            (set_group (group_add (Bullet b) (group g3))
                               (set_bullets
                                  (aset b (mkBullet t (player_position g3) 0 None)
                                        (bullets g3)) g3)) in
                match rest with
                | EmptyString => Ok (set_game (set_locked None g4) w)
                | String _ _ => Ok (set_game g4 w)
                end
              else if damage_on_miss g then Ok (hit_player (set_game g w))
              else Ok (set_game g w)
          end
      end
  end.

(** *** Level set-up *)

(** [Gameplay.exit_intro] (l.448-450) *)
Definition exit_intro (g : Gameplay) : res Gameplay :=
  match updatestack g with
  | [] => Raise IndexError
  | _ :: r => Ok (set_updatestack r (set_group (group_remove Ready (group g)) g))
  end.

(** [Gameplay.reset] (l.527-545) with [PlayerSprite.reset] (l.675-678) *)
Definition reset (fi : FrameIn) (g : Gameplay) : res Gameplay :=
  let g1 := set_locked None (set_max_nsprites 3 (set_group [] g)) in
  match nth_error (levels g1) (level g1) with
  | None => Raise IndexError
  | Some (k, predicate) =>
      wb <- randomize samples_sets k (Some predicate) (rnd_sample fi) (wordbag g1) ;;
      let g2 := set_player_angle (of_degrees 90) (set_health 3 (set_wordbag wb g1)) in
      let g3 := set_group (group_add Player (group g2)) g2 in
      let g4 := set_updatestack [update_intro_m; update_gameplay_m] g3 in
      let g5 := set_group (group_add Ready (group g4)) (set_ready_time O g4) in
      if skip_intro g5 then exit_intro g5 else Ok g5
  end.

(** [Gameplay.enter] (l.441-446) *)
Definition enter (fi : FrameIn) (g : Gameplay) : res Gameplay :=
  if paused g then Ok (set_paused false g)
  else g' <- reset fi g ;; Ok (set_paused false g').

(** *** Spawning *)

(** [Gameplay.needs_word_spawn] (l.503-507) *)
Definition needs_word_spawn (w : World) : bool :=
  let g := game w in
  let ntextsprites := Z.of_nat (List.length (filter is_text (group g))) in
  (ntextsprites <? max_nsprites g)
  && wb_bool (wordbag g)
  && (cd_get KSpawnWord (cooldowns w) <=? 0).

(** [textsprite.rect] of a fresh [TextSprite] (l.808-810): the text size
    inflated by the padding [(20, 10)], at the origin *)
Definition text_rect (word : string) : Rect :=
  mkRect 0 0 (fst (font_size word) + 20) (snd (font_size word) + 10).

(** [Gameplay.spawn_word] (l.567-575) with the constructors of [TextSprite]
    and [EnemyShipSprite]; [random_location] is called without [avoiding] and
    without [limit]. *)
Definition spawn_word (fi : FrameIn) (w : World) : res World :=
  let g := game w in
  pr <- wb_pop (wordbag g) ;;
  let i := next_id g in
  let g1 := set_next_id (S i)
              (set_ships (aset i (mkShip (of_pixels (16, 16)) (of_degrees 180)) (ships g))
                 (set_texts (aset i (mkText (fst pr) false) (texts g))
                    (set_wordbag (snd pr) g))) in
  let g2 := set_group (group_add (Ship i) (group_add (Text i) (group g1))) g1 in
  rect <- random_location (text_rect (fst pr)) (spawn_area g2) [] None
            [rnd_location fi] ;;
  let g3 := set_ships (aset i (mkShip (of_pixels (center rect)) (of_degrees 180))
                            (ships g2)) g2 in
  Ok (set_cooldowns (cd_set KSpawnWord 1000 (cooldowns w)) (set_game g3 w)).

(** [if self.needs_word_spawn(): self.spawn_word()] (l.599-600) *)
Definition maybe_spawn (fi : FrameIn) (w : World) : res World :=
  if needs_word_spawn w then spawn_word fi w else Ok w.

(** *** Sparks and explosions *)

(** [Gameplay.remove_sparks_outofbounds] (l.521-525) *)
Definition remove_sparks_outofbounds (g : Gameplay) : Gameplay :=
  fold_left
    (fun acc s =>
       match s with
       | SparkS k =>
           match aget k (sparkobjs acc) with
           | Some o => if contains (space acc) (spark_rect o) then acc
                       else kill_spark k acc
           | None => acc
           end
       | _ => acc
       end)
    (group g) g.

(** one turn of the loop of [Gameplay.spawn_explosions_from_deaths] (l.549-556) *)
Definition explode (fi : FrameIn) (w : World) (s : sprite) : World :=
  let g := game w in
  match s with
  | Bullet b =>
      match aget b (bullets g) with
      | Some o =>
          let '(ex, g1) := Explosion_init (bullet_position o) 10 (15, 25)
                             (rnd_sparks fi (next_id g)) g in
          set_game (_add_sparks (sparks ex) g1) w
      | None => w
      end
  | Ship i =>
      match aget i (ships g) with
      | Some s =>
          let c := of_pixels (center (pixel_rect (32, 32) (position s))) in
          let '(ex, g1) := Explosion_init c 600 (5, 10) (rnd_sparks fi (next_id g)) g in
          let e := next_id g1 in
          set_cooldowns (cd_set (KExplosion e) 500 (cooldowns w))
            (set_game (set_next_id (S e) (set_explosions (aset e ex (explosions g1)) g1)) w)
      | None => w
      end
  | _ => w
  end.

Definition spawn_explosions_from_deaths (fi : FrameIn) (died : list sprite)
  (w : World) : World :=
  fold_left (explode fi) died w.

(** [sprite == key] for a sprite of the group and an [Explosion] key: the
    two are never the same object (l.562-563) *)
Definition same_object (s : sprite) (e : nat) : bool := false.

(** one turn of the loop of [Gameplay.spawn_explosions_from_cooldowns] (l.560-565) *)
Definition materialize (w : World) (kv : ckey * Z) : World :=
  match fst kv with
  | KExplosion e =>
      if negb (existsb (fun s => same_object s e) (group (game w)))
         && (snd kv <=? 0)
      then match aget e (explosions (game w)) with
           | Some ex => set_game (_add_sparks (sparks ex) (game w)) w
           | None => w
           end
      else w
  | _ => w
  end.

Definition spawn_explosions_from_cooldowns (w : World) : World :=
  fold_left materialize (cooldowns w) w.

(** *** The win condition *)

(** [Gameplay.is_win_state] (l.493-501) *)
Definition is_win_state (w : World) : bool :=
  negb (wb_bool (wordbag (game w)))
  && (cd_get KSpawnWord (cooldowns w) <=? 0)
  && negb (existsb (fun s => is_text s || is_spark s) (group (game w))).

(** [Gameplay.check_win_state] (l.406-422) *)
Definition check_win_state (fi : FrameIn) (w : World) : res World :=
  n <- wb_len (wordbag (game w)) ;;
  if Nat.eqb n 0 && is_win_state w then
    let w1 := set_cooldowns (clear_explosions (cooldowns w)) w in
    if Nat.eqb (S (level (game w1))) (List.length (levels (game w1)))
    then Ok (post (PUSHSTATE (SMenu win_menu)) w1)
    else
      g' <- enter fi (set_level (S (level (game w1))) (set_paused false (game w1))) ;;
      Ok (set_game g' w1)
  else Ok w.

(** *** The update routines *)

(** [Gameplay.update_intro] (l.580-596); the placement of the banner is
    drawing only. *)
Definition update_intro (fi : FrameIn) (w : World) : res World :=
  let g := group_update (elapsed fi) (game w) in
  let g1 := set_ready_time (S (ready_time g)) g in
  if intro_over (ready_time g1)
  then g2 <- exit_intro g1 ;; Ok (set_game g2 w)
  else Ok (set_game g1 w).

Definition died_candidates (g : Gameplay) : list sprite :=
  filter (fun s => is_bullet s || is_ship s) (group g).

Definition not_alive (g : Gameplay) (s : sprite) : bool :=
  negb (group_has s (group g)).

Definition ship_ids (g : Gameplay) : list nat :=
  flat_map (fun s => match s with Ship i => [i] | _ => [] end) (group g).

(** [Gameplay.update_gameplay], first part (l.599-615): spawn, sweep, advance,
    explode, aim the player *)
Definition combat_advance (fi : FrameIn) (w : World) : res World :=
  w1 <- maybe_spawn fi w ;;
  let g1 := remove_sparks_outofbounds (game w1) in
  let died := died_candidates g1 in
  let g2 := group_update (elapsed fi) g1 in
  let died' := filter (not_alive g2) died in
  let w2 := spawn_explosions_from_deaths fi died' (set_game g2 w1) in
  let w3 := spawn_explosions_from_cooldowns w2 in
  let g3 := game w3 in
  match locked g3 with
  | Some t =>
      match aget t (ships g3) with
      | Some s =>
          Ok (set_game (set_player_angle
                          (degrees_to (player_position g3) (position s)) g3) w3)
      | None => Raise AttributeError
      end
  | None => Ok w3
  end.

(** the loop over the enemy ships (l.624-648): move, aim, test the collision;
    the loop ends at the first collision *)
Fixpoint move_ships (ids : list nat) (w : World) : World :=
  match ids with
  | [] => w
  | i :: r =>
      let g := game w in
      match aget i (ships g) with
      | None => move_ships r w
      | Some s =>
          let p := step_toward (position s) (player_position g) in
          let g1 := set_ships
                      (aset i (mkShip p (degrees_to (position s) (player_position g)))
                            (ships g)) g in
          if (cd_get KPlayerHit (cooldowns w) <=? 0)
             && colliderect (pixel_rect (32, 32) p)
                            (pixel_rect (32, 32) (player_position g1))
          then
            let g2 := kill (Text i) (kill (Ship i) g1) in
            let g3 := set_health (health g2 - 1) g2 in
            let w1 := set_cooldowns (cd_set KPlayerHit 1000 (cooldowns w))
                        (set_game g3 w) in
            if health g3 =? 0
            then post (PUSHSTATE (SMenu died_menu)) w1
            else w1
          else move_ships r (set_game g1 w)
      end
  end.

(** [Gameplay.update_gameplay], second part (l.609-648) *)
Definition combat_resolve (w : World) : res World :=
  let enemyshipsprites := ship_ids (game w) in
  if match enemyshipsprites with [] => true | _ :: _ => false end && is_win_state w
  then
    match updatestack (game w) with
    | [] => Raise IndexError
    | _ :: r =>
        Ok (set_game
              (set_updatestack (update_gameplay_wait_for_animations_m :: r)
                 (set_player_angle (of_degrees 90) (game w))) w)
    end
  else Ok (move_ships enemyshipsprites w).

(** [Gameplay.update_gameplay] (l.598-648) *)
Definition update_gameplay (fi : FrameIn) (w : World) : res World :=
  w1 <- combat_advance fi w ;; combat_resolve w1.

(** [Gameplay.update_gameplay_wait_for_animations], up to the win check (l.651-658) *)
Definition wait_advance (fi : FrameIn) (w : World) : World :=
  let died := died_candidates (game w) in
  let g1 := group_update (elapsed fi) (game w) in
  let died' := filter (not_alive g1) died in
  let g2 := remove_sparks_outofbounds g1 in
  spawn_explosions_from_cooldowns
    (spawn_explosions_from_deaths fi died' (set_game g2 w)).

(** [Gameplay.update_gameplay_wait_for_animations] (l.650-659) *)
Definition update_gameplay_wait_for_animations (fi : FrameIn) (w : World) : res World :=
  check_win_state fi (wait_advance fi w).

(** [Gameplay.update] (l.577-578) *)
Definition update (fi : FrameIn) (w : World) : res World :=
  match updatestack (game w) with
  | [] => Raise IndexError
  | update_intro_m :: _ => update_intro fi w
  | update_gameplay_m :: _ => update_gameplay fi w
  | update_gameplay_wait_for_animations_m :: _ =>
      update_gameplay_wait_for_animations fi w
  end.

(** [Gameplay.on_keydown] (l.509-519) *)
Definition on_keydown (k : key) (unicode : string) (w : World) : res World :=
  match k with
  | K_ESCAPE =>
      Ok (post (PUSHSTATE (SMenu pause_menu))
               (set_game (set_paused true (game w)) w))
  | _ => fire unicode w
  end.

(** [Gameplay.handle] (l.478-480) *)
Definition handle (ev : event) (w : World) : res World :=
  match ev with
  | KEYDOWN k u => on_keydown k u w
  | _ => Ok w
  end.

(** ** Menus: [class MenuState] (l.242-326) *)

Definition buttons (m : MenuState) : list callback :=
  flat_map (fun it => match it with
                      | Button _ cb => [cb]
                      | Label _ => []
                      end) (items m).

(** the callbacks given to the buttons: [popstate], [back_to_mainmenu]
    (l.396-401), [quit], [lambda: pushstate(gameplay)] *)
Definition do_callback (cb : callback) (w : World) : World :=
  match cb with
  | CbPopstate => post POPSTATE w
  | CbBackToMainmenu => post POPSTATE (post POPSTATE w)
  | CbQuit => post QUIT w
  | CbPushGameplay => post (PUSHSTATE SGameplay) w
  end.

(** [MenuState.select_first_button] (l.308-313); [pg.mouse.set_pos] fires a
    mouse motion over that button (l.322) *)
Definition select_first_button (m : MenuState) (w : World) : MenuState * World :=
  match buttons m with
  | [] => (m, w)
  | _ :: _ => (mkMenu (items m) (Some O), post (MOUSEMOTION (Some O)) w)
  end.

(** [MenuState.selection] (l.315-323); [if not self.hover] raises
    [AttributeError] on a menu whose [hover] was never assigned *)
Definition selection (move : Z) (m : MenuState) (w : World)
  : res (MenuState * World) :=
  match hover_attr m with
  | None => Raise AttributeError
  | Some h =>
      let '(m1, w1) := match h with
                       | None => select_first_button m w
                       | Some _ => (m, w)
                       end in
      match hover m1 with
      | None => Ok (m1, w1)
      | Some index =>
          let n := Z.of_nat (List.length (buttons m1)) in
          Ok (m1,
              post (MOUSEMOTION (Some (Z.to_nat ((Z.of_nat index + move) mod n)))) w1)
      end
  end.

Definition press (m : MenuState) (w : World) (h : nat) : World :=
  match nth_error (buttons m) h with
  | Some cb => do_callback cb w
  | None => w
  end.

(** [MenuState.handle] with [on_keydown], [on_mousebuttondown] and
    [on_mousemotion] (l.275-306) *)
Definition menu_handle (ev : event) (m : MenuState) (w : World)
  : res (MenuState * World) :=
  match ev with
  | KEYDOWN K_RETURN _ =>
      match hover_attr m with
      | None => Raise AttributeError     (* [if self.hover], never assigned *)
      | Some (Some h) => Ok (m, press m w h)
      | Some None => Ok (m, w)
      end
  | KEYDOWN K_DOWN _ => selection 1 m w
  | KEYDOWN K_UP _ => selection (-1) m w
  | MOUSEBUTTONDOWN (Some _) =>
      match hover_attr m with
      | Some (Some h) => Ok (m, press m w h)
      | Some None => Raise AttributeError     (* [self.hover.button] on [None] *)
      | None => Raise AttributeError          (* [self.hover], never assigned *)
      end
  | MOUSEMOTION hit => Ok (mkMenu (items m) hit, w)
  | _ => Ok (m, w)
  end.

(** ** Scene stack: [class StateManager] (l.135-170) *)

(** [state.enter()]: [Gameplay.enter] or [MenuState.enter] (l.271-273) *)
Definition scene_enter (fi : FrameIn) (s : scene) (w : World) : res (scene * World) :=
  match s with
  | SGameplay => g <- enter fi (game w) ;; Ok (SGameplay, set_game g w)
  | SMenu m => let '(m', w') := select_first_button m w in Ok (SMenu m', w')
  end.

(** [StateManager.pop]; no scene overrides [exit] *)
Definition sm_pop (fi : FrameIn) (w : World) : res World :=
  match stack w with
  | [] => Raise IndexError
  | _ :: [] => Ok (set_stack [] w)
  | _ :: top :: below =>
      r <- scene_enter fi top w ;;
      Ok (set_stack (fst r :: below) (snd r))
  end.

(** [StateManager.push] *)
Definition sm_push (fi : FrameIn) (s : scene) (w : World) : res World :=
  r <- scene_enter fi s w ;;
  Ok (set_stack (fst r :: stack w) (snd r)).

(** the loop of [StateManager.update] over the events taken from the queue *)
Fixpoint sm_dispatch (fi : FrameIn) (evs : list event) (w : World) : res World :=
  match evs with
  | [] => Ok w
  | POPSTATE :: r => w1 <- sm_pop fi w ;; sm_dispatch fi r w1
  | PUSHSTATE s :: r => w1 <- sm_push fi s w ;; sm_dispatch fi r w1
  | e :: r => sm_dispatch fi r (post e w)
  end.

(** [StateManager.update] *)
Definition sm_update (fi : FrameIn) (w : World) : res World :=
  sm_dispatch fi (events w) (set_events [] w).

(** ** Frame engine: [Engine.run] (l.182-202) *)

(** [self.state_manager.current.handle(event)] *)
Definition scene_handle (ev : event) (w : World) : res World :=
  match stack w with
  | [] => Raise AttributeError
  | SGameplay :: _ => handle ev w
  | SMenu m :: below =>
      r <- menu_handle ev m w ;;
      Ok (set_stack (SMenu (fst r) :: below) (snd r))
  end.

Fixpoint handle_all (evs : list event) (w : World) : res World :=
  match evs with
  | [] => Ok w
  | e :: r => w1 <- scene_handle e w ;; handle_all r w1
  end.

(** [self.state_manager.current.update(elapsed)]; [MenuState.update] only
    updates sprites that do not change *)
Definition scene_update (fi : FrameIn) (w : World) : res World :=
  match stack w with
  | [] => Raise AttributeError
  | SGameplay :: _ => update fi w
  | SMenu _ :: _ => Ok w
  end.

(** [self.state_manager.current.draw(...)] (l.196).  Drawing changes
    nothing, but [MenuState.draw] (l.266-269) reads [self.hover] and raises
    [AttributeError] on a menu whose [hover] was never assigned;
    [Gameplay.draw] (l.429-439) only reads the group and the health. *)
Definition scene_draw (w : World) : res unit :=
  match stack w with
  | [] => Raise AttributeError
  | SGameplay :: _ => Ok tt
  | SMenu m :: _ =>
      match hover_attr m with
      | None => Raise AttributeError
      | Some _ => Ok tt
      end
  end.

(** the part of one turn of the loop that follows the scene transitions:
    input, cooldowns, update (l.188-194) *)
Definition frame_body (fi : FrameIn) (w : World) : res World :=
  w1 <- handle_all (events w) (set_events [] w) ;;
  scene_update fi (set_cooldowns (tick (elapsed fi) (cooldowns w1)) w1).

(** one turn of the loop of [Engine.run]; [None] when the loop ends.  The
    events that arrived since the last turn are in the queue when the turn
    starts.  Drawing does not change the state, but it can fail. *)
Definition frame (fi : FrameIn) (w : World) : res (option World) :=
  let w0 := set_events (events w ++ inputs fi) w in
  if existsb is_quit (events w0) then Ok None
  else
    w1 <- sm_update fi w0 ;;
    match stack w1 with
    | [] => Ok None
    | _ :: _ =>
        w2 <- frame_body fi w1 ;;
        _ <- scene_draw w2 ;;
        Ok (Some w2)
    end.

(** [Engine.run] over the given frames; the world is returned as it is when
    the frames are used up or the loop has ended *)
Fixpoint run (fis : list FrameIn) (w : World) : res World :=
  match fis with
  | [] => Ok w
  | fi :: r =>
      o <- frame fi w ;;
      match o with
      | Some w' => run r w'
      | None => Ok w
      end
  end.

(** [haspunctuation] (l.29-30); [string.punctuation] is the ASCII ranges
    33-47, 58-64, 91-96 and 123-126 *)
Definition is_punctuation (c : ascii) : bool :=
  let n := nat_of_ascii c in
  (Nat.leb 33 n && Nat.leb n 47) || (Nat.leb 58 n && Nat.leb n 64)
  || (Nat.leb 91 n && Nat.leb n 96) || (Nat.leb 123 n && Nat.leb n 126).

Definition haspunctuation (word : string) : bool :=
  existsb is_punctuation (list_ascii_of_string word).

(** the [levels] of [start] (l.914-918) *)
Definition start_levels : list (Z * (string -> bool)) :=
  let len := fun word => Z.of_nat (String.length word) in
  [(5, fun word => negb (haspunctuation word) && (1 <? len word) && (len word <? 5));
   (10, fun word => negb (haspunctuation word) && (2 <? len word) && (len word <? 5));
   (15, fun word => negb (haspunctuation word) && (3 <? len word) && (len word <? 5));
   (20, fun word => negb (haspunctuation word) && (4 <? len word));
   (20, fun word => negb (haspunctuation word) && (7 <? len word))].

(** the screen and the spawn area of [start] (l.904-912): the screen is
    500 by 900, the spawn area is 625 wide and two font heights high, centred
    on the screen's centre line, with its bottom on the screen's top *)
Definition screen_rect : Rect := mkRect 0 0 500 900.

Definition start_spawn_area : Rect :=
  mkRect (250 - Z.quot 625 2) (0 - font_height * 2) 625 (font_height * 2).

(** [start] (l.895-933): the world before the first frame; [ws] is the
    content of [words.txt] *)
Definition start (skip_mainmenu skip_intro : bool) (ws : list string) : World :=
  mkWorld []
    (Gameplay_init screen_rect start_spawn_area (Wordbag_init ws) start_levels
       skip_intro)
    [PUSHSTATE (if skip_mainmenu then SGameplay else SMenu main_menu)]
    [].

End Game.

(** ** A geometry to run examples

    Positions on the integer pixel grid: a ship advances one pixel on each
    axis toward the player, rectangles are centred with [set_center].  The
    interpreter is one that still samples a set (Python up to 3.10), on which
    a level can start. *)

Definition grid_step (p q : Z * Z) : Z * Z :=
  (fst p + Z.sgn (fst q - fst p), snd p + Z.sgn (snd q - snd p)).

Definition grid_lerpi (a b : Z * Z) (acc ttl : Z) : Z * Z :=
  (fst a + (fst b - fst a) * acc / ttl, snd a + (snd b - snd a) * acc / ttl).

Definition grid_knock_back (o t : Z * Z) : Z * Z :=
  (fst t + 4 * Z.sgn (fst t - fst o), snd t + 4 * Z.sgn (snd t - snd o)).

Definition grid_velocity (a sp : Z) : Z * Z :=
  if a <? 180 then (sp, - sp) else (- sp, sp).

Definition grid : Geometry := {|
  point := Z * Z;
  angle := Z;
  of_pixels := fun p => p;
  pixel_rect := fun size p => set_center (mkRect 0 0 (fst size) (snd size)) p;
  degrees_to := fun p q => if snd q <? snd p then 90 else 270;
  of_degrees := fun d => d;
  step_toward := grid_step;
  lerpi := grid_lerpi;
  knock_back := grid_knock_back;
  velocity := grid_velocity;
  padd := fun p q => (fst p + fst q, snd p + snd q);
  player_home := fun space =>
    (left space + width space / 2, top space + 3 * height space / 4);
  font_size := fun s => (10 * Z.of_nat (String.length s), 22);
  font_height := 22;
  samples_sets := true;
  uniform := fun speeds r => fst speeds + r mod (snd speeds - fst speeds + 1);
  intro_over := fun n => Nat.leb 150 n
|}.

(** ** Example plays

    Plays of the game as [start] sets it up, with the main menu and the intro
    skipped, on a vocabulary of ten three-letter words.  Every word spawns at
    the same place above the player, and every draw of an explosion gives one
    of two argument tuples, so that an explosion holds two sparks. *)

Section Plays.
#[local] Existing Instance grid.

Definition demo_words : list string :=
  ["cat"; "dog"; "sun"; "map"; "key"; "box"; "red"; "ink"; "owl"; "fig"]%string.

(** a frame of [ms] milliseconds with the given input events *)
Definition demo_frame (ms : Z) (ins : list event) : FrameIn :=
  mkFrameIn ms ins (repeat O 10) (312, 0)
    (fun _ i => (Nat.modulo i 2, (Nat.modulo i 2 * 180)%nat, 0)).

(** the key presses that type [s] *)
Definition keys (s : string) : list event :=
  map (fun c => KEYDOWN K_OTHER (String c EmptyString)) (list_ascii_of_string s).

Definition idle (n : nat) : list FrameIn := repeat (demo_frame 16 []) n.

Definition demo_start : World := start true true demo_words.

(** the world after the frames; the plays below do not raise *)
Definition world_after (fis : list FrameIn) : World :=
  match run fis demo_start with
  | Ok w => w
  | Raise _ => demo_start
  end.

(** the first level played through: each word is typed in the frame after
    the one in which it spawns *)
Definition level_one_play : list FrameIn :=
  idle 1 ++ [demo_frame 16 (keys "red")] ++ idle 62
  ++ [demo_frame 16 (keys "ink")] ++ idle 62
  ++ [demo_frame 16 (keys "owl")] ++ idle 62
  ++ [demo_frame 16 (keys "fig")] ++ idle 62
  ++ [demo_frame 16 (keys "cat")] ++ idle 64.

Definition is_ok (A : Type) (r : res A) : bool :=
  match r with
  | Ok _ => true
  | Raise _ => false
  end.

Definition world_of (r : res World) : World :=
  match r with
  | Ok w => w
  | Raise _ => demo_start
  end.

(** the world after further frames *)
Definition later (fis : list FrameIn) (w : World) : World :=
  world_of (run fis w).

(** the world in the middle of a frame: the cooldowns are ticked, the
    update is still to come *)
Definition ticked (w : World) : World :=
  set_cooldowns (tick 16 (cooldowns w)) w.

(** a play in which nothing is typed, the escape key is pressed in the
    frame of the third collision, and the two menus that open are then
    closed with the return key *)
Definition pause_race_play : list FrameIn :=
  idle 799
  ++ [demo_frame 16 [KEYDOWN K_ESCAPE EmptyString];
      demo_frame 16 [KEYDOWN K_RETURN EmptyString];
      demo_frame 16 [KEYDOWN K_RETURN EmptyString]]
  ++ idle 546.

(** a play in which the first letter of the first word is typed and the
    word is then left to reach the player *)
Definition lock_play : list FrameIn :=
  idle 1 ++ [demo_frame 16 (keys "r")] ++ idle 674.

(** three frames of half a second *)
Definition slow_play : list FrameIn := repeat (demo_frame 500 []) 3.

(** a play paused after seven frames, with three frames spent in the pause
    menu and the return key pressed in the last of them *)
Definition pause_play : list FrameIn :=
  idle 1 ++ [demo_frame 16 (keys "r")] ++ idle 5
  ++ [demo_frame 16 [KEYDOWN K_ESCAPE EmptyString]]
  ++ idle 2 ++ [demo_frame 16 [KEYDOWN K_RETURN EmptyString]].

End Plays.

(** ** Vocabulary of the properties *)

Section Vocabulary.
Context {G : Geometry}.

(** what neither the sprites' updates nor the explosions touch: the
    configuration, the player's place and health, the scene flags, the
    sub-state stack and the lock *)
Definition core (g : Gameplay) :=
  (space g, spawn_area g, levels g, skip_intro g, player_position g, health g,
   paused g, updatestack g, ready_time g, damage_on_miss g, level g,
   max_nsprites g, locked g).

(** no [TextSprite], [EnemyShipSprite] or [Spark] is in the group *)
Definition no_target_or_spark (g : Gameplay) : Prop :=
  forall s, In s (group g) -> is_text s = false /\ is_ship s = false /\ is_spark s = false.

(** no [TextSprite] or [Spark] is in the group *)
Definition no_text_or_spark (g : Gameplay) : Prop :=
  forall s, In s (group g) -> is_text s = false /\ is_spark s = false.

(** the condition on which a combat tick ends the combat, read after the
    tick's spawn and advance steps *)
Definition combat_done (w : World) : Prop :=
  wb_bool (wordbag (game w)) = false
  /\ cd_get KSpawnWord (cooldowns w) <= 0
  /\ no_target_or_spark (game w).

(** the condition on which a wait tick ends the level, read after the tick's
    advance steps *)
Definition wait_done (w : World) : Prop :=
  _sample (wordbag (game w)) = Some []
  /\ cd_get KSpawnWord (cooldowns w) <= 0
  /\ no_text_or_spark (game w).

(** an explosion leaves the core, the queue, the scene stack and the two
    gameplay timers as they are *)
Definition untouched (w w' : World) : Prop :=
  core (game w') = core (game w)
  /\ events w' = events w
  /\ stack w' = stack w
  /\ cd_get KSpawnWord (cooldowns w') = cd_get KSpawnWord (cooldowns w)
  /\ cd_get KPlayerHit (cooldowns w') = cd_get KPlayerHit (cooldowns w).

(** an event that [StateManager.update] leaves to the scene, and that
    does not end the loop *)
Definition is_plain (e : event) : bool :=
  match e with
  | POPSTATE | PUSHSTATE _ | QUIT => false
  | _ => true
  end.

(** the frames spent in a scene while no transition is pending: each takes
    the events that arrived and runs the input, cooldown and update steps *)
Fixpoint quiet_frames (fis : list FrameIn) (w : World) : res World :=
  match fis with
  | [] => Ok w
  | fi :: r =>
      w' <- frame_body fi (set_events (events w ++ inputs fi) w) ;;
      quiet_frames r w'
  end.

(** the cooldowns after the frames *)
Definition ticks (fis : list FrameIn) (cd : Cooldowns) : Cooldowns :=
  fold_left (fun acc fi => tick (elapsed fi) acc) fis cd.

End Vocabulary.

(** ** Bounding boxes and the layout of a menu *)

(** [min] and [max] of a generator of integers: [ValueError] when it is
    empty *)
Definition py_min (l : list Z) : res Z :=
  match l with
  | [] => Raise ValueError
  | x :: r => Ok (fold_left Z.min r x)
  end.

Definition py_max (l : list Z) : res Z :=
  match l with
  | [] => Raise ValueError
  | x :: r => Ok (fold_left Z.max r x)
  end.

(** [wrap] (l.75-85): the bounding rect of the rects *)
Definition wrap (rects : list Rect) : res Rect :=
  l <- py_min (map left rects) ;;
  t <- py_min (map top rects) ;;
  r <- py_max (map right rects) ;;
  b <- py_max (map bottom rects) ;;
  Ok (mkRect l t (r - l) (b - t)).

(** [rect.x += dx; rect.y += dy] *)
Definition move (dx dy : Z) (r : Rect) : Rect :=
  mkRect (left r + dx) (top r + dy) (width r) (height r).

(** [s2.rect.top = s1.rect.bottom + 20] for each sprite and the next
    (l.253-254); the rect set in one turn is the upper rect of the next *)
Fixpoint stack_from (prev : Rect) (rs : list Rect) : list Rect :=
  match rs with
  | [] => []
  | r :: rest =>
      let r' := mkRect (left r) (bottom prev + 20) (width r) (height r) in
      r' :: stack_from r' rest
  end.

Definition stack_rects (rs : list Rect) : list Rect :=
  match rs with
  | [] => []
  | r :: rest => r :: stack_from r rest
  end.

(** each rect of the list is 20 below the one before it *)
Definition spaced (l : list Rect) : Prop :=
  forall i r1 r2,
    nth_error l i = Some r1 -> nth_error l (S i) = Some r2 ->
    top r2 = bottom r1 + 20.

Section Layout.
Context {G : Geometry}.

(** the rect of a [LabelSprite] (l.224-225), the size of the rendered text,
    and of a [ButtonSprite] (l.234-237), that size inflated by 20; both at
    the origin *)
Definition item_sprite_rect (it : item) : Rect :=
  match it with
  | Label t => mkRect 0 0 (fst (font_size t)) (snd (font_size t))
  | Button t _ => mkRect 0 0 (fst (font_size t) + 20) (snd (font_size t) + 20)
  end.

(** [MenuState.__init__] (l.245-260): the rects of the item sprites, stacked
    and then moved so that their bounding rect is centred in [space] *)
Definition MenuState_init (space : Rect) (its : list item) : res (list Rect) :=
  let rs := stack_rects (map item_sprite_rect its) in
  bounding <- wrap rs ;;
  let dx := fst (center space) - fst (center bounding) in
  let dy := snd (center space) - snd (center bounding) in
  Ok (map (move dx dy) rs).

End Layout.

(** ** Timed interpolation: [class lerpvalue] (l.329-349)

    The clock of an interpolation, for integer times: the fields [duration]
    and [time].  The end values [a] and [b] and the property [current], which
    divides in floating point, are not part of the clock. *)

Record lerpvalue : Type := mkLerp {
  duration : Z;
  time : Z
}.

(** [lerpvalue.update] (l.345-349) *)
Definition lerpvalue_update (elapsed : Z) (v : lerpvalue) : lerpvalue :=
  if time v <? duration v then
    let t := time v + elapsed in
    mkLerp (duration v) (if duration v <? t then duration v else t)
  else v.

(** ** Further vocabulary of the properties *)

(** [n] calls of [Wordbag.pop] in a row: the words popped, first pop first *)
Fixpoint pops (n : nat) (w : Wordbag) : res (list string * Wordbag) :=
  match n with
  | O => Ok ([], w)
  | S n' =>
      pr <- wb_pop w ;;
      r <- pops n' (snd pr) ;;
      Ok (fst pr :: fst r, snd r)
  end.

(** the updates of an interpolation clock, one per elapsed time *)
Definition lerpvalue_updates (es : list Z) (v : lerpvalue) : lerpvalue :=
  fold_left (fun a e => lerpvalue_update e a) es v.

(** the scene transitions asked for in a queue of events *)
Definition pops_in (evs : list event) : nat :=
  List.length (filter (fun e => match e with POPSTATE => true | _ => false end) evs).

Definition pushes_in (evs : list event) : nat :=
  List.length (filter (fun e => match e with PUSHSTATE _ => true | _ => false end) evs).

Section Invariants.
Context {G : Geometry}.

(** what is fixed when the gameplay is built: the play area, the spawn area,
    the levels, the intro switch, the player's place, the miss rule and the
    vocabulary *)
Definition config (g : Gameplay) :=
  (space g, spawn_area g, levels g, skip_intro g, player_position g,
   damage_on_miss g, words (wordbag g)).

(** a configuration every level of which can start: the spawn area is not
    inverted, and no level asks for more words than the vocabulary has
    distinct eligible words *)
Definition playable (g : Gameplay) : Prop :=
  left (spawn_area g) <= right (spawn_area g)
  /\ top (spawn_area g) <= bottom (spawn_area g)
  /\ forall i k p,
      nth_error (levels g) i = Some (k, p) ->
      0 <= k <= Z.of_nat (List.length (population (words (wordbag g)) p)).

(** every text sprite made so far has an identity below the next one and
    has its enemy ship *)
Definition arenas_ok (g : Gameplay) : Prop :=
  forall t, aget t (texts g) <> None ->
            (t < next_id g)%nat /\ aget t (ships g) <> None.

(** the state of a gameplay that has been entered: the sub-state stack is one
    of the three the game uses, the level exists, a sample has been drawn,
    and the locked target has text left *)
Definition sound (g : Gameplay) : Prop :=
  (updatestack g = [update_intro_m; update_gameplay_m]
   \/ updatestack g = [update_gameplay_m]
   \/ updatestack g = [update_gameplay_wait_for_animations_m])
  /\ (level g < List.length (levels g))%nat
  /\ _sample (wordbag g) <> None
  /\ (forall t, locked g = Some t ->
                exists o, aget t (texts g) = Some o /\ text o <> EmptyString)
  /\ arenas_ok g.

(** what the sprites' updates, the explosions and the collisions leave
    alone *)
Definition backbone (g : Gameplay) :=
  (space g, spawn_area g, wordbag g, levels g, skip_intro g, player_position g,
   updatestack g, damage_on_miss g, level g, locked g, texts g).

Definition keeps (g g' : Gameplay) : Prop :=
  backbone g' = backbone g
  /\ (next_id g <= next_id g')%nat
  /\ forall t, aget t (ships g) <> None -> aget t (ships g') <> None.

(** the outcome of a step that goes through and keeps the gameplay sound *)
Definition goes_on (w : World) (r : res World) : Prop :=
  exists w',
    r = Ok w'
    /\ sound (game w')
    /\ config (game w') = config (game w)
    /\ (level (game w) <= level (game w'))%nat
    /\ stack w' = stack w.

End Invariants.

Section Evolution.
Context {G : Geometry}.

(** what a gameplay can become: the configuration stays, the level does not
    go down, and the health stays at most 3 *)
Definition evolves (g g' : Gameplay) : Prop :=
  config g' = config g
  /\ (level g <= level g')%nat
  /\ (health g <= 3 -> health g' <= 3).

End Evolution.

Section Sweep.
Context {G : Geometry}.

(** a sprite that [remove_sparks_outofbounds] leaves in the group: every
    sprite but a spark whose rect is not contained in the play area *)
Definition in_bounds (g : Gameplay) (s : sprite) : bool :=
  match s with
  | SparkS k =>
      match aget k (sparkobjs g) with
      | Some o => contains (space g) (spark_rect o)
      | None => true
      end
  | _ => true
  end.

(** one turn of the loop of [remove_sparks_outofbounds] *)
Definition sweep_step (acc : Gameplay) (s : sprite) : Gameplay :=
  match s with
  | SparkS k =>
      match aget k (sparkobjs acc) with
      | Some o => if contains (space acc) (spark_rect o) then acc
                  else kill_spark k acc
      | None => acc
      end
  | _ => acc
  end.

(** the sparks of the explosions, materialized or not *)
Definition pending_sparks (g : Gameplay) : list nat :=
  flat_map (fun e => sparks (snd e)) (explosions g).

End Sweep.

(** ** Further example plays *)

Section MorePlays.
#[local] Existing Instance grid.

(** a gameplay of one level of two words, with the intro skipped *)
Definition tiny_game : Gameplay :=
  Gameplay_init screen_rect start_spawn_area
    (Wordbag_init ["cat"; "dog"]%string) [(2, fun _ => true)] true.

Definition game_of (r : res Gameplay) (d : Gameplay) : Gameplay :=
  match r with
  | Ok g => g
  | Raise _ => d
  end.

(** the tiny gameplay entered, as the one scene of the stack *)
Definition tiny_world : World :=
  mkWorld [] (game_of (enter (demo_frame 16 []) tiny_game) tiny_game) [] [SGameplay].

(** a vocabulary with which every level of [start] can begin: fifteen words
    of four letters and twenty words of eight *)
Definition full_words : list string :=
  map (fun c => ("aaa" ++ String c EmptyString)%string)
      (list_ascii_of_string "abcdefghijklmno")
  ++ map (fun c => ("aaaaaaa" ++ String c EmptyString)%string)
         (list_ascii_of_string "abcdefghijklmnopqrst").

(** the demo game with the first word on screen *)
Definition first_word_world : World := world_after (idle 1).

(** the pause menu over the demo gameplay over the main menu, each menu as
    it is once entered *)
Definition paused_world : World :=
  mkWorld [] (set_paused true (game demo_start)) []
    [SMenu (mkMenu (items pause_menu) (Some O)); SGameplay;
     SMenu (mkMenu (items main_menu) (Some O))].

(** the death menu, entered, over the demo gameplay *)
Definition died_world : World :=
  mkWorld [] (game demo_start) [] [SMenu (mkMenu (items died_menu) (Some O)); SGameplay].

(** the pause menu with its last button, Exit to desktop, hovered *)
Definition quitting_world : World :=
  mkWorld [] (game demo_start) [] [SMenu (mkMenu (items pause_menu) (Some 2%nat))].

End MorePlays.

Section Pacing.
Context {G : Geometry}.

(** the time the frames take *)
Definition total_elapsed (fis : list FrameIn) : Z :=
  fold_right (fun fi a => elapsed fi + a) 0 fis.

End Pacing.

(** ** Tactics for the records *)

(** reduce the record projections applied to the record updates *)
Ltac rsimpl :=
  cbn [space spawn_area wordbag levels skip_intro player_position player_angle health
       group paused updatestack ready_time damage_on_miss level max_nsprites locked
       texts ships bullets sparkobjs explosions next_id set_wordbag set_player_angle
       set_health set_group set_paused set_updatestack set_ready_time set_level
       set_max_nsprites set_locked set_texts set_ships set_bullets set_sparkobjs
       set_explosions set_next_id cooldowns game events stack set_cooldowns set_game
       set_events set_stack post kill].

Ltac rsimpl_in H :=
  cbn [space spawn_area wordbag levels skip_intro player_position player_angle health
       group paused updatestack ready_time damage_on_miss level max_nsprites locked
       texts ships bullets sparkobjs explosions next_id set_wordbag set_player_angle
       set_health set_group set_paused set_updatestack set_ready_time set_level
       set_max_nsprites set_locked set_texts set_ships set_bullets set_sparkobjs
       set_explosions set_next_id cooldowns game events stack set_cooldowns set_game
       set_events set_stack post kill] in H.

Ltac rsimpl_all :=
  cbn [space spawn_area wordbag levels skip_intro player_position player_angle health
       group paused updatestack ready_time damage_on_miss level max_nsprites locked
       texts ships bullets sparkobjs explosions next_id set_wordbag set_player_angle
       set_health set_group set_paused set_updatestack set_ready_time set_level
       set_max_nsprites set_locked set_texts set_ships set_bullets set_sparkobjs
       set_explosions set_next_id cooldowns game events stack set_cooldowns set_game
       set_events set_stack post kill] in *.

(** open a world down to the fields of its gameplay *)
Ltac open_world w :=
  let cd := fresh "cd" in
  let g := fresh "g" in
  let ev := fresh "ev" in
  let st := fresh "st" in
  destruct w as [cd g ev st]; destruct g; rsimpl_all.

(** * Properties *)

(** ** Results and arenas *)

Lemma bind_Ok_inv (A B : Type) (m : res A) (f : A -> res B) (b : B) :
  bind m f = Ok b -> exists a, m = Ok a /\ f a = Ok b.
Proof.
  destruct m as [a|e]; simpl; intros H.
  - exists a. split; [reflexivity | exact H].
  - discriminate H.
Qed.

Lemma ckey_eqb_eq (a b : ckey) : ckey_eqb a b = true <-> a = b.
Proof.
  destruct a, b; simpl; split; intros H; try discriminate; try reflexivity.
  - apply Nat.eqb_eq in H. now subst.
  - injection H as ->. apply Nat.eqb_refl.
Qed.

Lemma aget_aset_same (V : Type) (i : nat) (v : V) (l : list (nat * V)) :
  aget i (aset i v l) = Some v.
Proof.
  induction l as [|[j u] r IH]; simpl.
  - now rewrite Nat.eqb_refl.
  - destruct (Nat.eqb i j) eqn:E; simpl.
    + now rewrite Nat.eqb_refl.
    + now rewrite E.
Qed.

Lemma aget_aset_other (V : Type) (i j : nat) (v : V) (l : list (nat * V)) :
  i <> j -> aget i (aset j v l) = aget i l.
Proof.
  intros Hij. induction l as [|[k u] r IH]; simpl.
  - destruct (Nat.eqb i j) eqn:E; auto. apply Nat.eqb_eq in E. contradiction.
  - destruct (Nat.eqb j k) eqn:E; simpl.
    + apply Nat.eqb_eq in E. subst k.
      destruct (Nat.eqb i j) eqn:E'; auto.
      apply Nat.eqb_eq in E'. contradiction.
    + destruct (Nat.eqb i k); auto.
Qed.

(** ** The timer registry *)

Lemma cd_find_tick (e : Z) (cd : Cooldowns) (k : ckey) :
  cd_find k (tick e cd) = option_map (tick1 e) (cd_find k cd).
Proof.
  induction cd as [|[j v] r IH]; simpl; [reflexivity|].
  destruct (ckey_eqb k j); [reflexivity | exact IH].
Qed.


Lemma cd_get_set_same (k : ckey) (v : Z) (cd : Cooldowns) :
  cd_get k (cd_set k v cd) = v.
Proof.
  unfold cd_get. induction cd as [|[j u] r IH]; simpl.
  - assert (H : ckey_eqb k k = true) by now apply ckey_eqb_eq.
    now rewrite H.
  - destruct (ckey_eqb k j) eqn:E; simpl.
    + assert (H : ckey_eqb k k = true) by now apply ckey_eqb_eq.
      now rewrite H.
    + rewrite E. exact IH.
Qed.

Lemma cd_get_set_other (k j : ckey) (v : Z) (cd : Cooldowns) :
  k <> j -> cd_get k (cd_set j v cd) = cd_get k cd.
Proof.
  intros Hkj. unfold cd_get.
  assert (N : ckey_eqb k j = false).
  { destruct (ckey_eqb k j) eqn:E; auto. apply ckey_eqb_eq in E. contradiction. }
  induction cd as [|[i u] r IH]; simpl.
  - now rewrite N.
  - destruct (ckey_eqb j i) eqn:E; simpl.
    + apply ckey_eqb_eq in E. subst i. now rewrite N.
    + destruct (ckey_eqb k i); auto.
Qed.



(** ** The word pool *)

Lemma last_removelast_perm (A : Type) (d : A) (l : list A) :
  l <> [] -> Permutation l (last l d :: removelast l).
Proof.
  intros H. rewrite (app_removelast_last d H) at 1.
  apply Permutation_sym, Permutation_cons_append.
Qed.

Lemma list_upd_length (A : Type) (j : nat) (v : A) (l : list A) :
  List.length (list_upd j v l) = List.length l.
Proof.
  revert j. induction l as [|x r IH]; intros [|j]; simpl; auto.
Qed.

Lemma swap_remove_perm (pool : list string) (j : nat) :
  (j < List.length pool)%nat ->
  Permutation pool (nth j pool EmptyString :: swap_remove j pool).
Proof.
  unfold swap_remove. revert j.
  induction pool as [|x r IH]; intros j Hj; simpl in Hj; [lia|].
  destruct j as [|j].
  - destruct r as [|y r'].
    + simpl. apply Permutation_refl.
    + change (list_upd 0 (last (x :: y :: r') EmptyString) (x :: y :: r'))
        with (last (y :: r') EmptyString :: y :: r').
      change (removelast (last (y :: r') EmptyString :: y :: r'))
        with (last (y :: r') EmptyString :: removelast (y :: r')).
      simpl nth. apply perm_skip.
      apply last_removelast_perm. discriminate.
  - assert (Hr : r <> []) by (destruct r; simpl in Hj; [lia | discriminate]).
    assert (Hj' : (j < List.length r)%nat) by lia.
    destruct r as [|y r']; [contradiction|].
    change (last (x :: y :: r') EmptyString) with (last (y :: r') EmptyString).
    change (list_upd (S j) (last (y :: r') EmptyString) (x :: y :: r'))
      with (x :: list_upd j (last (y :: r') EmptyString) (y :: r')).
    assert (Hne : list_upd j (last (y :: r') EmptyString) (y :: r') <> []).
    { intros E. apply (f_equal (@List.length string)) in E.
      rewrite list_upd_length in E. discriminate E. }
    destruct (list_upd j (last (y :: r') EmptyString) (y :: r')) as [|z t] eqn:EU;
      [contradiction|].
    change (removelast (x :: z :: t)) with (x :: removelast (z :: t)).
    change (nth (S j) (x :: y :: r') EmptyString) with (nth j (y :: r') EmptyString).
    eapply Permutation_trans; [| apply perm_swap].
    apply perm_skip. rewrite <- EU. apply IH. exact Hj'.
Qed.

Lemma swap_remove_length (pool : list string) (j : nat) :
  (j < List.length pool)%nat ->
  S (List.length (swap_remove j pool)) = List.length pool.
Proof.
  intros H. apply swap_remove_perm in H.
  apply Permutation_length in H. simpl in H. auto.
Qed.

Lemma sample_pool_spec (k : nat) :
  forall (pool : list string) (rs : list nat),
    (k <= List.length pool)%nat -> NoDup pool ->
    List.length (sample_pool pool k rs) = k
    /\ NoDup (sample_pool pool k rs)
    /\ (forall x, In x (sample_pool pool k rs) -> In x pool).
Proof.
  induction k as [|k IH]; intros pool rs Hk Hnd; simpl.
  - repeat split; [constructor | intros x []].
  - set (j := Nat.modulo (hd O rs) (List.length pool)).
    assert (Hj : (j < List.length pool)%nat)
      by (apply Nat.mod_upper_bound; lia).
    pose proof (swap_remove_perm pool Hj) as HP.
    pose proof (swap_remove_length pool Hj) as HL.
    assert (Hnd' : NoDup (nth j pool EmptyString :: swap_remove j pool))
      by (eapply Permutation_NoDup; eauto).
    inversion Hnd' as [|a l Hnotin Hnd'' Heq]; subst.
    destruct (IH (swap_remove j pool) (tl rs)) as (L & N & I); [lia | assumption |].
    repeat split.
    + now rewrite L.
    + constructor; [| exact N]. intros Hin. apply Hnotin. now apply I.
    + intros x [<- | Hin].
      * apply nth_In. exact Hj.
      * eapply Permutation_in; [apply Permutation_sym, HP|].
        right. now apply I.
Qed.

Lemma population_spec (ws : list string) (P : string -> bool) :
  NoDup (population ws P)
  /\ (forall x, In x (population ws P) <-> In x ws /\ P x = true).
Proof.
  unfold population. split; [apply NoDup_nodup|].
  intros x. rewrite nodup_In, filter_In. reflexivity.
Qed.

(** C7: what [randomize] does depends on the interpreter, because it hands
    [random.sample] a set.  Where [random.sample] still takes a set (Python
    up to 3.10), with [k] between 0 and the number of distinct vocabulary
    words that satisfy [P], [randomize] stores a sample of exactly [k]
    distinct words, all satisfying [P], whatever the previous sample was, and
    with a larger [k] it raises [ValueError].  From Python 3.11 on,
    [random.sample] refuses the set, and [randomize] raises [TypeError] for
    every [k], every predicate and every vocabulary: no sample is ever
    drawn. *)
Theorem C7_randomize (ws : list string) (old : option (list string)) (k : Z)
  (P : string -> bool) (rs : list nat) :
  let eligible := population ws P in
  (NoDup eligible /\ forall x, In x eligible <-> In x ws /\ P x = true)
  /\ (0 <= k <= Z.of_nat (List.length eligible) ->
      exists s,
        randomize true k (Some P) rs (mkWordbag ws old) = Ok (mkWordbag ws (Some s))
        /\ Z.of_nat (List.length s) = k
        /\ NoDup s
        /\ (forall x, In x s -> P x = true /\ In x ws)
        /\ randomize true k (Some P) rs (mkWordbag ws old)
           = randomize true k (Some P) rs (Wordbag_init ws))
  /\ (Z.of_nat (List.length eligible) < k ->
      randomize true k (Some P) rs (mkWordbag ws old) = Raise ValueError)
  /\ randomize false k (Some P) rs (mkWordbag ws old) = Raise TypeError
  /\ randomize false k None rs (mkWordbag ws old) = Raise TypeError.
Proof.
  intros eligible. pose proof (population_spec ws P) as [Hnd Hin].
  split; [split; assumption|]. split; [|split; [|split; reflexivity]].
  - intros [H0 Hk]. unfold randomize, random_sample. simpl words.
    fold eligible.
    assert (E1 : (k <? 0) = false) by (apply Z.ltb_ge; lia).
    assert (E2 : (Z.of_nat (List.length eligible) <? k) = false)
      by (apply Z.ltb_ge; lia).
    rewrite E1, E2. simpl.
    destruct (@sample_pool_spec (Z.to_nat k) eligible rs) as (L & N & I);
      [lia | exact Hnd |].
    exists (sample_pool eligible (Z.to_nat k) rs). repeat split.
    + rewrite L. lia.
    + exact N.
    + apply I, Hin in H. tauto.
    + apply I, Hin in H. tauto.
  - intros Hk. unfold randomize, random_sample. simpl words. fold eligible.
    assert (E2 : (Z.of_nat (List.length eligible) <? k) = true)
      by (apply Z.ltb_lt; lia).
    rewrite E2, orb_true_r. reflexivity.
Qed.

(** C7 at a vocabulary with a repeated word.  On Python up to 3.10 two of
    the two distinct words are drawn and three are refused; on Python 3.11
    the same call for two words raises [TypeError]. *)
Lemma C7_randomize_witness :
  (exists s,
      randomize true 2 (Some (fun _ => true)) [7%nat; 3%nat]
        (mkWordbag ["cat"; "dog"; "cat"]%string (Some ["old"%string]))
      = Ok (mkWordbag ["cat"; "dog"; "cat"]%string (Some s))
      /\ Z.of_nat (List.length s) = 2
      /\ NoDup s)
  /\ randomize true 3 (Some (fun _ => true)) [7%nat; 3%nat]
       (mkWordbag ["cat"; "dog"; "cat"]%string (Some ["old"%string]))
     = Raise ValueError
  /\ randomize false 2 (Some (fun _ => true)) [7%nat; 3%nat]
       (mkWordbag ["cat"; "dog"; "cat"]%string (Some ["old"%string]))
     = Raise TypeError.
Proof.
  split; [|split].
  - destruct (proj1 (proj2 (C7_randomize ["cat"; "dog"; "cat"]%string
                              (Some ["old"%string]) 2 (fun _ => true)
                              [7%nat; 3%nat])))
      as (s & E & L & N & _).
    + vm_compute. split; discriminate.
    + exists s. repeat split; assumption.
  - apply (proj1 (proj2 (proj2 (C7_randomize ["cat"; "dog"; "cat"]%string
                           (Some ["old"%string]) 3 (fun _ => true)
                           [7%nat; 3%nat])))).
    vm_compute. reflexivity.
  - apply (proj1 (proj2 (proj2 (proj2 (C7_randomize ["cat"; "dog"; "cat"]%string
                           (Some ["old"%string]) 2 (fun _ => true)
                           [7%nat; 3%nat]))))).
Defined.

(** C10: a word pool on which [randomize] was never called is false, its
    sample is [None] and not the empty list, and [pop] and [len] raise; an
    empty sample is false too, but has a length. *)
Theorem C10_fresh_wordbag (ws : list string) :
  wb_bool (Wordbag_init ws) = false
  /\ _sample (Wordbag_init ws) = None
  /\ _sample (Wordbag_init ws) <> Some []
  /\ wb_pop (Wordbag_init ws) = Raise AttributeError
  /\ wb_len (Wordbag_init ws) = Raise TypeError
  /\ wb_bool (mkWordbag ws (Some [])) = false
  /\ wb_len (mkWordbag ws (Some [])) = Ok O.
Proof.
  unfold Wordbag_init, wb_bool, wb_pop, wb_len. simpl.
  repeat split. discriminate.
Qed.

(** ** What the sprites' updates leave alone *)

Section Frame.
Context {G : Geometry}.

Lemma fold_left_inv (A B : Type) (f : A -> B -> A) (P : A -> Prop) (l : list B) :
  (forall a x, P a -> P (f a x)) -> forall a, P a -> P (fold_left f l a).
Proof.
  intros Hf. induction l as [|x r IH]; simpl; intros a Ha; auto.
Qed.

Lemma core_kill (s : sprite) (g : Gameplay) : core (kill s g) = core g.
Proof. reflexivity. Qed.

Lemma core_kill_spark (k : nat) (g : Gameplay) : core (kill_spark k g) = core g.
Proof. reflexivity. Qed.

Lemma core_bullet_update (dt : Z) (b : nat) (g : Gameplay) :
  core (bullet_update dt b g) = core g.
Proof.
  unfold bullet_update.
  destruct (aget b (bullets g)) as [o|]; [|reflexivity].
  destruct (aget (target o) (ships g)) as [s|]; [|reflexivity].
  destruct (timetolive <=? accumulator o + dt); [|reflexivity].
  match goal with |- context [match ?x with EmptyString => _ | String _ _ => _ end] =>
    destruct x end; reflexivity.
Qed.

Lemma core_spark_update (k : nat) (g : Gameplay) : core (spark_update k g) = core g.
Proof.
  unfold spark_update. destruct (aget k (sparkobjs g)); reflexivity.
Qed.

Lemma core_sprite_update (dt : Z) (s : sprite) (g : Gameplay) :
  core (sprite_update dt s g) = core g.
Proof.
  destruct s; simpl; auto using core_bullet_update, core_spark_update.
Qed.

Lemma core_group_update (dt : Z) (g : Gameplay) : core (group_update dt g) = core g.
Proof.
  unfold group_update.
  apply (fold_left_inv (fun acc s => sprite_update dt s acc)
           (fun a => core a = core g)); [|reflexivity].
  intros a x Ha. now rewrite core_sprite_update.
Qed.

Lemma core_remove_sparks_outofbounds (g : Gameplay) :
  core (remove_sparks_outofbounds g) = core g.
Proof.
  unfold remove_sparks_outofbounds.
  apply (fold_left_inv _ (fun a => core a = core g)); [|reflexivity].
  intros a x Ha. destruct x; auto.
  destruct (aget k (sparkobjs a)) as [o|]; auto.
  destruct (contains (space a) (spark_rect o)); auto.
Qed.

Lemma core_add_sparks (ks : list nat) (g : Gameplay) : core (_add_sparks ks g) = core g.
Proof.
  unfold _add_sparks.
  apply (fold_left_inv _ (fun a => core a = core g)); [|reflexivity].
  intros a x Ha. exact Ha.
Qed.

Lemma core_Explosion_init (c : point) (n : nat) (sp : Z * Z)
  (draw : nat -> nat * nat * Z) (g : Gameplay) :
  core (snd (Explosion_init c n sp draw g)) = core g.
Proof. reflexivity. Qed.

Lemma untouched_refl (w : World) : untouched w w.
Proof. repeat split. Qed.

Lemma untouched_trans (a b c : World) : untouched a b -> untouched b c -> untouched a c.
Proof.
  unfold untouched. intros (A1 & A2 & A3 & A4 & A5) (B1 & B2 & B3 & B4 & B5).
  repeat split; congruence.
Qed.

Lemma untouched_explode (fi : FrameIn) (w : World) (s : sprite) :
  untouched w (explode fi w s).
Proof.
  unfold explode. destruct s; try apply untouched_refl.
  - destruct (aget i (ships (game w))) as [o|]; [|apply untouched_refl].
    unfold Explosion_init. simpl.
    repeat split; simpl; rewrite cd_get_set_other; auto; discriminate.
  - destruct (aget b (bullets (game w))) as [o|]; [|apply untouched_refl].
    unfold Explosion_init. simpl.
    repeat split; simpl. now rewrite core_add_sparks.
Qed.

Lemma untouched_deaths (fi : FrameIn) (died : list sprite) (w : World) :
  untouched w (spawn_explosions_from_deaths fi died w).
Proof.
  unfold spawn_explosions_from_deaths.
  apply (fold_left_inv (explode fi) (fun a => untouched w a));
    [|apply untouched_refl].
  intros a x Ha. eapply untouched_trans; [exact Ha | apply untouched_explode].
Qed.

Lemma materialize_shape (w : World) (kv : ckey * Z) :
  cooldowns (materialize w kv) = cooldowns w /\ untouched w (materialize w kv).
Proof.
  unfold materialize. destruct (fst kv); try (split; [reflexivity | apply untouched_refl]).
  match goal with |- context [if ?c then _ else _] => destruct c end;
    [| split; [reflexivity | apply untouched_refl]].
  destruct (aget e (explosions (game w))) as [ex|];
    [| split; [reflexivity | apply untouched_refl]].
  split; [reflexivity|]. repeat split; simpl. now rewrite core_add_sparks.
Qed.

Lemma fold_materialize_shape (l : Cooldowns) (w : World) :
  cooldowns (fold_left materialize l w) = cooldowns w
  /\ untouched w (fold_left materialize l w).
Proof.
  revert w. induction l as [|kv r IH]; intros w; simpl.
  - split; [reflexivity | apply untouched_refl].
  - destruct (IH (materialize w kv)) as [C U].
    destruct (materialize_shape w kv) as [C' U'].
    split; [congruence | eapply untouched_trans; eauto].
Qed.

Lemma untouched_cooldowns (w : World) :
  untouched w (spawn_explosions_from_cooldowns w).
Proof. apply fold_materialize_shape. Qed.

Lemma cooldowns_spawn_explosions_from_cooldowns (w : World) :
  cooldowns (spawn_explosions_from_cooldowns w) = cooldowns w.
Proof. apply fold_materialize_shape. Qed.

End Frame.

(** ** The win condition *)

Section Win.
Context {G : Geometry}.

Lemma spawn_word_shape (fi : FrameIn) (w w' : World) :
  spawn_word fi w = Ok w' ->
  core (game w') = core (game w) /\ events w' = events w /\ stack w' = stack w
  /\ cd_get KPlayerHit (cooldowns w') = cd_get KPlayerHit (cooldowns w).
Proof.
  unfold spawn_word. intros H.
  apply bind_Ok_inv in H as (pr & _ & H).
  apply bind_Ok_inv in H as (rect & _ & H).
  injection H as <-. simpl. repeat split.
  rewrite cd_get_set_other; [reflexivity | discriminate].
Qed.

Lemma maybe_spawn_shape (fi : FrameIn) (w w' : World) :
  maybe_spawn fi w = Ok w' ->
  core (game w') = core (game w) /\ events w' = events w /\ stack w' = stack w
  /\ cd_get KPlayerHit (cooldowns w') = cd_get KPlayerHit (cooldowns w).
Proof.
  unfold maybe_spawn. destruct (needs_word_spawn w).
  - apply spawn_word_shape.
  - intros H. injection H as <-. repeat split.
Qed.

(** the first part of a combat tick leaves the core, the queue, the scene
    stack and the collision timer as they are *)
Lemma combat_advance_shape (fi : FrameIn) (w w1 : World) :
  combat_advance fi w = Ok w1 ->
  core (game w1) = core (game w) /\ events w1 = events w /\ stack w1 = stack w
  /\ cd_get KPlayerHit (cooldowns w1) = cd_get KPlayerHit (cooldowns w).
Proof.
  unfold combat_advance. intros H.
  apply bind_Ok_inv in H as (w0 & H0 & H).
  apply maybe_spawn_shape in H0 as (C0 & E0 & S0 & P0).
  set (g1 := remove_sparks_outofbounds (game w0)) in *.
  set (g2 := group_update (elapsed fi) g1) in *.
  set (w2 := spawn_explosions_from_deaths fi
               (filter (not_alive g2) (died_candidates g1)) (set_game g2 w0)) in *.
  set (w3 := spawn_explosions_from_cooldowns w2) in *.
  assert (U : untouched (set_game g2 w0) w3).
  { eapply untouched_trans; [apply untouched_deaths | apply untouched_cooldowns]. }
  destruct U as (U1 & U2 & U3 & U4 & U5). simpl in U1, U2, U3, U5.
  assert (C2 : core (game w3) = core (game w)).
  { rewrite U1. unfold g2. rewrite core_group_update. unfold g1.
    rewrite core_remove_sparks_outofbounds. exact C0. }
  destruct (locked (game w3)) as [t|].
  - destruct (aget t (ships (game w3))) as [s|]; [|discriminate].
    injection H as <-. simpl. repeat split; try congruence. exact C2.
  - injection H as <-. repeat split; congruence.
Qed.

Lemma move_ships_shape (ids : list nat) (w : World) :
  updatestack (game (move_ships ids w)) = updatestack (game w)
  /\ locked (game (move_ships ids w)) = locked (game w)
  /\ paused (game (move_ships ids w)) = paused (game w)
  /\ level (game (move_ships ids w)) = level (game w)
  /\ stack (move_ships ids w) = stack w.
Proof.
  revert w. induction ids as [|i r IH]; intros w; simpl; [repeat split|].
  destruct (aget i (ships (game w))) as [s|]; [|apply IH].
  match goal with |- context [if ?c then _ else _] => destruct c end.
  - match goal with |- context [if ?c then _ else _] => destruct c end;
      repeat split.
  - destruct (IH (set_game
                    (set_ships
                       (aset i (mkShip (step_toward (position s) (player_position (game w)))
                                       (degrees_to (position s) (player_position (game w))))
                             (ships (game w))) (game w)) w)) as (A & B & C & D & E).
    repeat split; assumption.
Qed.

Lemma ship_ids_nil (g : Gameplay) :
  ship_ids g = [] <-> (forall s, In s (group g) -> is_ship s = false).
Proof.
  unfold ship_ids. induction (group g) as [|x r IH]; simpl.
  - split; [intros _ s [] | reflexivity].
  - split.
    + intros H s [<- | Hs].
      * destruct x; simpl in *; try reflexivity; discriminate.
      * apply app_eq_nil in H as [_ H]. apply IH; assumption.
    + intros H. assert (Hx := H x (or_introl eq_refl)).
      destruct x; simpl in *; try discriminate; apply IH; auto.
Qed.

Lemma is_win_state_spec (w : World) :
  is_win_state w = true <->
  wb_bool (wordbag (game w)) = false
  /\ cd_get KSpawnWord (cooldowns w) <= 0
  /\ no_text_or_spark (game w).
Proof.
  unfold is_win_state, no_text_or_spark.
  rewrite !andb_true_iff, !negb_true_iff, Z.leb_le.
  split.
  - intros [[A B] C]. repeat split; auto.
    + destruct (is_text s) eqn:E; auto.
      assert (X : existsb (fun s => is_text s || is_spark s) (group (game w)) = true)
        by (apply existsb_exists; exists s; rewrite E; auto).
      congruence.
    + destruct (is_spark s) eqn:E; auto.
      assert (X : existsb (fun s => is_text s || is_spark s) (group (game w)) = true)
        by (apply existsb_exists; exists s; rewrite E, orb_true_r; auto).
      congruence.
  - intros (A & B & C). repeat split; auto.
    destruct (existsb _ (group (game w))) eqn:E; auto.
    apply existsb_exists in E as (s & Hs & E).
    destruct (C s Hs) as [T S]. rewrite T, S in E. discriminate.
Qed.

Lemma exit_intro_level (g g' : Gameplay) :
  exit_intro g = Ok g' -> level g' = level g.
Proof.
  unfold exit_intro. destruct (updatestack g); [discriminate|].
  intros H. injection H as <-. reflexivity.
Qed.

Lemma reset_level (fi : FrameIn) (g g' : Gameplay) :
  reset fi g = Ok g' -> level g' = level g.
Proof.
  unfold reset.
  set (g1 := set_locked None (set_max_nsprites 3 (set_group [] g))).
  change (levels g1) with (levels g). change (level g1) with (level g).
  destruct (nth_error (levels g) (level g)) as [[k p]|]; [|discriminate].
  intros H. apply bind_Ok_inv in H as (wb & _ & H).
  match type of H with
  | (if skip_intro ?g5 then _ else _) = _ =>
      assert (L : level g5 = level g) by reflexivity;
      destruct (skip_intro g5);
      [ apply exit_intro_level in H; congruence
      | injection H as <-; exact L ]
  end.
Qed.

Lemma enter_level (fi : FrameIn) (g g' : Gameplay) :
  enter fi g = Ok g' -> level g' = level g.
Proof.
  unfold enter. destruct (paused g).
  - intros H. injection H as <-. reflexivity.
  - intros H. apply bind_Ok_inv in H as (g1 & H1 & H).
    injection H as <-. apply reset_level in H1. exact H1.
Qed.

(** C1: a combat tick moves to the wait-for-animations sub-state exactly when,
    after its spawn and advance steps, the pool is empty, the spawn timer has
    run out (at most 0 is left, it is ready) and no text sprite, enemy ship or
    spark is in the group.  A wait tick signals the end of the level (the win
    menu, or the next level entered) exactly when, after its advance steps,
    the sample is empty, the spawn timer has run out and no text sprite or
    spark is in the group; other sprites may remain. *)
Theorem C1_win_transitions (fi : FrameIn) (w w1 : World) (r : list umode)
  (l : list string) :
  (combat_advance fi w = Ok w1 ->
   updatestack (game w) = update_gameplay_m :: r ->
   exists w2,
     update_gameplay fi w = Ok w2
     /\ (updatestack (game w2) = update_gameplay_wait_for_animations_m :: r
         \/ updatestack (game w2) = update_gameplay_m :: r)
     /\ (updatestack (game w2) = update_gameplay_wait_for_animations_m :: r
         <-> combat_done w1))
  /\ (wait_advance fi w = w1 ->
      _sample (wordbag (game w1)) = Some l ->
      (~ wait_done w1 -> update_gameplay_wait_for_animations fi w = Ok w1)
      /\ (wait_done w1 -> S (level (game w1)) = List.length (levels (game w1)) ->
          update_gameplay_wait_for_animations fi w
          = Ok (post (PUSHSTATE (SMenu win_menu))
                     (set_cooldowns (clear_explosions (cooldowns w1)) w1)))
      /\ (wait_done w1 -> S (level (game w1)) <> List.length (levels (game w1)) ->
          update_gameplay_wait_for_animations fi w
          = (g' <- enter fi (set_level (S (level (game w1)))
                               (set_paused false (game w1))) ;;
             Ok (set_game g' (set_cooldowns (clear_explosions (cooldowns w1)) w1))))
      /\ (forall w2, update_gameplay_wait_for_animations fi w = Ok w2 ->
          (wait_done w1 <-> events w2 = events w1 ++ [PUSHSTATE (SMenu win_menu)]
                            \/ level (game w2) = S (level (game w1))))).
Proof.
  split.
  - unfold combat_done. intros Hadv Hst.
    destruct (combat_advance_shape _ _ Hadv) as (C & _).
    assert (Hst1 : updatestack (game w1) = update_gameplay_m :: r).
    { unfold core in C. injection C as _ _ _ _ _ _ _ U _ _ _ _ _. congruence. }
    unfold update_gameplay. rewrite Hadv. simpl bind. unfold combat_resolve.
    destruct (ship_ids (game w1)) as [|i ids] eqn:Es.
    + destruct (is_win_state w1) eqn:Ew; simpl andb; cbv iota.
      * rewrite Hst1. eexists. split; [reflexivity|]. simpl.
        split; [left; reflexivity|]. split; [intros _ | reflexivity].
        apply is_win_state_spec in Ew as (A & B & C').
        repeat split; auto; try (now apply C').
        apply ship_ids_nil with (g := game w1); assumption.
      * eexists. split; [reflexivity|]. simpl. rewrite Hst1.
        split; [right; reflexivity|]. split; [discriminate|].
        intros (A & B & C').
        assert (X : is_win_state w1 = true).
        { apply is_win_state_spec. repeat split; auto; now apply C'. }
        congruence.
    + simpl andb. cbv iota. eexists. split; [reflexivity|].
      destruct (move_ships_shape (i :: ids) w1) as (U & _). rewrite U, Hst1.
      split; [right; reflexivity|]. split; [discriminate|].
      intros (A & B & C').
      assert (X : ship_ids (game w1) = []).
      { apply ship_ids_nil. intros s Hs. now apply C'. }
      congruence.
  - intros Hw Hl. set (won := wait_done w1).
    unfold update_gameplay_wait_for_animations, check_win_state.
    rewrite Hw. unfold wb_len. rewrite Hl. cbn [bind].
    assert (Hiff : Nat.eqb (List.length l) 0 && is_win_state w1 = true <-> won).
    { unfold won, wait_done.
      rewrite andb_true_iff, Nat.eqb_eq, is_win_state_spec.
      unfold wb_bool. rewrite Hl. destruct l as [|x l']; simpl;
        intuition (try discriminate; try reflexivity). }
    destruct (Nat.eqb (List.length l) 0 && is_win_state w1) eqn:E.
    + assert (Hw1 : won) by now apply Hiff.
      change (game (set_cooldowns (clear_explosions (cooldowns w1)) w1)) with (game w1).
      split; [intros N; contradiction|].
      split.
      { intros _ Hlast. apply Nat.eqb_eq in Hlast. rewrite Hlast. reflexivity. }
      split.
      { intros _ Hnl. apply Nat.eqb_neq in Hnl. rewrite Hnl. reflexivity. }
      intros w2 H2. split; [intros _ | intros _; exact Hw1].
      destruct (Nat.eqb (S (level (game w1))) (List.length (levels (game w1)))).
      * injection H2 as <-. left. reflexivity.
      * apply bind_Ok_inv in H2 as (g' & Hg & H2). injection H2 as <-.
        right. apply enter_level in Hg. exact Hg.
    + assert (Hn : ~ won) by (intros X; apply Hiff in X; discriminate).
      split; [reflexivity|].
      split; [intros X; contradiction|].
      split; [intros X; contradiction|].
      intros w2 H2. injection H2 as <-.
      split; [intros X; contradiction|].
      intros [X | X].
      * apply (f_equal (@List.length event)) in X. rewrite length_app in X.
        simpl in X. lia.
      * lia.
Qed.

End Win.

(** ** Spawning *)

Section Spawn.
Context {G : Geometry}.

Lemma sprite_eqb_eq (a b : sprite) : sprite_eqb a b = true <-> a = b.
Proof.
  destruct a, b; simpl; split; intros H; try discriminate; try reflexivity;
    try (apply Nat.eqb_eq in H; now subst);
    try (injection H as ->; apply Nat.eqb_refl).
Qed.

Lemma group_has_In (s : sprite) (g : list sprite) : group_has s g = true <-> In s g.
Proof.
  unfold group_has. rewrite existsb_exists. split.
  - intros (x & Hx & E). apply sprite_eqb_eq in E. now subst.
  - intros H. exists s. split; [exact H | now apply sprite_eqb_eq].
Qed.

Lemma insert_layered_In (s x : sprite) (g : list sprite) :
  In x (insert_layered s g) <-> x = s \/ In x g.
Proof.
  induction g as [|y r IH]; simpl.
  - intuition.
  - destruct (layer y <=? layer s); simpl; rewrite ?IH; intuition.
Qed.

Lemma group_add_In (s x : sprite) (g : list sprite) :
  In x (group_add s g) <-> x = s \/ In x g.
Proof.
  unfold group_add. destruct (group_has s g) eqn:E.
  - apply group_has_In in E. split; [auto | intros [-> | H]; auto].
  - apply insert_layered_In.
Qed.

Lemma group_remove_In (s x : sprite) (g : list sprite) :
  In x (group_remove s g) <-> x <> s /\ In x g.
Proof.
  unfold group_remove. rewrite filter_In, negb_true_iff. split.
  - intros [H E]. split; auto. intros ->.
    assert (X : sprite_eqb s s = true) by now apply sprite_eqb_eq. congruence.
  - intros [N H]. split; auto.
    destruct (sprite_eqb s x) eqn:E; auto.
    apply sprite_eqb_eq in E. congruence.
Qed.

Lemma randint_range (a b r v : Z) : randint a b r = Ok v -> a <= v <= b.
Proof.
  unfold randint. destruct (b <? a) eqn:E; [discriminate|].
  apply Z.ltb_ge in E. intros H. injection H as <-.
  pose proof (Z.mod_pos_bound r (b - a + 1)). lia.
Qed.

Lemma randint_ok (a b r : Z) : a <= b -> randint a b r = Ok (a + r mod (b - a + 1)).
Proof.
  intros H. unfold randint.
  destruct (b <? a) eqn:E; [apply Z.ltb_lt in E; lia | reflexivity].
Qed.

Lemma clamp1_inside (x w ix iw : Z) :
  w < iw -> ix <= clamp1 x w ix iw /\ clamp1 x w ix iw + w <= ix + iw.
Proof.
  intros H. unfold clamp1.
  destruct (iw <=? w) eqn:E1; [apply Z.leb_le in E1; lia|].
  destruct (x <? ix) eqn:E2; [apply Z.ltb_lt in E2; lia|].
  apply Z.ltb_ge in E2.
  destruct (ix + iw <? x + w) eqn:E3;
    [apply Z.ltb_lt in E3 | apply Z.ltb_ge in E3]; lia.
Qed.

(** a rectangle smaller than the zone is inside the zone once clamped *)
Lemma clamp_contains (r inside : Rect) :
  0 < width r < width inside -> 0 < height r < height inside ->
  contains inside (clamp r inside) = true.
Proof.
  intros [Hw0 Hw] [Hh0 Hh]. unfold contains, clamp, right, bottom. simpl.
  pose proof (clamp1_inside (left r) (left inside) Hw).
  pose proof (clamp1_inside (top r) (top inside) Hh).
  rewrite !andb_true_iff, !Z.leb_le, !Z.ltb_lt. lia.
Qed.

Lemma needs_word_spawn_spec (w : World) :
  needs_word_spawn w = true <->
  Z.of_nat (List.length (filter is_text (group (game w)))) < max_nsprites (game w)
  /\ cd_get KSpawnWord (cooldowns w) <= 0
  /\ exists x l, _sample (wordbag (game w)) = Some (x :: l).
Proof.
  unfold needs_word_spawn. rewrite !andb_true_iff, Z.ltb_lt, Z.leb_le.
  unfold wb_bool.
  destruct (_sample (wordbag (game w))) as [[|x l]|]; split.
  - intros [[_ H] _]. discriminate.
  - intros (_ & _ & x & l & H). discriminate.
  - intros [[A _] B]. repeat split; auto. now exists x, l.
  - intros (A & B & _). auto.
  - intros [[_ H] _]. discriminate.
  - intros (_ & _ & x & l & H). discriminate.
Qed.

(** C5: a combat tick spawns a target exactly when fewer text sprites than
    the maximum are alive, the spawn timer has run out and the sample is not
    empty.  The spawned target takes the last word of the sample, joins the
    group with its ship, is centred where [random_location] puts the text
    rectangle, namely at a random point of the spawn zone clamped into the
    zone, without regard to the other targets, and the spawn timer is set to
    1000. *)
Theorem C5_spawn (fi : FrameIn) (w : World) :
  (needs_word_spawn w = true <->
   Z.of_nat (List.length (filter is_text (group (game w)))) < max_nsprites (game w)
   /\ cd_get KSpawnWord (cooldowns w) <= 0
   /\ exists x l, _sample (wordbag (game w)) = Some (x :: l))
  /\ (needs_word_spawn w = false -> maybe_spawn fi w = Ok w)
  /\ (needs_word_spawn w = true ->
      left (spawn_area (game w)) <= right (spawn_area (game w)) ->
      top (spawn_area (game w)) <= bottom (spawn_area (game w)) ->
      exists word rest cx cy w',
        maybe_spawn fi w = Ok w'
        /\ _sample (wordbag (game w)) = Some (rest ++ [word])
        /\ _sample (wordbag (game w')) = Some rest
        /\ text_of (next_id (game w)) (game w') = word
        /\ (forall s, In s (group (game w')) <->
                      s = Ship (next_id (game w)) \/ s = Text (next_id (game w))
                      \/ In s (group (game w)))
        /\ left (spawn_area (game w)) <= cx <= right (spawn_area (game w))
        /\ top (spawn_area (game w)) <= cy <= bottom (spawn_area (game w))
        /\ aget (next_id (game w)) (ships (game w'))
           = Some (mkShip
                     (of_pixels
                        (center (clamp (set_center (text_rect word) (cx, cy))
                                       (spawn_area (game w)))))
                     (of_degrees 180))
        /\ (0 < width (text_rect word) < width (spawn_area (game w)) ->
            0 < height (text_rect word) < height (spawn_area (game w)) ->
            contains (spawn_area (game w))
              (clamp (set_center (text_rect word) (cx, cy)) (spawn_area (game w)))
            = true)
        /\ cd_get KSpawnWord (cooldowns w') = 1000).
Proof.
  split; [apply needs_word_spawn_spec|]. split.
  - intros H. unfold maybe_spawn. now rewrite H.
  - intros Hn Hx Hy. unfold maybe_spawn. rewrite Hn.
    apply needs_word_spawn_spec in Hn as (_ & _ & x & l & Hs).
    unfold spawn_word, wb_pop. rewrite Hs. cbn [bind fst snd].
    unfold random_location, random_location_from.
    destruct (rnd_location fi) as [rx ry].
    change (spawn_area (set_group _ _)) with (spawn_area (game w)).
    rewrite (randint_ok rx Hx), (randint_ok ry Hy). cbn [bind].
    set (sa := spawn_area (game w)).
    set (cx := left sa + rx mod (right sa - left sa + 1)).
    set (cy := top sa + ry mod (bottom sa - top sa + 1)).
    exists (last (x :: l) EmptyString), (removelast (x :: l)), cx, cy.
    eexists. split; [reflexivity|].
    split.
    { f_equal. apply app_removelast_last. discriminate. }
    split; [reflexivity|].
    split.
    { unfold text_of.
      match goal with |- context [aget ?i (texts ?g)] =>
        change (texts g) with (aset i (mkText (last (x :: l) EmptyString) false)
                                     (texts (game w)))
      end.
      now rewrite aget_aset_same. }
    split.
    { intros s.
      match goal with |- In s (group ?g) <-> _ =>
        change (group g) with
          (group_add (Ship (next_id (game w)))
             (group_add (Text (next_id (game w))) (group (game w))))
      end.
      rewrite !group_add_In. tauto. }
    split.
    { unfold cx. pose proof (Z.mod_pos_bound rx (right sa - left sa + 1)). unfold sa in *. lia. }
    split.
    { unfold cy. pose proof (Z.mod_pos_bound ry (bottom sa - top sa + 1)). unfold sa in *. lia. }
    split.
    { match goal with |- aget ?i (ships ?g) = Some ?v =>
        change (ships g) with
          (aset i v (aset i (mkShip (of_pixels (16, 16)) (of_degrees 180))
                          (ships (game w))))
      end.
      apply aget_aset_same. }
    split.
    { intros Hw Hh. apply clamp_contains; assumption. }
    match goal with |- cd_get _ (cooldowns ?W) = _ =>
      change (cooldowns W) with (cd_set KSpawnWord 1000 (cooldowns w))
    end.
    apply cd_get_set_same.
Qed.

End Spawn.

(** ** Explosions *)

Section Explosions.
Context {G : Geometry}.

Lemma sparkargs_set_length (n : nat) (sp : Z * Z) (draw : nat -> nat * nat * Z) :
  (List.length (sparkargs_set n sp draw) <= n)%nat
  /\ (NoDup (map (fun i => randomspark_args sp (draw i)) (seq 0 n)) ->
      List.length (sparkargs_set n sp draw) = n).
Proof.
  unfold sparkargs_set.
  set (l := map (fun i => randomspark_args sp (draw i)) (seq 0 n)).
  assert (Hl : List.length l = n) by (unfold l; now rewrite length_map, length_seq).
  split.
  - rewrite <- Hl. apply NoDup_incl_length; [apply NoDup_nodup|].
    intros x Hx. now apply nodup_In in Hx.
  - intros H. now rewrite nodup_fixed_point.
Qed.

Lemma add_sparks_shape (ks : list nat) (g : Gameplay) :
  explosions (_add_sparks ks g) = explosions g
  /\ (forall s, In s (group (_add_sparks ks g)) <->
                In s (group g) \/ exists k, In k ks /\ s = SparkS k).
Proof.
  unfold _add_sparks. revert g. induction ks as [|k r IH]; intros g; simpl.
  - split; [reflexivity|]. intros s. split; [auto | intros [H | (k & [] & _)]; exact H].
  - destruct (IH (set_group (group_add (SparkS k) (group g)) g)) as [E I].
    split; [exact E|]. intros s. rewrite I.
    change (group (set_group (group_add (SparkS k) (group g)) g))
      with (group_add (SparkS k) (group g)).
    rewrite group_add_In. split.
    + intros [[-> | H] | (j & Hj & ->)]; eauto.
    + intros [H | (j & [<- | Hj] & ->)]; eauto.
Qed.

Lemma materialize_group (w : World) (kv : ckey * Z) :
  explosions (game (materialize w kv)) = explosions (game w)
  /\ (forall s, In s (group (game (materialize w kv))) <->
        In s (group (game w))
        \/ exists e ex k, fst kv = KExplosion e /\ snd kv <= 0
                          /\ aget e (explosions (game w)) = Some ex
                          /\ In k (sparks ex) /\ s = SparkS k).
Proof.
  unfold materialize.
  destruct (fst kv) as [| |e] eqn:Ek;
    try (split; [reflexivity|]; intros s; split; [auto|];
         intros [H | (e' & ex & k & X & _)]; [exact H | discriminate X]).
  assert (Hsame : existsb (fun s => same_object s e) (group (game w)) = false).
  { clear. induction (group (game w)); simpl; auto. }
  rewrite Hsame. simpl negb. cbn [andb].
  destruct (snd kv <=? 0) eqn:Ev.
  - apply Z.leb_le in Ev.
    destruct (aget e (explosions (game w))) as [ex|] eqn:Ex.
    + destruct (add_sparks_shape (sparks ex) (game w)) as [E I].
      split; [exact E|]. intros s.
      change (group (game (set_game (_add_sparks (sparks ex) (game w)) w)))
        with (group (_add_sparks (sparks ex) (game w))).
      rewrite I. split.
      * intros [H | (k & Hk & ->)]; [auto|]. right. exists e, ex, k. auto.
      * intros [H | (e' & ex' & k & X & _ & Y & Hk & ->)]; [auto|].
        injection X as <-. rewrite Ex in Y. injection Y as <-. right. eauto.
    + split; [reflexivity|]. intros s. split; [auto|].
      intros [H | (e' & ex & k & X & _ & Y & _)]; [exact H|].
      injection X as <-. rewrite Ex in Y. discriminate.
  - apply Z.leb_gt in Ev.
    split; [reflexivity|]. intros s. split; [auto|].
    intros [H | (e' & ex & k & _ & X & _)]; [exact H | lia].
Qed.

Lemma fold_materialize_group (cd : Cooldowns) (w : World) :
  explosions (game (fold_left materialize cd w)) = explosions (game w)
  /\ (forall s, In s (group (game (fold_left materialize cd w))) <->
        In s (group (game w))
        \/ exists e v ex k, In (KExplosion e, v) cd /\ v <= 0
                            /\ aget e (explosions (game w)) = Some ex
                            /\ In k (sparks ex) /\ s = SparkS k).
Proof.
  revert w. induction cd as [|kv r IH]; intros w; simpl.
  - split; [reflexivity|]. intros s. split; [auto|].
    intros [H | (e & v & ex & k & [] & _)]. exact H.
  - destruct (IH (materialize w kv)) as [E I].
    destruct (materialize_group w kv) as [E' I'].
    split; [congruence|]. intros s. rewrite I, I', E'. split.
    + intros [[H | (e & ex & k & A & B & C & D & ->)]
             | (e & v & ex & k & A & B & C & D & ->)]; auto.
      * right. exists e, (snd kv), ex, k. repeat split; auto.
        left. destruct kv as [a b]. simpl in *. now subst.
      * right. exists e, v, ex, k. auto.
    + intros [H | (e & v & ex & k & [A | A] & B & C & D & ->)]; auto.
      * left. right. exists e, ex, k. subst kv. auto.
      * right. exists e, v, ex, k. auto.
Qed.

(** C6: an explosion built for [n] sparks holds one spark per distinct
    argument tuple drawn, at most [n] and exactly [n] when the draws differ.
    The explosion of a dead enemy ship is registered in the timer registry
    with 500 and adds nothing to the group; a spark is in the group after
    [spawn_explosions_from_cooldowns] exactly when it was there before or
    belongs to a registered explosion whose timer has run out. *)
Theorem C6_explosions (fi : FrameIn) (w : World) :
  (forall c n sp draw g,
      List.length (sparks (fst (Explosion_init c n sp draw g)))
      = List.length (sparkargs_set n sp draw)
      /\ (List.length (sparks (fst (Explosion_init c n sp draw g))) <= n)%nat
      /\ (NoDup (map (fun i => randomspark_args sp (draw i)) (seq 0 n)) ->
          List.length (sparks (fst (Explosion_init c n sp draw g))) = n))
  /\ (forall i s, aget i (ships (game w)) = Some s ->
      exists e ex,
        cd_get (KExplosion e) (cooldowns (explode fi w (Ship i))) = 500
        /\ aget e (explosions (game (explode fi w (Ship i)))) = Some ex
        /\ (List.length (sparks ex) <= 600)%nat
        /\ group (game (explode fi w (Ship i))) = group (game w))
  /\ (forall k, In (SparkS k) (group (game (spawn_explosions_from_cooldowns w))) <->
        In (SparkS k) (group (game w))
        \/ exists e v ex, In (KExplosion e, v) (cooldowns w) /\ v <= 0
                          /\ aget e (explosions (game w)) = Some ex
                          /\ In k (sparks ex)).
Proof.
  split; [|split].
  - intros c n sp draw g. unfold Explosion_init. cbn [fst sparks].
    rewrite length_seq. destruct (sparkargs_set_length n sp draw) as [A B].
    repeat split; auto.
  - intros i s Hs. unfold explode. rewrite Hs.
    unfold Explosion_init.
    set (args := sparkargs_set 600 (5, 10) (rnd_sparks fi (next_id (game w)))).
    exists (next_id (game w) + List.length args)%nat.
    eexists. split; [|split; [|split]].
    + match goal with |- cd_get ?k (cooldowns ?W) = _ =>
        change (cooldowns W) with (cd_set k 500 (cooldowns w))
      end.
      apply cd_get_set_same.
    + match goal with |- aget ?e (explosions (game ?W)) = _ =>
        change (explosions (game W))
          with (aset e (mkExplosion
                          (of_pixels (center (pixel_rect (32, 32) (position s))))
                          (seq (next_id (game w)) (List.length args)))
                     (explosions (game w)))
      end.
      apply aget_aset_same.
    + cbn [sparks]. rewrite length_seq.
      apply (sparkargs_set_length 600 (5, 10) (rnd_sparks fi (next_id (game w)))).
    + reflexivity.
  - intros k. unfold spawn_explosions_from_cooldowns.
    destruct (fold_materialize_group (cooldowns w) w) as [_ I].
    rewrite I. split.
    + intros [H | (e & v & ex & j & A & B & C & D & E)]; auto.
      injection E as ->. right. exists e, v, ex. auto.
    + intros [H | (e & v & ex & A & B & C & D)]; auto.
      right. exists e, v, ex, k. auto.
Qed.

End Explosions.

(** ** Typing and the lock *)

Section Typing.
Context {G : Geometry}.

Lemma move_to_front_In (s x : sprite) (g : list sprite) :
  In s g -> (In x (move_to_front s g) <-> In x g).
Proof.
  intros Hs. unfold move_to_front. rewrite in_app_iff, group_remove_In. simpl.
  split.
  - intros [[_ H] | [<- | []]]; assumption.
  - intros H. destruct (sprite_eqb x s) eqn:E.
    + apply sprite_eqb_eq in E. auto.
    + left. split; [|exact H]. intros ->.
      assert (X : sprite_eqb s s = true) by now apply sprite_eqb_eq.
      congruence.
Qed.

(** a keystroke that matches the next character of the target it is
    resolved against: the character is consumed, a bullet aimed at the
    target's ship joins the group, the lock is kept while text remains *)
Lemma fire_hit (w : World) (t : nat) (c : ascii) (rest : string) (o : TextSprite) :
  (locked (game w) = Some t
   \/ (locked (game w) = None
       /\ scan (String c EmptyString) (game w) (group (game w)) = Some t)) ->
  aget t (texts (game w)) = Some o ->
  text o = String c rest ->
  exists w',
    fire (String c EmptyString) w = Ok w'
    /\ text_of t (game w') = rest
    /\ locked (game w') = match rest with
                          | EmptyString => None
                          | String _ _ => Some t
                          end
    /\ (forall s, In s (group (game w')) <->
                  s = Bullet (next_id (game w)) \/ In s (group (game w)))
    /\ aget (next_id (game w)) (bullets (game w'))
       = Some (mkBullet t (player_position (game w)) 0 None)
    /\ health (game w') = health (game w)
    /\ events w' = events w
    /\ cooldowns w' = cooldowns w.
Proof.
  intros Hlk Ho Ht. open_world w.
  unfold fire. rsimpl.
  destruct Hlk as [Hl | [Hl Hsc]]; subst locked0; [| rewrite Hsc]; rsimpl.
  all: rewrite Ho, Ht, String.eqb_refl; cbv zeta; rsimpl.
  all: assert (Hin : forall s,
             In s (if group_has (Text t) group0
                   then move_to_front (Text t) group0
                   else group0)
             <-> In s group0)
    by (intros s; destruct (group_has (Text t) group0) eqn:Eh; [|reflexivity];
        apply move_to_front_In; now apply group_has_In).
  all: destruct (group_has (Text t) group0) eqn:Eh; rsimpl;
    (destruct rest as [|c' rest'];
     (eexists; split; [reflexivity|]; unfold text_of; rsimpl;
      rewrite ?aget_aset_same;
      repeat split; try reflexivity;
      try (rewrite group_add_In, ?Hin; tauto);
      try (rewrite group_add_In, ?Hin; tauto))).
Qed.



(** a keystroke that does not match the next character of the locked
    target is a miss: nothing changes when misses do no damage *)
Lemma fire_miss (w : World) (t : nat) (letter : string) (c : ascii) (rest : string)
  (o : TextSprite) :
  locked (game w) = Some t ->
  aget t (texts (game w)) = Some o ->
  text o = String c rest ->
  letter <> String c EmptyString ->
  damage_on_miss (game w) = false ->
  fire letter w = Ok w.
Proof.
  intros Hl Ho Ht Hne Hd. open_world w. subst.
  unfold fire. rsimpl. rewrite Ho, Ht.
  destruct (String.eqb letter (String c EmptyString)) eqn:E.
  - apply String.eqb_eq in E. contradiction.
  - reflexivity.
Qed.

(** [BulletSprite.update] on the group: nothing leaves before the travel
    time is over; then the bullet leaves, and with it the target's ship and
    text sprite when the text is empty *)
Lemma bullet_update_group (dt : Z) (b : nat) (ob : BulletSprite)
  (s : EnemyShipSprite) (g : Gameplay) :
  aget b (bullets g) = Some ob ->
  aget (target ob) (ships g) = Some s ->
  (accumulator ob + dt < timetolive -> group (bullet_update dt b g) = group g)
  /\ (timetolive <= accumulator ob + dt ->
      text_of (target ob) g = EmptyString ->
      forall x, In x (group (bullet_update dt b g)) <->
                In x (group g) /\ x <> Bullet b /\ x <> Ship (target ob)
                /\ x <> Text (target ob))
  /\ (timetolive <= accumulator ob + dt ->
      text_of (target ob) g <> EmptyString ->
      forall x, In x (group (bullet_update dt b g)) <->
                In x (group g) /\ x <> Bullet b).
Proof.
  intros Hb Hs. destruct g. rsimpl_all. unfold bullet_update, text_of. rsimpl.
  rewrite Hb, Hs. split; [|split].
  - intros H. apply Z.leb_gt in H. rewrite H. reflexivity.
  - intros H Ht x. apply Z.leb_le in H. rewrite H. rsimpl.
    destruct (aget (target ob) texts0) as [o|]; rsimpl_all.
    + rewrite Ht. rsimpl. rewrite !group_remove_In. tauto.
    + rsimpl. rewrite !group_remove_In. tauto.
  - intros H Ht x. apply Z.leb_le in H. rewrite H. rsimpl.
    destruct (aget (target ob) texts0) as [o|]; rsimpl_all; [|contradiction].
    destruct (text o); [contradiction|]. rsimpl. rewrite group_remove_In. tauto.
Qed.

(** a combat tick leaves the lock as it is *)
Lemma update_gameplay_locked (fi : FrameIn) (w w' : World) :
  update_gameplay fi w = Ok w' -> locked (game w') = locked (game w).
Proof.
  unfold update_gameplay. intros H.
  apply bind_Ok_inv in H as (w1 & H1 & H).
  apply combat_advance_shape in H1 as (C & _).
  assert (L : locked (game w1) = locked (game w)).
  { unfold core in C. injection C as _ _ _ _ _ _ _ _ _ _ _ _ L. exact L. }
  rewrite <- L. clear - H. unfold combat_resolve in H.
  destruct (match ship_ids (game w1) with [] => true | _ :: _ => false end
            && is_win_state w1).
  - destruct (updatestack (game w1)); [discriminate|].
    injection H as <-. reflexivity.
  - injection H as <-. apply move_ships_shape.
Qed.

(** C8: when a keystroke consumes the last character of a target, the target
    stays in the group with an empty text, the lock is released and a bullet
    aimed at the target's ship joins the group.  A bullet leaves the group
    when its travel time is over, and only then, and takes the ship and the
    text sprite of its target with it when the target's text is empty. *)
Theorem C8_last_character (w : World) (t : nat) (c : ascii) (o : TextSprite) :
  (locked (game w) = Some t
   \/ (locked (game w) = None
       /\ scan (String c EmptyString) (game w) (group (game w)) = Some t)) ->
  aget t (texts (game w)) = Some o ->
  text o = String c EmptyString ->
  In (Text t) (group (game w)) ->
  In (Ship t) (group (game w)) ->
  (exists w',
      fire (String c EmptyString) w = Ok w'
      /\ text_of t (game w') = EmptyString
      /\ locked (game w') = None
      /\ In (Text t) (group (game w'))
      /\ In (Ship t) (group (game w'))
      /\ In (Bullet (next_id (game w))) (group (game w'))
      /\ aget (next_id (game w)) (bullets (game w'))
         = Some (mkBullet t (player_position (game w)) 0 None))
  /\ (forall dt b ob s g,
        aget b (bullets g) = Some ob ->
        aget (target ob) (ships g) = Some s ->
        text_of (target ob) g = EmptyString ->
        (accumulator ob + dt < timetolive -> group (bullet_update dt b g) = group g)
        /\ (timetolive <= accumulator ob + dt ->
            ~ In (Text (target ob)) (group (bullet_update dt b g))
            /\ ~ In (Ship (target ob)) (group (bullet_update dt b g))
            /\ ~ In (Bullet b) (group (bullet_update dt b g)))).
Proof.
  intros Hlk Ho Ht HT HS. split.
  - destruct (fire_hit w Hlk Ho Ht) as (w' & F & T & L & Gp & B & _).
    exists w'. repeat split; auto; apply Gp; auto.
  - intros dt b ob s g Hb Hs He.
    destruct (@bullet_update_group dt b ob s g Hb Hs) as (A & B & _).
    split; [exact A|]. intros H. specialize (B H He).
    repeat split; intros X; apply B in X; tauto.
Qed.

(** C3: a combat tick never changes the lock, so a locked target killed by
    the collision with the player stays the locked target.  Keystrokes are
    then still resolved against the remaining text of the dead target,
    without error: the matching character is consumed, a bullet is fired, and
    the lock is released when the text is used up; any other character is a
    miss. *)
Theorem C3_lock_survives_collision (fi : FrameIn) (w : World) (t : nat) (c : ascii)
  (rest : string) (o : TextSprite) :
  (forall w', update_gameplay fi w = Ok w' -> locked (game w') = locked (game w))
  /\ (locked (game w) = Some t ->
      aget t (texts (game w)) = Some o ->
      text o = String c rest ->
      ~ In (Text t) (group (game w)) ->
      (exists w',
          fire (String c EmptyString) w = Ok w'
          /\ text_of t (game w') = rest
          /\ locked (game w') = match rest with
                                | EmptyString => None
                                | String _ _ => Some t
                                end
          /\ ~ In (Text t) (group (game w'))
          /\ In (Bullet (next_id (game w))) (group (game w'))
          /\ health (game w') = health (game w))
      /\ (forall letter, letter <> String c EmptyString ->
                         damage_on_miss (game w) = false ->
                         fire letter w = Ok w)).
Proof.
  split; [intros w'; apply update_gameplay_locked|].
  intros Hl Ho Ht Hn. split.
  - destruct (fire_hit w (or_introl Hl) Ho Ht) as (w' & F & T & L & Gp & B & H & _).
    exists w'. repeat split; auto.
    + intros X. apply Gp in X as [X | X]; [discriminate | contradiction].
    + apply Gp. auto.
  - intros letter Hne Hd. eapply fire_miss; eauto.
Qed.

End Typing.

(** ** Pausing *)

Section Pause.
Context {G : Geometry}.

Lemma do_callback_shape (cb : callback) (w : World) :
  game (do_callback cb w) = game w
  /\ cooldowns (do_callback cb w) = cooldowns w
  /\ stack (do_callback cb w) = stack w.
Proof. destruct cb; repeat split. Qed.

Lemma press_shape (m : MenuState) (w : World) (h : nat) :
  game (press m w h) = game w
  /\ cooldowns (press m w h) = cooldowns w
  /\ stack (press m w h) = stack w.
Proof.
  unfold press. destruct (nth_error (buttons m) h); [apply do_callback_shape|].
  repeat split.
Qed.

Lemma select_first_button_shape (m : MenuState) (w : World) :
  game (snd (select_first_button m w)) = game w
  /\ cooldowns (snd (select_first_button m w)) = cooldowns w
  /\ stack (snd (select_first_button m w)) = stack w.
Proof. unfold select_first_button. destruct (buttons m); repeat split. Qed.

Lemma selection_shape (move : Z) (m : MenuState) (w : World)
  (r : MenuState * World) :
  selection move m w = Ok r ->
  game (snd r) = game w
  /\ cooldowns (snd r) = cooldowns w
  /\ stack (snd r) = stack w.
Proof.
  unfold selection. intros H.
  destruct (hover_attr m) as [[h|]|] eqn:Eh; [| |discriminate].
  - unfold hover in H. rewrite Eh in H. injection H as <-. repeat split.
  - pose proof (select_first_button_shape m w) as S.
    destruct (select_first_button m w) as [m1 w1]. simpl in S.
    destruct (hover m1); injection H as <-; simpl; exact S.
Qed.

Lemma menu_handle_shape (ev : event) (m : MenuState) (w : World)
  (r : MenuState * World) :
  menu_handle ev m w = Ok r ->
  game (snd r) = game w /\ cooldowns (snd r) = cooldowns w /\ stack (snd r) = stack w.
Proof.
  unfold menu_handle. intros H.
  destruct ev as [| | |k u|hit|hit];
    try solve [injection H as <-; repeat split].
  - destruct k; try solve [injection H as <-; repeat split].
    + destruct (hover_attr m) as [[h|]|]; [| |discriminate];
        injection H as <-; [apply press_shape | repeat split].
    + apply selection_shape in H. exact H.
    + apply selection_shape in H. exact H.
  - destruct hit; [|injection H as <-; repeat split].
    destruct (hover_attr m) as [[h|]|]; [| discriminate | discriminate].
    injection H as <-. apply press_shape.
Qed.

Lemma handle_all_menu (evs : list event) :
  forall (w w' : World) (m : MenuState) (below : list scene),
    stack w = SMenu m :: below ->
    handle_all evs w = Ok w' ->
    game w' = game w /\ cooldowns w' = cooldowns w
    /\ exists m', stack w' = SMenu m' :: below.
Proof.
  induction evs as [|e r IH]; intros w w' m below Hs H; simpl in H.
  - injection H as <-. repeat split. eauto.
  - apply bind_Ok_inv in H as (w1 & H1 & H).
    unfold scene_handle in H1. rewrite Hs in H1.
    apply bind_Ok_inv in H1 as (p & Hp & H1). injection H1 as <-.
    apply menu_handle_shape in Hp as (A & B & C).
    destruct (IH (set_stack (SMenu (fst p) :: below) (snd p)) w' (fst p) below
                 eq_refl H) as (A' & B' & C').
    simpl in A', B'. repeat split; try congruence; exact C'.
Qed.

(** a frame spent in a menu leaves the gameplay as it is and ticks the
    cooldowns *)
Lemma frame_body_menu (fi : FrameIn) (w w' : World) (m : MenuState)
  (below : list scene) :
  stack w = SMenu m :: below ->
  frame_body fi w = Ok w' ->
  game w' = game w
  /\ cooldowns w' = tick (elapsed fi) (cooldowns w)
  /\ exists m', stack w' = SMenu m' :: below.
Proof.
  intros Hs H. unfold frame_body in H.
  apply bind_Ok_inv in H as (w1 & H1 & H).
  apply (@handle_all_menu _ _ _ m below) in H1 as (A & B & (m' & C)); [|exact Hs].
  unfold scene_update in H. simpl stack in H. rewrite C in H.
  injection H as <-. simpl in *. split; [exact A|]. split; [now rewrite B | eauto].
Qed.

Lemma quiet_frames_menu (fis : list FrameIn) :
  forall (w w' : World) (m : MenuState) (below : list scene),
    stack w = SMenu m :: below ->
    quiet_frames fis w = Ok w' ->
    game w' = game w
    /\ cooldowns w' = ticks fis (cooldowns w)
    /\ exists m', stack w' = SMenu m' :: below.
Proof.
  induction fis as [|fi r IH]; intros w w' m below Hs H; simpl in H.
  - injection H as <-. repeat split. eauto.
  - apply bind_Ok_inv in H as (w1 & H1 & H).
    apply (@frame_body_menu _ _ _ m below) in H1 as (A & B & (m' & C)); [|exact Hs].
    destruct (IH _ _ m' below C H) as (A' & B' & C').
    simpl in A, B. unfold ticks in *. simpl.
    split; [congruence|]. split; [congruence | exact C'].
Qed.

(** while no transition is pending, a turn of the engine loop is its input,
    cooldown and update steps *)
Lemma sm_dispatch_plain (fi : FrameIn) (evs : list event) :
  forall w, forallb is_plain evs = true ->
            sm_dispatch fi evs w = Ok (set_events (events w ++ evs) w).
Proof.
  induction evs as [|e r IH]; intros w H; simpl in *.
  - rewrite app_nil_r. destruct w. reflexivity.
  - apply andb_true_iff in H as [He Hr].
    destruct e; try discriminate; rewrite (IH _ Hr); unfold post; simpl;
      rewrite <- app_assoc; reflexivity.
Qed.

Lemma frame_quiet (fi : FrameIn) (w : World) (s : scene) (below : list scene) :
  stack w = s :: below ->
  forallb is_plain (events w ++ inputs fi) = true ->
  frame fi w
  = (w2 <- frame_body fi (set_events (events w ++ inputs fi) w) ;;
     _ <- scene_draw w2 ;; Ok (Some w2)).
Proof.
  intros Hs Hp. unfold frame, sm_update.
  assert (Q : existsb is_quit (events (set_events (events w ++ inputs fi) w)) = false).
  { simpl. induction (events w ++ inputs fi) as [|e r IH]; simpl in *; auto.
    apply andb_true_iff in Hp as [He Hr]. rewrite (IH Hr).
    destruct e; try discriminate; reflexivity. }
  rewrite Q. simpl events at 1. rewrite (sm_dispatch_plain fi _ _ Hp).
  simpl bind. simpl stack. rewrite Hs. reflexivity.
Qed.

End Pause.

(** ** The plays *)

Section Examples.
#[local] Existing Instance grid.

Ltac run_it := vm_compute; reflexivity.

(** a conjunction of equations as one equation between tuples *)
Ltac tuple_of G :=
  lazymatch G with
  | ?a = ?b /\ ?R =>
      let r := tuple_of R in
      lazymatch r with
      | ?x = ?y => constr:((a, x) = (b, y))
      end
  | ?a = ?b => constr:(a = b)
  end.

Lemma pair_eq_inv (A B : Type) (a c : A) (b d : B) :
  (a, b) = (c, d) -> a = c /\ b = d.
Proof.
  intros H. split; [exact (f_equal fst H) | exact (f_equal snd H)].
Qed.

(** prove a conjunction of equations about worlds named by [let] with one
    evaluation of the play *)
Ltac run_all :=
  intros;
  lazymatch goal with
  | |- ?G =>
      let T := tuple_of G in
      let H := fresh "T" in
      assert (H : T)
        by (repeat match goal with x := _ |- _ => revert x end; run_it);
      repeat match goal with x := _ |- _ => clearbody x end;
      repeat (apply pair_eq_inv in H;
              let E := fresh "E" in destruct H as [E H]; split; [exact E|]);
      exact H
  end.

Lemma ok_world_of (r : res World) : is_ok r = true -> r = Ok (world_of r).
Proof. destruct r; [reflexivity | discriminate]. Qed.

(** C1, as stated, fails in the first level played through.  Before and
    after frame 314 the pool is empty, the spawn timer is pending (24, then 8)
    and only the player is in the group, and the combat goes on.  In frame 315
    the timer runs out (-8) and the combat ends.  In frame 317 the level is
    complete although the player is in the group when the win is checked. *)
Lemma C1_counterexample :
  let w314 := world_after (firstn 314 level_one_play) in
  let w315 := later (idle 1) w314 in
  let w316 := later (idle 1) w315 in
  let w317 := later (idle 1) w316 in
  let w318 := later (idle 1) w317 in
  _sample (wordbag (game w314)) = Some []
  /\ cd_get KSpawnWord (cooldowns w314) = 24
  /\ group (game w314) = [Player]
  /\ _sample (wordbag (game w315)) = Some []
  /\ cd_get KSpawnWord (cooldowns w315) = 8
  /\ group (game w315) = [Player]
  /\ updatestack (game w315) = [update_gameplay_m]
  /\ cd_get KSpawnWord (cooldowns w316) = -8
  /\ updatestack (game w316) = [update_gameplay_wait_for_animations_m]
  /\ updatestack (game w317) = [update_gameplay_wait_for_animations_m]
  /\ level (game w317) = O
  /\ group (game (wait_advance (demo_frame 16 []) (ticked w317))) = [Player]
  /\ level (game w318) = 1%nat
  /\ is_ok (run (firstn 318 level_one_play) demo_start) = true.
Proof. run_all. Qed.

(** C1 at the middle of frame 315 of that play (the combat ends) and at the
    middle of frame 317 (the level ends). *)
Lemma C1_win_transitions_witness :
  (exists w2,
      update_gameplay (demo_frame 16 [])
        (ticked (world_after (firstn 315 level_one_play))) = Ok w2
      /\ updatestack (game w2) = [update_gameplay_wait_for_animations_m])
  /\ (exists w2,
         update_gameplay_wait_for_animations (demo_frame 16 [])
           (ticked (world_after (firstn 317 level_one_play))) = Ok w2
         /\ (events w2 = events (ticked (world_after (firstn 317 level_one_play)))
                          ++ [PUSHSTATE (SMenu win_menu)]
             \/ level (game w2) = 1%nat)).
Proof.
  set (fi := demo_frame 16 []).
  split.
  - set (w := ticked (world_after (firstn 315 level_one_play))).
    assert (Hadv : is_ok (combat_advance fi w) = true) by run_it.
    assert (Hst : updatestack (game w) = [update_gameplay_m]) by run_it.
    assert (Hg : group (game (world_of (combat_advance fi w))) = [Player]) by run_it.
    assert (Hb : wb_bool (wordbag (game (world_of (combat_advance fi w)))) = false)
      by run_it.
    assert (Hc : cd_get KSpawnWord (cooldowns (world_of (combat_advance fi w))) = -8)
      by run_it.
    apply ok_world_of in Hadv.
    set (w1 := world_of (combat_advance fi w)) in *.
    clearbody w1 w fi.
    destruct (proj1 (C1_win_transitions fi w w1 [] []) Hadv Hst) as (w2 & U & _ & I).
    exists w2. split; [exact U|]. apply I.
    unfold combat_done, no_target_or_spark. rewrite Hg, Hb, Hc.
    split; [reflexivity|]. split; [lia|].
    intros s [<- | []]. repeat split.
  - set (w := ticked (world_after (firstn 317 level_one_play))).
    assert (Hok : is_ok (update_gameplay_wait_for_animations fi w) = true) by run_it.
    assert (Hl : _sample (wordbag (game (wait_advance fi w))) = Some []) by run_it.
    assert (Hg : group (game (wait_advance fi w)) = [Player]) by run_it.
    assert (Hc : cd_get KSpawnWord (cooldowns (wait_advance fi w)) = -8) by run_it.
    assert (He : events (wait_advance fi w) = events w) by run_it.
    assert (Hv : level (game (wait_advance fi w)) = O) by run_it.
    apply ok_world_of in Hok.
    set (w2 := world_of (update_gameplay_wait_for_animations fi w)) in *.
    set (w1 := wait_advance fi w) in *.
    assert (Hw : wait_advance fi w = w1) by reflexivity.
    clearbody w2 w1 w fi.
    destruct (proj2 (C1_win_transitions fi w w1 [] []) Hw Hl) as (_ & _ & _ & I).
    exists w2. split; [exact Hok|].
    rewrite <- He, <- Hv. apply (I w2 Hok).
    unfold wait_done, no_text_or_spark. rewrite Hg, Hc.
    split; [exact Hl|]. split; [lia|].
    intros s [<- | []]. repeat split.
Defined.

(** C2 fails in a play in which nothing is typed: the third word reaches the
    player in frame 799; the escape key pressed in that frame marks the
    gameplay as paused before the collision takes the last health point, so
    both the pause menu and the death menu open; closing them brings the
    gameplay back without a reset, with health 0; the next collision makes it
    -1. *)
Theorem C2_health_negative_after_pause_race :
  let w799 := world_after (idle 799) in
  let w800 := later [demo_frame 16 [KEYDOWN K_ESCAPE EmptyString]] w799 in
  let w801 := later [demo_frame 16 [KEYDOWN K_RETURN EmptyString]] w800 in
  let w802 := later [demo_frame 16 [KEYDOWN K_RETURN EmptyString]] w801 in
  let w803 := later (idle 1) w802 in
  let w1348 := later (idle 545) w803 in
  health (game w799) = 1
  /\ health (game w800) = 0
  /\ paused (game w800) = true
  /\ events w800 = [PUSHSTATE (SMenu pause_menu); PUSHSTATE (SMenu died_menu)]
  /\ map (fun s => match s with
                   | SGameplay => O
                   | SMenu m => List.length (items m)
                   end) (stack w801) = [4; 4; 0]%nat
  /\ events w801 = [POPSTATE]
  /\ events w802 = [POPSTATE]
  /\ stack w803 = [SGameplay]
  /\ health (game w803) = 0
  /\ paused (game w803) = false
  /\ updatestack (game w803) = [update_gameplay_m]
  /\ health (game w1348) = -1
  /\ is_ok (run pause_race_play demo_start) = true.
Proof. run_all. Qed.

(** C3, as stated, fails in a play in which the first letter of the first
    word is typed: the word is locked; it reaches the player in frame 675 and
    is removed from the group with its ship, and it is still the locked
    target after that frame and three frames later; the next letter typed is
    taken from the text of the removed target. *)
Lemma C3_counterexample :
  let w675 := world_after (firstn 675 lock_play) in
  let w676 := later (idle 1) w675 in
  let w679 := later (idle 3) w676 in
  let w680 := later [demo_frame 16 (keys "e")] w679 in
  locked (game w675) = Some O
  /\ group_has (Text O) (group (game w675)) = true
  /\ health (game w675) = 3
  /\ health (game w676) = 2
  /\ group_has (Text O) (group (game w676)) = false
  /\ group_has (Ship O) (group (game w676)) = false
  /\ text_of O (game w676) = "ed"%string
  /\ locked (game w676) = Some O
  /\ locked (game w679) = Some O
  /\ text_of O (game w680) = "d"%string
  /\ locked (game w680) = Some O
  /\ is_ok (run lock_play demo_start) = true.
Proof. run_all. Qed.

(** C3 after the collision of that play: the lock is as before the tick, and
    the key [e] is resolved against the removed target. *)
Lemma C3_lock_survives_collision_witness :
  locked (game (world_after lock_play)) = Some O
  /\ exists w',
      fire "e" (world_after lock_play) = Ok w'
      /\ text_of O (game w') = "d"%string
      /\ locked (game w') = Some O
      /\ health (game w') = health (game (world_after lock_play)).
Proof.
  set (w := world_after lock_play).
  assert (Hl : locked (game w) = Some O) by run_it.
  assert (Ho : aget O (texts (game w)) = Some (mkText "ed" true)) by run_it.
  assert (Hn : group_has (Text O) (group (game w)) = false) by run_it.
  clearbody w.
  split; [exact Hl|].
  destruct (proj2 (C3_lock_survives_collision (demo_frame 16 []) w O "e"%char "d"
                     (mkText "ed" true)) Hl Ho eq_refl)
    as ((w' & F & T & L & _ & _ & H) & _).
  - intros X. apply group_has_In in X. congruence.
  - exists w'. repeat split; assumption.
Defined.

End Examples.

(** ** Bounding boxes and the layout of a menu *)

Section LayoutFacts.
Context {G : Geometry}.

Lemma fold_min_le (l : list Z) (x : Z) :
  fold_left Z.min l x <= x /\ forall y, In y l -> fold_left Z.min l x <= y.
Proof.
  revert x. induction l as [|a r IH]; intros x; simpl.
  - split; [lia | intros y []].
  - destruct (IH (Z.min x a)) as [A B]. split; [lia|].
    intros y [<- | Hy]; [lia | auto].
Qed.

Lemma fold_min_In (l : list Z) (x : Z) :
  fold_left Z.min l x = x \/ In (fold_left Z.min l x) l.
Proof.
  revert x. induction l as [|a r IH]; intros x; simpl; [now left|].
  destruct (IH (Z.min x a)) as [E | I]; [|now right; right].
  rewrite E. destruct (Z.min_spec x a) as [[_ ->] | [_ ->]]; auto.
Qed.

Lemma fold_max_ge (l : list Z) (x : Z) :
  x <= fold_left Z.max l x /\ forall y, In y l -> y <= fold_left Z.max l x.
Proof.
  revert x. induction l as [|a r IH]; intros x; simpl.
  - split; [lia | intros y []].
  - destruct (IH (Z.max x a)) as [A B]. split; [lia|].
    intros y [<- | Hy]; [lia | auto].
Qed.

Lemma fold_max_In (l : list Z) (x : Z) :
  fold_left Z.max l x = x \/ In (fold_left Z.max l x) l.
Proof.
  revert x. induction l as [|a r IH]; intros x; simpl; [now left|].
  destruct (IH (Z.max x a)) as [E | I]; [|now right; right].
  rewrite E. destruct (Z.max_spec x a) as [[_ ->] | [_ ->]]; auto.
Qed.

Lemma py_min_spec (x : Z) (l : list Z) :
  exists m, py_min (x :: l) = Ok m
            /\ In m (x :: l) /\ forall y, In y (x :: l) -> m <= y.
Proof.
  exists (fold_left Z.min l x). split; [reflexivity|]. split.
  - destruct (fold_min_In l x) as [-> | I]; [now left | now right].
  - intros y [<- | Hy]; [apply (proj1 (fold_min_le l x)) | now apply (proj2 (fold_min_le l x))].
Qed.

Lemma py_max_spec (x : Z) (l : list Z) :
  exists m, py_max (x :: l) = Ok m
            /\ In m (x :: l) /\ forall y, In y (x :: l) -> y <= m.
Proof.
  exists (fold_left Z.max l x). split; [reflexivity|]. split.
  - destruct (fold_max_In l x) as [-> | I]; [now left | now right].
  - intros y [<- | Hy]; [apply (proj1 (fold_max_ge l x)) | now apply (proj2 (fold_max_ge l x))].
Qed.

(** X1: [wrap] raises [ValueError] on no rects; otherwise it returns the
    smallest rect that reaches every edge of every rect: no rect passes any
    of its four edges, and each edge is the edge of one of the rects. *)
Theorem wrap_bounding (r0 : Rect) (rs : list Rect) :
  wrap [] = Raise ValueError
  /\ exists b,
      wrap (r0 :: rs) = Ok b
      /\ (forall r, In r (r0 :: rs) ->
            left b <= left r /\ top b <= top r
            /\ right r <= right b /\ bottom r <= bottom b)
      /\ (exists r, In r (r0 :: rs) /\ left r = left b)
      /\ (exists r, In r (r0 :: rs) /\ top r = top b)
      /\ (exists r, In r (r0 :: rs) /\ right r = right b)
      /\ (exists r, In r (r0 :: rs) /\ bottom r = bottom b).
Proof.
  split; [reflexivity|].
  unfold wrap. cbn [map].
  destruct (py_min_spec (left r0) (map left rs)) as (l & -> & Il & Ll).
  destruct (py_min_spec (top r0) (map top rs)) as (t & -> & It & Lt).
  destruct (py_max_spec (right r0) (map right rs)) as (r & -> & Ir & Lr).
  destruct (py_max_spec (bottom r0) (map bottom rs)) as (b & -> & Ib & Lb).
  cbn [bind]. eexists. split; [reflexivity|].
  unfold right, bottom. cbn [left top width height].
  change (left r0 :: map left rs) with (map left (r0 :: rs)) in *.
  change (top r0 :: map top rs) with (map top (r0 :: rs)) in *.
  change (right r0 :: map right rs) with (map right (r0 :: rs)) in *.
  change (bottom r0 :: map bottom rs) with (map bottom (r0 :: rs)) in *.
  split; [|split; [|split; [|split]]].
  - intros x Hx.
    pose proof (Ll _ (in_map left _ _ Hx)).
    pose proof (Lt _ (in_map top _ _ Hx)).
    pose proof (Lr _ (in_map right _ _ Hx)).
    pose proof (Lb _ (in_map bottom _ _ Hx)).
    unfold right, bottom in *. lia.
  - apply in_map_iff in Il as (x & E & Hx). eauto.
  - apply in_map_iff in It as (x & E & Hx). eauto.
  - apply in_map_iff in Ir as (x & E & Hx). exists x. split; [auto|].
    unfold right in E. lia.
  - apply in_map_iff in Ib as (x & E & Hx). exists x. split; [auto|].
    unfold bottom in E. lia.
Qed.

Lemma fold_min_shift (f : Rect -> Z) (m : Rect -> Rect) (d : Z) (rs : list Rect) :
  (forall r, f (m r) = f r + d) ->
  forall x, fold_left Z.min (map f (map m rs)) (x + d)
            = fold_left Z.min (map f rs) x + d.
Proof.
  intros Hm. induction rs as [|a r IH]; intros x; simpl; [reflexivity|].
  rewrite <- IH. f_equal. rewrite Hm. lia.
Qed.

Lemma fold_max_shift (f : Rect -> Z) (m : Rect -> Rect) (d : Z) (rs : list Rect) :
  (forall r, f (m r) = f r + d) ->
  forall x, fold_left Z.max (map f (map m rs)) (x + d)
            = fold_left Z.max (map f rs) x + d.
Proof.
  intros Hm. induction rs as [|a r IH]; intros x; simpl; [reflexivity|].
  rewrite <- IH. f_equal. rewrite Hm. lia.
Qed.

(** moving the rects moves their bounding rect *)
Lemma wrap_move (dx dy : Z) (rs : list Rect) (b : Rect) :
  wrap rs = Ok b -> wrap (map (move dx dy) rs) = Ok (move dx dy b).
Proof.
  destruct rs as [|r0 rs]; [discriminate|].
  unfold wrap. cbn [map py_min py_max bind]. intros H. injection H as <-.
  assert (L : forall r, left (move dx dy r) = left r + dx) by reflexivity.
  assert (T : forall r, top (move dx dy r) = top r + dy) by reflexivity.
  assert (R : forall r, right (move dx dy r) = right r + dx)
    by (intros; unfold right, move; cbn [left width]; lia).
  assert (B : forall r, bottom (move dx dy r) = bottom r + dy)
    by (intros; unfold bottom, move; cbn [top height]; lia).
  rewrite L, T, R, B.
  rewrite (fold_min_shift left (move dx dy) dx rs L).
  rewrite (fold_min_shift top (move dx dy) dy rs T).
  rewrite (fold_max_shift right (move dx dy) dx rs R).
  rewrite (fold_max_shift bottom (move dx dy) dy rs B).
  unfold move. cbn [left top width height]. f_equal. f_equal; lia.
Qed.

Lemma stack_from_spec (rs : list Rect) :
  forall prev,
    map width (stack_from prev rs) = map width rs
    /\ map height (stack_from prev rs) = map height rs
    /\ map left (stack_from prev rs) = map left rs
    /\ spaced (mkRect (left prev) (top prev) (width prev) (height prev)
               :: stack_from prev rs).
Proof.
  induction rs as [|r rest IH]; intros prev; cbn [stack_from map].
  - repeat split. intros [|i] r1 r2 H1 H2; [discriminate|].
    destruct i; discriminate.
  - destruct (IH (mkRect (left r) (bottom prev + 20) (width r) (height r)))
      as (A & B & C & D).
    cbn [left top width height] in D.
    repeat split; try (f_equal; assumption).
    intros [|i] r1 r2 H1 H2.
    + injection H1 as <-. injection H2 as <-. reflexivity.
    + apply (D i); assumption.
Qed.

Lemma spaced_move (dx dy : Z) (l : list Rect) : spaced l -> spaced (map (move dx dy) l).
Proof.
  intros H i r1 r2 H1 H2. rewrite nth_error_map in H1, H2.
  destruct (nth_error l i) as [a|] eqn:Ea; [|discriminate].
  destruct (nth_error l (S i)) as [b|] eqn:Eb; [|discriminate].
  injection H1 as <-. injection H2 as <-.
  specialize (H i a b Ea Eb). unfold move, bottom in *. cbn [top height]. lia.
Qed.

(** X2: a menu without items cannot be built: [wrap] raises [ValueError].
    Otherwise every item sprite keeps its size, each sprite is 20 below the
    one before it, all sprites have the left edge of their bounding rect, and
    that bounding rect has the centre of the space given. *)
Theorem MenuState_init_layout (space : Rect) (it : item) (its : list item) :
  MenuState_init space [] = Raise ValueError
  /\ exists rs b,
      MenuState_init space (it :: its) = Ok rs
      /\ map width rs = map (fun i => width (item_sprite_rect i)) (it :: its)
      /\ map height rs = map (fun i => height (item_sprite_rect i)) (it :: its)
      /\ spaced rs
      /\ wrap rs = Ok b
      /\ (forall r, In r rs -> left r = left b)
      /\ center b = center space.
Proof.
  split; [reflexivity|].
  unfold MenuState_init. cbn [map stack_rects].
  set (r0 := item_sprite_rect it). set (rest := map item_sprite_rect its).
  destruct (stack_from_spec rest r0) as (W & H & L & S).
  destruct (wrap_bounding r0 (stack_from r0 rest)) as (_ & b & Hb & _ & (x & Ix & Lx) & _).
  rewrite Hb. cbn [bind].
  set (dx := fst (center space) - fst (center b)).
  set (dy := snd (center space) - snd (center b)).
  exists (map (move dx dy) (r0 :: stack_from r0 rest)), (move dx dy b).
  assert (Z0 : forall r, In r (r0 :: stack_from r0 rest) -> left r = 0).
  { intros r [<- | Hr].
    - unfold r0. destruct it; reflexivity.
    - apply (in_map left) in Hr. rewrite L in Hr. unfold rest in Hr.
      rewrite map_map in Hr. apply in_map_iff in Hr as (i & <- & _).
      destruct i; reflexivity. }
  split; [reflexivity|]. split; [|split; [|split; [|split; [|split]]]].
  - rewrite map_map. cbn [map move width]. f_equal.
    change (map (fun x => width x) (stack_from r0 rest)) with
      (map width (stack_from r0 rest)).
    rewrite W. unfold rest. now rewrite map_map.
  - rewrite map_map. cbn [map move height]. f_equal.
    change (map (fun x => height x) (stack_from r0 rest)) with
      (map height (stack_from r0 rest)).
    rewrite H. unfold rest. now rewrite map_map.
  - apply spaced_move. destruct r0; exact S.
  - apply wrap_move. exact Hb.
  - intros r Hr. apply in_map_iff in Hr as (y & <- & Hy).
    unfold move. cbn [left]. rewrite (Z0 y Hy), <- Lx, (Z0 x Ix). reflexivity.
  - unfold center, move. cbn [left top width height].
    unfold dx, dy, center. cbn [fst snd]. f_equal; lia.
Qed.

End LayoutFacts.

(** ** Interpolation clocks, timers and the word pool *)

(** X3: while its time is between 0 and the duration, the clock of an
    interpolation advances by the elapsed times and stops at the duration:
    after any updates with non-negative elapsed times, the time is the
    smaller of the duration and the time advanced by their sum. *)
Theorem lerpvalue_update_saturates (es : list Z) (v : lerpvalue) :
  0 <= time v <= duration v ->
  Forall (fun e => 0 <= e) es ->
  duration (lerpvalue_updates es v) = duration v
  /\ time (lerpvalue_updates es v)
     = Z.min (duration v) (time v + fold_right Z.add 0 es).
Proof.
  unfold lerpvalue_updates. revert v.
  induction es as [|e r IH]; intros v Hv He; cbn [fold_left fold_right].
  - split; [reflexivity | lia].
  - inversion He as [|x l He0 Her]; subst.
    assert (Hu : duration (lerpvalue_update e v) = duration v
                 /\ time (lerpvalue_update e v) = Z.min (duration v) (time v + e)).
    { unfold lerpvalue_update. destruct (Z.ltb_spec (time v) (duration v)).
      - cbn [duration time]. destruct (Z.ltb_spec (duration v) (time v + e)); split; lia.
      - split; [reflexivity | lia]. }
    destruct Hu as [Hd Ht].
    destruct (IH (lerpvalue_update e v)) as [A B]; [lia | assumption |].
    rewrite A, B, Hd, Ht. split; [reflexivity|].
    assert (0 <= fold_right Z.add 0 r).
    { clear -Her. induction Her; simpl; lia. }
    lia.
Qed.

(** X3 at a clock of half a second updated three times. *)
Lemma lerpvalue_update_saturates_witness :
  time (lerpvalue_updates [16; 16; 480] (mkLerp 500 0)) = 500.
Proof.
  destruct (@lerpvalue_update_saturates [16; 16; 480] (mkLerp 500 0)) as [_ H].
  - simpl. lia.
  - repeat constructor; lia.
  - rewrite H. reflexivity.
Defined.

Section Timers.
Context {G : Geometry}.

Lemma cd_find_clear_explosions (k : ckey) (cd : Cooldowns) :
  cd_find k (clear_explosions cd)
  = if is_explosion_key k then None else cd_find k cd.
Proof.
  unfold clear_explosions. induction cd as [|[j v] r IH]; simpl.
  - destruct (is_explosion_key k); reflexivity.
  - destruct (is_explosion_key j) eqn:Ej; simpl.
    + rewrite IH. destruct (is_explosion_key k) eqn:Ek; [reflexivity|].
      destruct (ckey_eqb k j) eqn:E; [|reflexivity].
      apply ckey_eqb_eq in E. subst. congruence.
    + destruct (ckey_eqb k j) eqn:E.
      * apply ckey_eqb_eq in E. subst. now rewrite Ej.
      * exact IH.
Qed.

Lemma fold_materialize_plain (l : Cooldowns) (w : World) :
  (forall kv, In kv l -> is_explosion_key (fst kv) = false) ->
  fold_left materialize l w = w.
Proof.
  revert w. induction l as [|kv r IH]; intros w H; simpl; [reflexivity|].
  assert (E : materialize w kv = w).
  { unfold materialize. specialize (H kv (or_introl eq_refl)).
    destruct (fst kv); try reflexivity. discriminate. }
  rewrite E. apply IH. intros x Hx. apply H. now right.
Qed.

(** X4: [clear_explosions] drops every timer whose key is an explosion and
    keeps every other timer with its value; once they are dropped, the
    explosions that were waiting never put their sparks in the group. *)
Theorem clear_explosions_cancels (w : World) (k : ckey) :
  cd_find k (clear_explosions (cooldowns w))
  = (if is_explosion_key k then None else cd_find k (cooldowns w))
  /\ spawn_explosions_from_cooldowns
       (set_cooldowns (clear_explosions (cooldowns w)) w)
     = set_cooldowns (clear_explosions (cooldowns w)) w.
Proof.
  split; [apply cd_find_clear_explosions|].
  unfold spawn_explosions_from_cooldowns. apply fold_materialize_plain.
  cbn [cooldowns set_cooldowns]. unfold clear_explosions.
  intros kv H. apply filter_In in H as [_ H].
  now apply negb_true_iff in H.
Qed.

End Timers.

Lemma pops_drain (ws : list string) (l : list string) :
  pops (List.length l) (mkWordbag ws (Some l))
  = Ok (rev l, mkWordbag ws (Some [])).
Proof.
  induction l as [|x r IH] using rev_ind; [reflexivity|].
  rewrite length_app, Nat.add_comm. cbn [List.length Nat.add pops].
  unfold wb_pop. cbn [_sample words].
  destruct (r ++ [x]) as [|y t] eqn:E; [destruct r; discriminate|].
  rewrite <- E. rewrite last_last, removelast_last. cbn [bind fst snd].
  rewrite IH. cbn [bind fst snd]. now rewrite rev_unit.
Qed.

(** X5: [pop] takes the words of the sample from the last to the first;
    after as many pops as the sample has words the pool is empty, it is
    false, and one more [pop] raises [IndexError].  The pool is true exactly
    when the sample has a word. *)
Theorem Wordbag_pop_drains (ws : list string) (l : list string) :
  pops (List.length l) (mkWordbag ws (Some l))
  = Ok (rev l, mkWordbag ws (Some []))
  /\ wb_bool (mkWordbag ws (Some [])) = false
  /\ wb_pop (mkWordbag ws (Some [])) = Raise IndexError
  /\ pops (S (List.length l)) (mkWordbag ws (Some l)) = Raise IndexError
  /\ (wb_bool (mkWordbag ws (Some l)) = true <-> l <> []).
Proof.
  split; [apply pops_drain|]. split; [reflexivity|]. split; [reflexivity|]. split.
  - revert ws. induction l as [|x r IH] using rev_ind; intros ws; [reflexivity|].
    rewrite length_app, Nat.add_comm. cbn [List.length Nat.add].
    change (pops (S (S (List.length r))) (mkWordbag ws (Some (r ++ [x]))))
      with (pr <- wb_pop (mkWordbag ws (Some (r ++ [x]))) ;;
            r0 <- pops (S (List.length r)) (snd pr) ;;
            Ok (fst pr :: fst r0, snd r0)).
    unfold wb_pop. cbn [_sample words].
    destruct (r ++ [x]) as [|y t] eqn:E; [destruct r; discriminate|].
    rewrite <- E. rewrite last_last, removelast_last. cbn [bind fst snd].
    rewrite IH. reflexivity.
  - unfold wb_bool. cbn [_sample]. destruct l; split; congruence.
Qed.

(** ** Starting a level *)

Section Reset.
Context {G : Geometry}.

Lemma randomize_spec (k : Z) (p : string -> bool) (rs : list nat) (wb : Wordbag) :
  (0 <= k <= Z.of_nat (List.length (population (words wb) p)) ->
   exists s,
     randomize true k (Some p) rs wb = Ok (mkWordbag (words wb) (Some s))
     /\ List.length s = Z.to_nat k
     /\ NoDup s
     /\ forall x, In x s -> In x (words wb) /\ p x = true)
  /\ (k < 0 \/ Z.of_nat (List.length (population (words wb) p)) < k ->
      randomize true k (Some p) rs wb = Raise ValueError).
Proof.
  pose proof (population_spec (words wb) p) as [Hnd Hin].
  unfold randomize, random_sample. cbn [negb]. split.
  - intros [H0 Hk].
    destruct (Z.ltb_spec k 0); [lia|].
    destruct (Z.ltb_spec (Z.of_nat (List.length (population (words wb) p))) k); [lia|].
    cbn [orb bind].
    destruct (@sample_pool_spec (Z.to_nat k) (population (words wb) p) rs)
      as (L & N & I); [lia | exact Hnd |].
    eexists. split; [reflexivity|]. split; [exact L|]. split; [exact N|].
    intros x Hx. apply I, Hin in Hx. exact Hx.
  - intros [H | H].
    + destruct (Z.ltb_spec k 0); [reflexivity | lia].
    + destruct (Z.ltb_spec (Z.of_nat (List.length (population (words wb) p))) k);
        [|lia].
      rewrite orb_true_r. reflexivity.
Qed.

Lemma randomize_refused (k : Z) (pr : option (string -> bool)) (rs : list nat)
  (wb : Wordbag) :
  randomize false k pr rs wb = Raise TypeError.
Proof. destruct pr; reflexivity. Qed.

Lemma reset_refused (fi : FrameIn) (g : Gameplay) (k : Z) (p : string -> bool) :
  samples_sets = false ->
  nth_error (levels g) (level g) = Some (k, p) ->
  reset fi g = Raise TypeError.
Proof.
  intros Hs E. unfold reset. destruct g. rsimpl_all.
  rewrite E, Hs, randomize_refused. reflexivity.
Qed.

(** X6: [reset] raises [IndexError] when the gameplay's level has no entry
    in [levels].  When it has one, the outcome depends on the interpreter:
    where [random.sample] refuses a set (Python 3.11 and later), [reset]
    raises [TypeError], whatever the level asks for; where it takes one,
    [reset] raises [ValueError] when the level asks for more words than
    the vocabulary has distinct eligible words, and otherwise it starts the
    level: the health is 3, the player points up, nothing is locked, at most
    three targets may be alive, the sample holds the number of distinct
    eligible words the level asks for, and the group holds the player alone
    in the combat sub-state when the intro is skipped, the player and the
    banner in the intro sub-state when it is not.  The level, the pause mark
    and the sprite objects made so far are left as they are. *)
Theorem reset_starts_level (fi : FrameIn) (g : Gameplay) :
  (nth_error (levels g) (level g) = None -> reset fi g = Raise IndexError)
  /\ forall k p,
      nth_error (levels g) (level g) = Some (k, p) ->
      (samples_sets = false -> reset fi g = Raise TypeError)
      /\ (samples_sets = true ->
          (k < 0 \/ Z.of_nat (List.length (population (words (wordbag g)) p)) < k ->
           reset fi g = Raise ValueError)
          /\ (0 <= k <= Z.of_nat (List.length (population (words (wordbag g)) p)) ->
              exists g' s,
                reset fi g = Ok g'
                /\ wordbag g' = mkWordbag (words (wordbag g)) (Some s)
                /\ List.length s = Z.to_nat k
                /\ NoDup s
                /\ (forall x, In x s -> In x (words (wordbag g)) /\ p x = true)
                /\ health g' = 3
                /\ player_angle g' = of_degrees 90
                /\ locked g' = None
                /\ max_nsprites g' = 3
                /\ ready_time g' = O
                /\ group g' = (if skip_intro g then [Player] else [Player; Ready])
                /\ updatestack g'
                   = (if skip_intro g then [update_gameplay_m]
                      else [update_intro_m; update_gameplay_m])
                /\ level g' = level g
                /\ paused g' = paused g
                /\ (texts g', ships g', bullets g', sparkobjs g', explosions g',
                    next_id g')
                   = (texts g, ships g, bullets g, sparkobjs g, explosions g,
                      next_id g))).
Proof.
  destruct g as [sp sa wb lv si pp pa hl gr pz us rt dm lvl mx lk tx sh bl so ex ni].
  unfold reset. rsimpl.
  split.
  - intros ->. reflexivity.
  - intros k p ->. split.
    + intros ->. rewrite randomize_refused. reflexivity.
    + intros ->. split.
      * intros H. rewrite (proj2 (randomize_spec k p (rnd_sample fi) wb) H).
        reflexivity.
      * intros H.
        destruct (proj1 (randomize_spec k p (rnd_sample fi) wb) H)
          as (s & -> & L & N & I).
        cbn [bind]. rsimpl.
        destruct si; unfold exit_intro; rsimpl;
          eexists; exists s; (split; [reflexivity|]); rsimpl;
          repeat (split; [first [reflexivity | assumption]|]); reflexivity.
Qed.

End Reset.

(** ** Keystrokes without a target, scene transitions and menus *)

Section Scenes.
Context {G : Geometry}.

Lemma scan_none (letter : string) (g : Gameplay) (l : list sprite) :
  (forall i, In (Text i) l -> starts_with letter (text_of i g) = false) ->
  scan letter g l = None.
Proof.
  induction l as [|x r IH]; intros H; simpl; [reflexivity|].
  assert (Hr : scan letter g r = None) by (apply IH; intros i Hi; apply H; now right).
  destruct x; try exact Hr.
  rewrite (H i (or_introl eq_refl)). exact Hr.
Qed.

(** X7: while nothing is locked, a keystroke that is the first character of
    no text sprite of the group changes nothing, whether misses do damage or
    not: the miss is only counted against a locked target. *)
Theorem fire_without_target (letter : string) (w : World) :
  locked (game w) = None ->
  (forall i, In (Text i) (group (game w)) ->
             starts_with letter (text_of i (game w)) = false) ->
  fire letter w = Ok w.
Proof.
  intros Hl Hs. apply scan_none in Hs.
  open_world w. subst. unfold fire. rsimpl. rewrite Hs. reflexivity.
Qed.

Lemma scene_enter_stack (fi : FrameIn) (s : scene) (w : World) (r : scene * World) :
  scene_enter fi s w = Ok r -> stack (snd r) = stack w.
Proof.
  unfold scene_enter. destruct s as [|m].
  - intros H. apply bind_Ok_inv in H as (g & _ & H). injection H as <-. reflexivity.
  - pose proof (select_first_button_shape m w) as (_ & _ & S).
    destruct (select_first_button m w) as [m' w']. intros H. injection H as <-.
    exact S.
Qed.

Lemma sm_pop_height (fi : FrameIn) (w w' : World) :
  sm_pop fi w = Ok w' -> List.length (stack w) = S (List.length (stack w')).
Proof.
  unfold sm_pop. destruct (stack w) as [|s [|top below]]; [discriminate| |].
  - intros H. injection H as <-. reflexivity.
  - intros H. apply bind_Ok_inv in H as (r & _ & H). injection H as <-. reflexivity.
Qed.

Lemma sm_push_height (fi : FrameIn) (s : scene) (w w' : World) :
  sm_push fi s w = Ok w' -> List.length (stack w') = S (List.length (stack w)).
Proof.
  unfold sm_push. intros H. apply bind_Ok_inv in H as (r & _ & H).
  injection H as <-. reflexivity.
Qed.

Lemma sm_dispatch_height (fi : FrameIn) (evs : list event) :
  forall w w',
    sm_dispatch fi evs w = Ok w' ->
    (List.length (stack w') + pops_in evs
     = List.length (stack w) + pushes_in evs)%nat.
Proof.
  unfold pops_in, pushes_in.
  induction evs as [|e r IH]; intros w w' H; simpl in H.
  - injection H as <-. reflexivity.
  - destruct e; cbn [filter List.length];
      try (apply IH in H; exact H).
    + apply bind_Ok_inv in H as (w1 & H1 & H).
      apply sm_pop_height in H1. apply IH in H. lia.
    + apply bind_Ok_inv in H as (w1 & H1 & H).
      apply sm_push_height in H1. apply IH in H. lia.
Qed.

(** X8: when [StateManager.update] goes through, the pops and pushes of the
    queue balance on the scene stack: its height has grown by the number of
    pushes and shrunk by the number of pops.  A pop that finds the stack
    empty raises [IndexError]. *)
Theorem sm_update_height (fi : FrameIn) (w w' : World) :
  sm_update fi w = Ok w' ->
  (List.length (stack w') + pops_in (events w)
   = List.length (stack w) + pushes_in (events w))%nat
  /\ forall v, stack v = [] -> sm_pop fi v = Raise IndexError.
Proof.
  intros H. split.
  - apply sm_dispatch_height in H. exact H.
  - intros v Hv. unfold sm_pop. rewrite Hv. reflexivity.
Qed.

Lemma quit_stays (fis : list FrameIn) (w : World) :
  existsb is_quit (events w) = true -> run fis w = Ok w.
Proof.
  intros H. destruct fis as [|fi r]; [reflexivity|].
  cbn [run]. unfold frame. cbn [events set_events].
  rewrite existsb_app, H. reflexivity.
Qed.

(** X9: pressing return on a hovered button whose callback is [quit] posts
    the quit event, and from then on the engine loop is over: whatever frames
    follow, the world stays as it is.  So does a loop whose queue holds a
    quit event from elsewhere. *)
Theorem quit_ends_run (fis : list FrameIn) (w : World) (m : MenuState)
  (below : list scene) (h : nat) (u : string) :
  stack w = SMenu m :: below ->
  hover m = Some h ->
  nth_error (buttons m) h = Some CbQuit ->
  (exists w1,
      scene_handle (KEYDOWN K_RETURN u) w = Ok w1
      /\ events w1 = events w ++ [QUIT]
      /\ run fis w1 = Ok w1)
  /\ forall v, In QUIT (events v) -> run fis v = Ok v.
Proof.
  intros Hs Hh Hb. split.
  - unfold scene_handle. rewrite Hs. cbn [menu_handle].
    unfold hover in Hh. destruct (hover_attr m) as [[h'|]|]; try discriminate.
    injection Hh as ->.
    cbn [bind fst snd]. unfold press. rewrite Hb. cbn [do_callback].
    eexists. split; [reflexivity|]. split; [reflexivity|].
    apply quit_stays. cbn [events set_stack post set_events].
    rewrite existsb_app. cbn. apply orb_true_r.
  - intros v Hv. apply quit_stays. apply existsb_exists. exists QUIT. auto.
Qed.

(** X10: [MenuState.__init__] does not assign [hover].  On a menu whose
    [hover] was never assigned, which is what entering a menu without
    buttons leaves, the arrow keys, the return key and drawing raise
    [AttributeError].  Once [hover] is assigned, the arrow keys move the
    pointer from the hovered button to the next or the previous one, around
    the ends: the motion they post names the button at the hovered index
    plus or minus one, modulo the number of buttons.  With [hover] assigned
    but empty the first button is hovered before the move, and a menu
    without buttons ignores the keys. *)
Theorem selection_wraps (fi : FrameIn) (move : Z) (m : MenuState) (w : World)
  (u : string) :
  let n := List.length (buttons m) in
  (hover_attr m = None ->
   selection move m w = Raise AttributeError
   /\ menu_handle (KEYDOWN K_RETURN u) m w = Raise AttributeError
   /\ (forall below, stack w = SMenu m :: below ->
                     scene_draw w = Raise AttributeError)
   /\ (n = O -> scene_enter fi (SMenu m) w = Ok (SMenu m, w)))
  /\ (n = O -> hover_attr m = Some None -> selection move m w = Ok (m, w))
  /\ (forall i,
        (i < n)%nat ->
        hover_attr m = Some (Some i) ->
        let j := Z.to_nat ((Z.of_nat i + move) mod Z.of_nat n) in
        selection move m w = Ok (m, post (MOUSEMOTION (Some j)) w)
        /\ (j < n)%nat
        /\ (move = 1 -> j = if Nat.eqb (S i) n then O else S i)
        /\ (move = -1 -> j = if Nat.eqb i O then Nat.pred n else Nat.pred i))
  /\ ((0 < n)%nat ->
      hover_attr m = Some None ->
      let j := Z.to_nat (move mod Z.of_nat n) in
      selection move m w
      = Ok (mkMenu (items m) (Some O),
            post (MOUSEMOTION (Some j)) (post (MOUSEMOTION (Some O)) w))
      /\ (j < n)%nat)
  /\ menu_handle (KEYDOWN K_DOWN u) m w = selection 1 m w
  /\ menu_handle (KEYDOWN K_UP u) m w = selection (-1) m w.
Proof.
  intros n. subst n. split; [|split; [|split; [|split; [|split; reflexivity]]]].
  - intros Hh. unfold selection, menu_handle, scene_draw, scene_enter,
      select_first_button. rewrite Hh.
    split; [reflexivity|]. split; [reflexivity|]. split.
    + intros below ->. rewrite Hh. reflexivity.
    + intros Hn. destruct (buttons m); [reflexivity | discriminate].
  - intros Hn Hh. unfold selection, select_first_button. rewrite Hh.
    destruct (buttons m) eqn:E; [|discriminate].
    unfold hover. rewrite Hh. reflexivity.
  - intros i Hn Hh j. unfold selection. rewrite Hh. unfold hover. rewrite Hh.
    split; [reflexivity|].
    pose proof (Z.mod_pos_bound (Z.of_nat i + move)
                  (Z.of_nat (List.length (buttons m)))) as B.
    split; [unfold j; lia|]. split.
    + intros ->. unfold j.
      destruct (Nat.eqb_spec (S i) (List.length (buttons m))) as [E | E].
      * replace (Z.of_nat i + 1) with (Z.of_nat (List.length (buttons m))) by lia.
        rewrite Z.mod_same by lia. reflexivity.
      * rewrite Z.mod_small by lia. lia.
    + intros ->. unfold j.
      destruct (Nat.eqb_spec i O) as [E | E].
      * subst i.
        replace (Z.of_nat 0 + -1)
          with (Z.of_nat (Nat.pred (List.length (buttons m)))
                + (-1) * Z.of_nat (List.length (buttons m))) by lia.
        rewrite Z.mod_add by lia. rewrite Z.mod_small by lia. lia.
      * rewrite Z.mod_small by lia. lia.
  - intros Hn Hh j. unfold selection, select_first_button. rewrite Hh.
    destruct (buttons m) as [|cb r] eqn:E; [simpl in Hn; lia|].
    cbn [hover hover_attr mkMenu items]. split.
    + unfold j.
      change (buttons (mkMenu (items m) (Some O))) with (buttons m).
      rewrite E. reflexivity.
    + unfold j. pose proof (Z.mod_pos_bound move (Z.of_nat (List.length (cb :: r)))).
      cbn [List.length] in *. lia.
Qed.

End Scenes.

(** ** The gameplay cannot fail *)

Section Safety.
Context {G : Geometry}.

Lemma aget_aset_dom (V : Type) (i t : nat) (v : V) (l : list (nat * V)) :
  aget t l <> None -> aget t (aset i v l) <> None.
Proof.
  intros H. destruct (Nat.eq_dec t i) as [-> | N].
  - rewrite aget_aset_same. discriminate.
  - rewrite aget_aset_other by auto. exact H.
Qed.

Lemma keeps_refl (g : Gameplay) : keeps g g.
Proof. repeat split; auto. Qed.

Lemma keeps_trans (a b c : Gameplay) : keeps a b -> keeps b c -> keeps a c.
Proof.
  intros (A1 & A2 & A3) (B1 & B2 & B3). repeat split.
  - congruence.
  - lia.
  - auto.
Qed.

Lemma keeps_kill (s : sprite) (g : Gameplay) : keeps g (kill s g).
Proof. repeat split; auto. Qed.

Lemma keeps_kill_spark (k : nat) (g : Gameplay) : keeps g (kill_spark k g).
Proof. repeat split; auto. Qed.

Lemma keeps_bullet_update (dt : Z) (b : nat) (g : Gameplay) :
  keeps g (bullet_update dt b g).
Proof.
  unfold bullet_update.
  destruct (aget b (bullets g)) as [o|]; [|apply keeps_refl].
  destruct (aget (target o) (ships g)) as [s|]; [|apply keeps_refl].
  destruct (timetolive <=? accumulator o + dt); [|repeat split; auto].
  match goal with |- context [match ?x with EmptyString => _ | String _ _ => _ end] =>
    destruct x end;
    (split; [reflexivity|]; split; [apply Nat.le_refl|]);
    intros t Ht; cbn; apply aget_aset_dom; exact Ht.
Qed.

Lemma keeps_spark_update (k : nat) (g : Gameplay) : keeps g (spark_update k g).
Proof.
  unfold spark_update. destruct (aget k (sparkobjs g)); repeat split; auto.
Qed.

Lemma keeps_sprite_update (dt : Z) (s : sprite) (g : Gameplay) :
  keeps g (sprite_update dt s g).
Proof.
  destruct s; simpl; auto using keeps_refl, keeps_bullet_update, keeps_spark_update.
Qed.

Lemma keeps_group_update (dt : Z) (g : Gameplay) : keeps g (group_update dt g).
Proof.
  unfold group_update.
  apply (fold_left_inv (fun acc s => sprite_update dt s acc) (fun a => keeps g a));
    [|apply keeps_refl].
  intros a x Ha. eapply keeps_trans; [exact Ha | apply keeps_sprite_update].
Qed.

Lemma keeps_remove_sparks_outofbounds (g : Gameplay) :
  keeps g (remove_sparks_outofbounds g).
Proof.
  unfold remove_sparks_outofbounds.
  apply (fold_left_inv _ (fun a => keeps g a)); [|apply keeps_refl].
  intros a x Ha. destruct x; auto.
  destruct (aget k (sparkobjs a)) as [o|]; auto.
  destruct (contains (space a) (spark_rect o)); auto.
Qed.

Lemma keeps_add_sparks (ks : list nat) (g : Gameplay) : keeps g (_add_sparks ks g).
Proof.
  unfold _add_sparks.
  apply (fold_left_inv _ (fun a => keeps g a)); [|apply keeps_refl].
  intros a x Ha. eapply keeps_trans; [exact Ha|]. repeat split; auto.
Qed.

Lemma keeps_Explosion_init (c : point) (n : nat) (sp : Z * Z)
  (draw : nat -> nat * nat * Z) (g : Gameplay) :
  keeps g (snd (Explosion_init c n sp draw g)).
Proof.
  unfold Explosion_init. cbn [snd]. split; [reflexivity|]. rsimpl.
  split; [lia | auto].
Qed.

Lemma keeps_explode (fi : FrameIn) (w : World) (s : sprite) :
  keeps (game w) (game (explode fi w s)).
Proof.
  unfold explode. destruct s; try apply keeps_refl.
  - destruct (aget i (ships (game w))) as [o|]; [|apply keeps_refl].
    match goal with |- context [Explosion_init ?c ?n ?sp ?d ?g] =>
      pose proof (keeps_Explosion_init c n sp d g) as K;
      destruct (Explosion_init c n sp d g) as [ex g1]
    end.
    cbn [snd] in K. rsimpl.
    eapply keeps_trans; [exact K|].
    split; [reflexivity|]. rsimpl. split; [lia | auto].
  - destruct (aget b (bullets (game w))) as [o|]; [|apply keeps_refl].
    match goal with |- context [Explosion_init ?c ?n ?sp ?d ?g] =>
      pose proof (keeps_Explosion_init c n sp d g) as K;
      destruct (Explosion_init c n sp d g) as [ex g1]
    end.
    cbn [snd] in K. rsimpl.
    eapply keeps_trans; [exact K | apply keeps_add_sparks].
Qed.

Lemma keeps_deaths (fi : FrameIn) (died : list sprite) (w : World) :
  keeps (game w) (game (spawn_explosions_from_deaths fi died w)).
Proof.
  unfold spawn_explosions_from_deaths.
  apply (fold_left_inv (explode fi) (fun a => keeps (game w) (game a)));
    [|apply keeps_refl].
  intros a x Ha. eapply keeps_trans; [exact Ha | apply keeps_explode].
Qed.

Lemma keeps_materialize (w : World) (kv : ckey * Z) :
  keeps (game w) (game (materialize w kv)).
Proof.
  unfold materialize. destruct (fst kv); try apply keeps_refl.
  match goal with |- context [if ?c then _ else _] => destruct c end;
    [|apply keeps_refl].
  destruct (aget e (explosions (game w))) as [ex|]; [|apply keeps_refl].
  apply keeps_add_sparks.
Qed.

Lemma keeps_from_cooldowns (w : World) :
  keeps (game w) (game (spawn_explosions_from_cooldowns w)).
Proof.
  unfold spawn_explosions_from_cooldowns. generalize (cooldowns w) as l.
  intros l. revert w. induction l as [|kv r IH]; intros w; simpl.
  - apply keeps_refl.
  - eapply keeps_trans; [apply keeps_materialize | apply IH].
Qed.

Lemma keeps_move_ships (ids : list nat) (w : World) :
  keeps (game w) (game (move_ships ids w)).
Proof.
  revert w. induction ids as [|i r IH]; intros w; simpl; [apply keeps_refl|].
  destruct (aget i (ships (game w))) as [s|]; [|apply IH].
  match goal with |- context [if ?c then _ else _] => destruct c end.
  - match goal with |- context [if ?c then _ else _] => destruct c end;
      (split; [reflexivity|]; split; [apply Nat.le_refl|]);
      intros t Ht; cbn; apply aget_aset_dom; exact Ht.
  - eapply keeps_trans; [|apply IH].
    split; [reflexivity|]. split; [apply Nat.le_refl|].
    intros t Ht. cbn. apply aget_aset_dom. exact Ht.
Qed.

Lemma sound_keeps (g g' : Gameplay) : keeps g g' -> sound g -> sound g'.
Proof.
  intros (B & N & S) (I1 & I2 & I3 & I4 & I5).
  unfold backbone in B. injection B as _ _ Ew El _ _ Eu _ Elv Elk Et.
  unfold sound, arenas_ok. rewrite Ew, El, Eu, Elv, Elk, Et.
  repeat split; auto.
  - destruct (I5 t H). lia.
  - apply S. apply (I5 t H).
Qed.

Lemma config_keeps (g g' : Gameplay) : keeps g g' -> config g' = config g.
Proof.
  intros (B & _). unfold backbone in B. unfold config.
  injection B as -> -> -> -> -> -> _ -> _ _ _. reflexivity.
Qed.

Lemma level_keeps (g g' : Gameplay) : keeps g g' -> level g' = level g.
Proof.
  intros (B & _). unfold backbone in B. injection B as _ _ _ _ _ _ _ _ L _ _.
  exact L.
Qed.

Lemma updatestack_keeps (g g' : Gameplay) :
  keeps g g' -> updatestack g' = updatestack g.
Proof.
  intros (B & _). unfold backbone in B. injection B as _ _ _ _ _ _ U _ _ _ _.
  exact U.
Qed.

Lemma playable_config (g g' : Gameplay) :
  config g' = config g -> playable g -> playable g'.
Proof.
  unfold config, playable. intros E. injection E as _ -> -> _ _ _ ->. auto.
Qed.

End Safety.

Section Safety2.
Context {G : Geometry}.

(** the interpreter's [random.sample] takes a set *)
Hypothesis Hsets : samples_sets = true.

(** the fields of [sound] and [config] that a step leaves as they are *)
Ltac finish_sound :=
  unfold sound, arenas_ok, config in *; rsimpl; repeat split; auto;
  try discriminate;
  try match goal with
      | I : forall t, aget t _ <> None -> _, H : aget _ _ <> None |- _ =>
          destruct (I _ H); solve [auto | lia]
      end.

Lemma scan_some (letter : string) (g : Gameplay) (l : list sprite) (t : nat) :
  scan letter g l = Some t ->
  exists o c rest, aget t (texts g) = Some o /\ text o = String c rest.
Proof.
  induction l as [|x r IH]; simpl; [discriminate|].
  destruct x; auto.
  destruct (starts_with letter (text_of i g)) eqn:E; auto.
  intros H. injection H as <-. unfold text_of in E.
  destruct (aget i (texts g)) as [o|]; [|discriminate].
  destruct (text o) as [|c rest] eqn:Et; [discriminate|]. eauto.
Qed.

Lemma fire_sound (letter : string) (w : World) :
  sound (game w) ->
  exists w',
    fire letter w = Ok w'
    /\ sound (game w')
    /\ config (game w') = config (game w)
    /\ level (game w') = level (game w)
    /\ stack w' = stack w.
Proof.
  intros (I1 & I2 & I3 & I4 & I5).
  destruct w as [cd g ev st].
  destruct g as [sp sa wb lv si pp pa hl gr pz us rt dm lvl mx lk tx sh bl so ex ni].
  unfold arenas_ok in I5. rsimpl_all. unfold fire. rsimpl.
  match goal with
  | |- context [match lk with Some t => Some t | None => ?s end] =>
      set (lk' := match lk with Some t => Some t | None => s end)
  end.
  assert (Hlk : forall t, lk' = Some t ->
                          exists o c rest, aget t tx = Some o /\ text o = String c rest).
  { intros t Ht. unfold lk' in Ht. destruct lk as [u|].
    - injection Ht as ->. destruct (I4 t eq_refl) as (o & Ho & Hn).
      destruct (text o) as [|c rest] eqn:E; [contradiction|]. eauto.
    - apply scan_some in Ht. exact Ht. }
  clearbody lk'. clear I4.
  destruct lk' as [t|];
    [|eexists; split; [reflexivity|]; unfold sound, arenas_ok, config; rsimpl;
      repeat split; auto;
      first [ intros u Hu; discriminate Hu
            | match goal with H : aget _ _ <> None |- _ =>
                destruct (I5 _ H); solve [auto | lia] end ]].
  destruct (Hlk t eq_refl) as (o & c & rest & Ho & Ht). rewrite Ho, Ht.
  assert (Hdom : forall v1 v2 u,
             aget u (aset t v2 (aset t v1 tx)) <> None -> aget u tx <> None).
  { intros v1 v2 u Hu. destruct (Nat.eq_dec u t) as [-> | N].
    - rewrite Ho. discriminate.
    - rewrite !aget_aset_other in Hu by auto. exact Hu. }
  destruct (String.eqb letter (String c EmptyString)).
  - destruct (group_has (Text t) gr); rsimpl;
      destruct rest as [|c' rest']; (eexists; split; [reflexivity|]);
      unfold sound, arenas_ok; rsimpl;
      (split; [repeat split; auto|]); repeat split; auto;
      try discriminate;
      try (intros u Hu; injection Hu as <-; rewrite aget_aset_same;
           eexists; split; [reflexivity | discriminate]);
      try (match goal with H : aget _ _ <> None |- _ =>
             apply Hdom in H; apply I5 in H; destruct H; solve [auto | lia] end).
  - destruct dm.
    + unfold hit_player. rsimpl.
      destruct (hl - 1 =? 0); (eexists; split; [reflexivity|]);
        unfold sound, arenas_ok; rsimpl; repeat split; auto;
        first [ intros u Hu; injection Hu as <-; rewrite Ho; eexists; split;
                [reflexivity | rewrite Ht; discriminate]
              | match goal with H : aget _ _ <> None |- _ =>
                  destruct (I5 _ H); solve [auto | lia] end ].
    + eexists; split; [reflexivity|].
      unfold sound, arenas_ok; rsimpl; repeat split; auto;
        first [ intros u Hu; injection Hu as <-; rewrite Ho; eexists; split;
                [reflexivity | rewrite Ht; discriminate]
              | match goal with H : aget _ _ <> None |- _ =>
                  destruct (I5 _ H); solve [auto | lia] end ].
Qed.

Lemma spawn_word_sound (fi : FrameIn) (w : World) :
  needs_word_spawn w = true ->
  playable (game w) -> sound (game w) ->
  exists w',
    spawn_word fi w = Ok w'
    /\ sound (game w')
    /\ words (wordbag (game w')) = words (wordbag (game w)).
Proof.
  intros Hn (Px & Py & _) (I1 & I2 & I3 & I4 & I5).
  apply needs_word_spawn_spec in Hn as (_ & _ & x & l & Hs).
  unfold spawn_word, wb_pop. rewrite Hs. cbn [bind fst snd].
  unfold random_location, random_location_from.
  destruct (rnd_location fi) as [rx ry].
  change (spawn_area (set_group _ _)) with (spawn_area (game w)).
  rewrite (randint_ok rx Px), (randint_ok ry Py). cbn [bind].
  eexists. split; [reflexivity|].
  destruct w as [cd g ev st].
  destruct g as [sp sa wb lv si pp pa hl gr pz us rt dm lvl mx lk tx sh bl so ex ni].
  unfold arenas_ok in I5. rsimpl_all.
  unfold sound, arenas_ok. rsimpl. cbn [_sample words].
  split; [|reflexivity].
  split; [exact I1|]. split; [exact I2|]. split; [discriminate|]. split.
  - intros t Ht. destruct (I4 t Ht) as (o & Ho & Hn). exists o. split; [|exact Hn].
    rewrite aget_aset_other; [exact Ho|].
    assert (aget t tx <> None) by (rewrite Ho; discriminate).
    apply I5 in H. lia.
  - intros t Ht. destruct (Nat.eq_dec t ni) as [-> | N].
    + split; [lia|]. rewrite aget_aset_same. discriminate.
    + rewrite aget_aset_other in Ht by auto. apply I5 in Ht as [A B].
      split; [lia|]. now apply aget_aset_dom, aget_aset_dom.
Qed.

Lemma maybe_spawn_sound (fi : FrameIn) (w : World) :
  playable (game w) -> sound (game w) ->
  exists w',
    maybe_spawn fi w = Ok w'
    /\ sound (game w')
    /\ words (wordbag (game w')) = words (wordbag (game w)).
Proof.
  intros P S. unfold maybe_spawn. destruct (needs_word_spawn w) eqn:E.
  - apply spawn_word_sound; assumption.
  - exists w. auto.
Qed.

Lemma words_keeps (g g' : Gameplay) :
  keeps g g' -> words (wordbag g') = words (wordbag g).
Proof.
  intros (B & _). unfold backbone in B. injection B as _ _ W _ _ _ _ _ _ _ _.
  now rewrite W.
Qed.

Lemma combat_advance_sound (fi : FrameIn) (w : World) :
  playable (game w) -> sound (game w) ->
  exists w1,
    combat_advance fi w = Ok w1
    /\ sound (game w1)
    /\ words (wordbag (game w1)) = words (wordbag (game w)).
Proof.
  intros P S. unfold combat_advance.
  destruct (@maybe_spawn_sound fi w P S) as (w0 & -> & S0 & W0). cbn [bind].
  set (g1 := remove_sparks_outofbounds (game w0)).
  set (g2 := group_update (elapsed fi) g1).
  set (w2 := spawn_explosions_from_deaths fi
               (filter (not_alive g2) (died_candidates g1)) (set_game g2 w0)).
  set (w3 := spawn_explosions_from_cooldowns w2).
  assert (K : keeps (game w0) (game w3)).
  { eapply keeps_trans; [apply keeps_remove_sparks_outofbounds|]. fold g1.
    eapply keeps_trans; [apply keeps_group_update|]. fold g2.
    eapply keeps_trans; [|apply keeps_from_cooldowns].
    apply (keeps_deaths fi _ (set_game g2 w0)). }
  clearbody w3. clear w2 g2 g1.
  pose proof (sound_keeps K S0) as S3.
  pose proof (words_keeps K) as W3.
  destruct (locked (game w3)) as [t|] eqn:El.
  - destruct S3 as (I1 & I2 & I3 & I4 & I5).
    destruct (I4 t El) as (o & Ho & _).
    assert (Hs : aget t (ships (game w3)) <> None).
    { apply I5. rewrite Ho. discriminate. }
    destruct (aget t (ships (game w3))) as [s|]; [|contradiction].
    eexists. split; [reflexivity|]. rsimpl. split; [|congruence].
    unfold sound, arenas_ok. rsimpl. auto 10.
  - exists w3. split; [reflexivity|]. split; [exact S3 | congruence].
Qed.

Lemma combat_resolve_sound (w : World) :
  sound (game w) ->
  updatestack (game w) = [update_gameplay_m] ->
  exists w',
    combat_resolve w = Ok w'
    /\ sound (game w')
    /\ config (game w') = config (game w)
    /\ level (game w') = level (game w)
    /\ stack w' = stack w.
Proof.
  intros S U. unfold combat_resolve.
  destruct (match ship_ids (game w) with [] => true | _ :: _ => false end
            && is_win_state w).
  - rewrite U. eexists. split; [reflexivity|].
    destruct S as (I1 & I2 & I3 & I4 & I5). finish_sound.
  - eexists. split; [reflexivity|].
    pose proof (keeps_move_ships (ship_ids (game w)) w) as K.
    split; [exact (sound_keeps K S)|]. split; [exact (config_keeps K)|].
    split; [exact (level_keeps K)|]. apply move_ships_shape.
Qed.

Lemma update_gameplay_sound (fi : FrameIn) (w : World) :
  playable (game w) -> sound (game w) ->
  updatestack (game w) = update_gameplay_m :: tl (updatestack (game w)) ->
  goes_on w (update_gameplay fi w).
Proof.
  intros P S U. unfold update_gameplay.
  destruct (@combat_advance_sound fi w P S) as (w1 & E & S1 & W1).
  rewrite E. cbn [bind].
  apply combat_advance_shape in E as (C & _ & St & _).
  unfold core in C. injection C as Csp Csa Clv Csi Cpp _ _ Cus _ Cdm Clvl _ _.
  assert (U1 : updatestack (game w1) = [update_gameplay_m]).
  { rewrite Cus. destruct S as ([H | [H | H]] & _); rewrite H in U |- *;
      [discriminate | reflexivity | discriminate]. }
  destruct (@combat_resolve_sound w1 S1 U1) as (w' & -> & S' & C' & L' & St').
  exists w'. split; [reflexivity|]. split; [exact S'|].
  split; [|split; [lia | congruence]].
  rewrite C'. unfold config. congruence.
Qed.

Lemma exit_intro_sound (g : Gameplay) :
  sound g -> updatestack g = [update_intro_m; update_gameplay_m] ->
  exists g',
    exit_intro g = Ok g'
    /\ sound g'
    /\ config g' = config g
    /\ level g' = level g.
Proof.
  intros (I1 & I2 & I3 & I4 & I5) U. unfold exit_intro. rewrite U.
  eexists. split; [reflexivity|]. finish_sound.
Qed.

Lemma update_intro_sound (fi : FrameIn) (w : World) :
  sound (game w) ->
  updatestack (game w) = update_intro_m :: tl (updatestack (game w)) ->
  goes_on w (update_intro fi w).
Proof.
  intros Hs U. unfold update_intro.
  assert (U0 : updatestack (game w) = [update_intro_m; update_gameplay_m]).
  { destruct Hs as ([H | [H | H]] & _); rewrite H in U |- *;
      [reflexivity | discriminate | discriminate]. }
  pose proof (keeps_group_update (elapsed fi) (game w)) as K.
  set (g := group_update (elapsed fi) (game w)) in *.
  assert (K1 : keeps (game w) (set_ready_time (S (ready_time g)) g)).
  { eapply keeps_trans; [exact K|]. repeat split; auto. }
  set (g1 := set_ready_time (S (ready_time g)) g) in *.
  pose proof (sound_keeps K1 Hs) as S1.
  destruct (intro_over (ready_time g1)).
  - destruct (@exit_intro_sound g1 S1) as (g2 & -> & S2 & C2 & L2).
    { rewrite (updatestack_keeps K1). exact U0. }
    cbn [bind]. exists (set_game g2 w). split; [reflexivity|].
    cbn [game set_game stack]. split; [exact S2|].
    split; [rewrite C2; apply (config_keeps K1)|].
    split; [rewrite L2, (level_keeps K1); lia | reflexivity].
  - exists (set_game g1 w). split; [reflexivity|].
    cbn [game set_game stack]. split; [exact S1|].
    split; [apply (config_keeps K1)|].
    split; [rewrite (level_keeps K1); lia | reflexivity].
Qed.

Lemma reset_sound (fi : FrameIn) (g : Gameplay) :
  playable g -> arenas_ok g -> (level g < List.length (levels g))%nat ->
  exists g',
    reset fi g = Ok g'
    /\ sound g'
    /\ config g' = config g
    /\ level g' = level g
    /\ paused g' = paused g.
Proof.
  intros (_ & _ & P) A L.
  destruct g as [sp sa wb lv si pp pa hl gr pz us rt dm lvl mx lk tx sh bl so ex ni].
  unfold arenas_ok in A. rsimpl_all. unfold reset. rsimpl. rewrite Hsets.
  destruct (nth_error lv lvl) as [[k p]|] eqn:E;
    [|apply nth_error_None in E; lia].
  destruct (proj1 (randomize_spec k p (rnd_sample fi) wb) (P _ _ _ E))
    as (s & -> & _).
  cbn [bind]. rsimpl.
  destruct si; unfold exit_intro; rsimpl;
    (eexists; split; [reflexivity|]);
    cbn [_sample words]; finish_sound.
Qed.

Lemma enter_sound (fi : FrameIn) (g : Gameplay) :
  playable g -> arenas_ok g -> (level g < List.length (levels g))%nat ->
  (paused g = true -> sound g) ->
  exists g',
    enter fi g = Ok g'
    /\ sound g'
    /\ config g' = config g
    /\ level g' = level g
    /\ paused g' = false.
Proof.
  intros P A L S. unfold enter. destruct (paused g) eqn:Ep.
  - eexists. split; [reflexivity|]. specialize (S eq_refl).
    destruct S as (I1 & I2 & I3 & I4 & I5). finish_sound.
  - destruct (@reset_sound fi g P A L) as (g' & -> & S' & C' & L' & _).
    cbn [bind]. eexists. split; [reflexivity|].
    destruct S' as (I1 & I2 & I3 & I4 & I5).
    split; [finish_sound|]. rsimpl. auto.
Qed.

Lemma check_win_state_sound (fi : FrameIn) (w : World) :
  playable (game w) -> sound (game w) -> goes_on w (check_win_state fi w).
Proof.
  intros P Hs. pose proof Hs as (I1 & I2 & I3 & I4 & I5).
  unfold check_win_state, wb_len.
  destruct (_sample (wordbag (game w))) as [l|]; [|contradiction].
  cbn [bind].
  destruct (Nat.eqb (List.length l) 0 && is_win_state w);
    [|exists w; split; [reflexivity|]; split; [exact Hs|]; repeat split; auto].
  change (game (set_cooldowns (clear_explosions (cooldowns w)) w)) with (game w).
  destruct (Nat.eqb (S (level (game w))) (List.length (levels (game w)))) eqn:E.
  - eexists. split; [reflexivity|]. split; [exact Hs|]. repeat split; auto.
  - apply Nat.eqb_neq in E.
    set (g := set_level (S (level (game w))) (set_paused false (game w))).
    destruct (@enter_sound fi g) as (g' & -> & S' & C' & L' & _).
    + apply (@playable_config _ (game w)); [reflexivity | exact P].
    + exact I5.
    + unfold g. rsimpl. lia.
    + intros X. discriminate X.
    + cbn [bind]. eexists. split; [reflexivity|]. rsimpl.
      split; [exact S'|]. split; [rewrite C'; reflexivity|].
      split; [rewrite L'; unfold g; rsimpl; lia | reflexivity].
Qed.

Lemma wait_sound (fi : FrameIn) (w : World) :
  playable (game w) -> sound (game w) ->
  goes_on w (update_gameplay_wait_for_animations fi w).
Proof.
  intros P Hs. unfold update_gameplay_wait_for_animations.
  assert (K : keeps (game w) (game (wait_advance fi w))
              /\ stack (wait_advance fi w) = stack w).
  { unfold wait_advance.
    set (g1 := group_update (elapsed fi) (game w)).
    set (g2 := remove_sparks_outofbounds g1).
    set (w2 := spawn_explosions_from_deaths fi
                 (filter (not_alive g1) (died_candidates (game w))) (set_game g2 w)).
    split.
    - eapply keeps_trans; [apply keeps_group_update|]. fold g1.
      eapply keeps_trans; [apply keeps_remove_sparks_outofbounds|]. fold g2.
      eapply keeps_trans; [|apply keeps_from_cooldowns].
      apply (keeps_deaths fi _ (set_game g2 w)).
    - pose proof (untouched_cooldowns w2) as (_ & _ & A & _).
      pose proof (untouched_deaths fi
                    (filter (not_alive g1) (died_candidates (game w)))
                    (set_game g2 w)) as (_ & _ & B & _).
      fold w2 in B. rewrite A, B. reflexivity. }
  destruct K as [K St].
  set (w1 := wait_advance fi w) in *. clearbody w1.
  destruct (@check_win_state_sound fi w1) as (w' & E & S' & C' & L' & St').
  - apply (@playable_config _ (game w)); [apply (config_keeps K) | exact P].
  - apply (sound_keeps K Hs).
  - exists w'. split; [exact E|]. split; [exact S'|].
    split; [rewrite C'; apply (config_keeps K)|].
    split; [rewrite <- (level_keeps K); exact L' | congruence].
Qed.

Lemma update_sound (fi : FrameIn) (w : World) :
  playable (game w) -> sound (game w) -> goes_on w (update fi w).
Proof.
  intros P Hs. unfold update.
  destruct (updatestack (game w)) as [|[| |] r] eqn:U.
  - destruct Hs as ([H | [H | H]] & _); rewrite H in U; discriminate.
  - apply update_intro_sound; [exact Hs | rewrite U; reflexivity].
  - apply update_gameplay_sound; [exact P | exact Hs | rewrite U; reflexivity].
  - apply wait_sound; assumption.
Qed.

Lemma handle_sound (ev : event) (w : World) :
  sound (game w) ->
  exists w',
    handle ev w = Ok w'
    /\ sound (game w')
    /\ config (game w') = config (game w)
    /\ level (game w') = level (game w)
    /\ stack w' = stack w.
Proof.
  intros Hs. unfold handle.
  destruct ev as [| | |k u|hit|hit];
    try (exists w; split; [reflexivity|]; split; [exact Hs|]; repeat split; auto).
  unfold on_keydown. destruct k; try apply fire_sound; auto.
  eexists. split; [reflexivity|].
  destruct Hs as (I1 & I2 & I3 & I4 & I5). finish_sound.
Qed.

Lemma handle_all_sound (evs : list event) :
  forall (w : World) (below : list scene),
    stack w = SGameplay :: below ->
    sound (game w) ->
    exists w',
      handle_all evs w = Ok w'
      /\ sound (game w')
      /\ config (game w') = config (game w)
      /\ level (game w') = level (game w)
      /\ stack w' = stack w.
Proof.
  induction evs as [|e r IH]; intros w below St Hs; cbn [handle_all].
  - exists w. split; [reflexivity|]. split; [exact Hs|]. repeat split; auto.
  - unfold scene_handle. rewrite St.
    destruct (@handle_sound e w Hs) as (w1 & -> & S1 & C1 & L1 & St1).
    cbn [bind].
    destruct (IH w1 below) as (w' & E & S' & C' & L' & St'); [congruence | exact S1 |].
    exists w'. split; [exact E|]. split; [exact S'|].
    repeat split; congruence.
Qed.

Lemma frame_body_sound (fi : FrameIn) (w : World) (below : list scene) :
  stack w = SGameplay :: below ->
  playable (game w) -> sound (game w) ->
  goes_on w (frame_body fi w).
Proof.
  intros St P Hs. unfold frame_body.
  destruct (@handle_all_sound (events w) (set_events [] w) below St Hs)
    as (w1 & -> & S1 & C1 & L1 & St1).
  cbn [bind]. cbn [game set_events stack] in C1, L1, St1.
  unfold scene_update. cbn [stack set_cooldowns]. rewrite St1, St.
  destruct (@update_sound fi (set_cooldowns (tick (elapsed fi) (cooldowns w1)) w1))
    as (w' & E & S' & C' & L' & St').
  - apply (@playable_config _ (game w)); [exact C1 | exact P].
  - exact S1.
  - cbn [game set_cooldowns stack] in C', L', St'.
    exists w'. split; [exact E|]. split; [exact S'|].
    split; [congruence|]. split; [lia | congruence].
Qed.

Lemma quiet_frames_sound (fis : list FrameIn) :
  forall (w : World) (below : list scene),
    stack w = SGameplay :: below ->
    playable (game w) -> sound (game w) ->
    goes_on w (quiet_frames fis w).
Proof.
  induction fis as [|fi r IH]; intros w below St P Hs; cbn [quiet_frames].
  - exists w. split; [reflexivity|]. split; [exact Hs|]. repeat split; auto.
  - destruct (@frame_body_sound fi (set_events (events w ++ inputs fi) w) below St P Hs)
      as (w1 & -> & S1 & C1 & L1 & St1).
    cbn [bind]. cbn [game set_events stack] in C1, L1, St1.
    destruct (IH w1 below) as (w' & E & S' & C' & L' & St').
    + congruence.
    + apply (@playable_config _ (game w)); [exact C1 | exact P].
    + exact S1.
    + exists w'. split; [exact E|]. split; [exact S'|].
      split; [congruence|]. split; [lia | congruence].
Qed.

End Safety2.

(** ** What no frame changes *)

Section Evolving.
Context {G : Geometry}.

Lemma evolves_refl (g : Gameplay) : evolves g g.
Proof. repeat split; auto. Qed.

Lemma evolves_trans (a b c : Gameplay) : evolves a b -> evolves b c -> evolves a c.
Proof.
  intros (A1 & A2 & A3) (B1 & B2 & B3). repeat split.
  - congruence.
  - lia.
  - auto.
Qed.

Lemma evolves_core (g g' : Gameplay) :
  core g' = core g -> words (wordbag g') = words (wordbag g) -> evolves g g'.
Proof.
  unfold core. intros C W. injection C as Csp Csa Clv Csi Cpp Ch _ _ _ Cdm Clvl _ _.
  unfold evolves, config. rewrite Csp, Csa, Clv, Csi, Cpp, Ch, Cdm, Clvl, W.
  repeat split; auto.
Qed.

Lemma spawn_word_words (fi : FrameIn) (w w' : World) :
  spawn_word fi w = Ok w' -> words (wordbag (game w')) = words (wordbag (game w)).
Proof.
  unfold spawn_word, wb_pop. intros H.
  destruct (_sample (wordbag (game w))) as [[|x l]|]; try discriminate.
  cbn [bind fst snd] in H.
  apply bind_Ok_inv in H as (rect & _ & H). injection H as <-. reflexivity.
Qed.

Lemma combat_advance_words (fi : FrameIn) (w w1 : World) :
  combat_advance fi w = Ok w1 ->
  words (wordbag (game w1)) = words (wordbag (game w)).
Proof.
  unfold combat_advance. intros H.
  apply bind_Ok_inv in H as (w0 & H0 & H).
  assert (W0 : words (wordbag (game w0)) = words (wordbag (game w))).
  { unfold maybe_spawn in H0. destruct (needs_word_spawn w).
    - apply spawn_word_words in H0. exact H0.
    - injection H0 as <-. reflexivity. }
  set (g1 := remove_sparks_outofbounds (game w0)) in *.
  set (g2 := group_update (elapsed fi) g1) in *.
  set (w2 := spawn_explosions_from_deaths fi
               (filter (not_alive g2) (died_candidates g1)) (set_game g2 w0)) in *.
  set (w3 := spawn_explosions_from_cooldowns w2) in *.
  assert (K : keeps (game w0) (game w3)).
  { eapply keeps_trans; [apply keeps_remove_sparks_outofbounds|]. fold g1.
    eapply keeps_trans; [apply keeps_group_update|]. fold g2.
    eapply keeps_trans; [|apply keeps_from_cooldowns].
    apply (keeps_deaths fi _ (set_game g2 w0)). }
  clearbody w3. clear w2 g2 g1. apply words_keeps in K.
  destruct (locked (game w3)) as [t|].
  - destruct (aget t (ships (game w3))) as [s|]; [|discriminate].
    injection H as <-. rsimpl. congruence.
  - injection H as <-. congruence.
Qed.

Lemma move_ships_health (ids : list nat) (w : World) :
  health (game (move_ships ids w)) <= health (game w).
Proof.
  revert w. induction ids as [|i r IH]; intros w; simpl; [lia|].
  destruct (aget i (ships (game w))) as [s|]; [|apply IH].
  match goal with |- context [if ?c then _ else _] => destruct c end.
  - match goal with |- context [if ?c then _ else _] => destruct c end;
      rsimpl; lia.
  - etransitivity; [apply IH|]. rsimpl. lia.
Qed.

Lemma update_gameplay_evolves (fi : FrameIn) (w w' : World) :
  update_gameplay fi w = Ok w' -> evolves (game w) (game w').
Proof.
  unfold update_gameplay. intros H.
  apply bind_Ok_inv in H as (w1 & H1 & H).
  pose proof (combat_advance_words _ _ H1) as W1.
  apply combat_advance_shape in H1 as (C1 & _).
  eapply evolves_trans; [apply (evolves_core C1 W1)|].
  unfold combat_resolve in H.
  destruct (match ship_ids (game w1) with [] => true | _ :: _ => false end
            && is_win_state w1).
  - destruct (updatestack (game w1)); [discriminate|].
    injection H as <-. repeat split; auto.
  - injection H as <-.
    pose proof (keeps_move_ships (ship_ids (game w1)) w1) as K.
    pose proof (move_ships_health (ship_ids (game w1)) w1) as Hh.
    split; [apply (config_keeps K)|]. split; [rewrite (level_keeps K); lia | lia].
Qed.

Lemma exit_intro_evolves (g g' : Gameplay) : exit_intro g = Ok g' -> evolves g g'.
Proof.
  unfold exit_intro. destruct (updatestack g); [discriminate|].
  intros H. injection H as <-. repeat split; auto.
Qed.

Lemma evolves_keeps (g g' : Gameplay) :
  keeps g g' -> health g' <= health g -> evolves g g'.
Proof.
  intros K H. split; [apply (config_keeps K)|].
  split; [rewrite (level_keeps K); lia | lia].
Qed.

Lemma health_core (g g' : Gameplay) : core g' = core g -> health g' = health g.
Proof.
  unfold core. intros C. injection C as _ _ _ _ _ H _ _ _ _ _ _ _. exact H.
Qed.

Lemma update_intro_evolves (fi : FrameIn) (w w' : World) :
  update_intro fi w = Ok w' -> evolves (game w) (game w').
Proof.
  unfold update_intro. intros H.
  pose proof (keeps_group_update (elapsed fi) (game w)) as K.
  pose proof (health_core (core_group_update (elapsed fi) (game w))) as Hh.
  set (g := group_update (elapsed fi) (game w)) in *. clearbody g.
  assert (E : evolves (game w) (set_ready_time (S (ready_time g)) g)).
  { apply evolves_keeps; [|rsimpl; lia].
    eapply keeps_trans; [exact K|]. repeat split; auto. }
  destruct (intro_over (ready_time (set_ready_time (S (ready_time g)) g))).
  - apply bind_Ok_inv in H as (g2 & H2 & H). injection H as <-.
    apply exit_intro_evolves in H2. rsimpl.
    eapply evolves_trans; [exact E | exact H2].
  - injection H as <-. exact E.
Qed.

Lemma reset_evolves (fi : FrameIn) (g g' : Gameplay) :
  reset fi g = Ok g' -> evolves g g'.
Proof.
  destruct g as [sp sa wb lv si pp pa hl gr pz us rt dm lvl mx lk tx sh bl so ex ni].
  unfold reset. rsimpl.
  destruct (nth_error lv lvl) as [[k p]|]; [|discriminate].
  unfold randomize.
  destruct (random_sample samples_sets (population (words wb) p) k (rnd_sample fi))
    as [s|];
    [|discriminate].
  cbn [bind]. rsimpl.
  destruct si; unfold exit_intro; rsimpl; intros H; injection H as <-;
    unfold evolves, config; rsimpl; cbn [words]; repeat split; auto; lia.
Qed.

Lemma enter_evolves (fi : FrameIn) (g g' : Gameplay) :
  enter fi g = Ok g' -> evolves g g'.
Proof.
  unfold enter. destruct (paused g).
  - intros H. injection H as <-. repeat split; auto.
  - intros H. apply bind_Ok_inv in H as (g1 & H1 & H). injection H as <-.
    apply reset_evolves in H1. destruct H1 as (A & B & C). repeat split; auto.
Qed.

Lemma check_win_state_evolves (fi : FrameIn) (w w' : World) :
  check_win_state fi w = Ok w' -> evolves (game w) (game w').
Proof.
  unfold check_win_state. intros H.
  apply bind_Ok_inv in H as (n & _ & H).
  destruct (Nat.eqb n 0 && is_win_state w); [|injection H as <-; apply evolves_refl].
  change (game (set_cooldowns (clear_explosions (cooldowns w)) w)) with (game w) in H.
  destruct (Nat.eqb (S (level (game w))) (List.length (levels (game w)))).
  - injection H as <-. apply evolves_refl.
  - apply bind_Ok_inv in H as (g' & Hg & H). injection H as <-. rsimpl.
    apply enter_evolves in Hg. destruct Hg as (A & B & C).
    rsimpl_in B. rsimpl_in C.
    split; [rewrite A; reflexivity|]. split; [lia | exact C].
Qed.

Lemma wait_evolves (fi : FrameIn) (w w' : World) :
  update_gameplay_wait_for_animations fi w = Ok w' -> evolves (game w) (game w').
Proof.
  unfold update_gameplay_wait_for_animations. intros H.
  apply check_win_state_evolves in H.
  eapply evolves_trans; [|exact H]. clear H.
  unfold wait_advance.
  set (g1 := group_update (elapsed fi) (game w)).
  set (g2 := remove_sparks_outofbounds g1).
  set (w2 := spawn_explosions_from_deaths fi
               (filter (not_alive g1) (died_candidates (game w))) (set_game g2 w)).
  apply evolves_keeps.
  - eapply keeps_trans; [apply keeps_group_update|]. fold g1.
    eapply keeps_trans; [apply keeps_remove_sparks_outofbounds|]. fold g2.
    eapply keeps_trans; [|apply keeps_from_cooldowns].
    apply (keeps_deaths fi _ (set_game g2 w)).
  - pose proof (untouched_cooldowns w2) as (A & _).
    pose proof (untouched_deaths fi
                  (filter (not_alive g1) (died_candidates (game w)))
                  (set_game g2 w)) as (B & _).
    fold w2 in B. rewrite (health_core A), (health_core B). rsimpl.
    unfold g2. rewrite (health_core (core_remove_sparks_outofbounds g1)).
    unfold g1. rewrite (health_core (core_group_update (elapsed fi) (game w))).
    lia.
Qed.

Lemma update_evolves (fi : FrameIn) (w w' : World) :
  update fi w = Ok w' -> evolves (game w) (game w').
Proof.
  unfold update. destruct (updatestack (game w)) as [|[| |] r]; [discriminate| | |].
  - apply update_intro_evolves.
  - apply update_gameplay_evolves.
  - apply wait_evolves.
Qed.

Lemma fire_evolves (letter : string) (w w' : World) :
  fire letter w = Ok w' -> evolves (game w) (game w') /\ stack w' = stack w.
Proof.
  destruct w as [cd g ev st].
  destruct g as [sp sa wb lv si pp pa hl gr pz us rt dm lvl mx lk tx sh bl so ex ni].
  unfold fire. rsimpl.
  match goal with
  | |- context [match lk with Some t => Some t | None => ?s end] =>
      generalize (match lk with Some t => Some t | None => s end)
  end.
  intros [t|]; [|intros H; injection H as <-; unfold evolves, config; rsimpl;
                  repeat split; auto].
  destruct (aget t tx) as [o|]; [|discriminate].
  destruct (text o) as [|c rest]; [discriminate|].
  destruct (String.eqb letter (String c EmptyString)).
  - destruct (group_has (Text t) gr); rsimpl; destruct rest;
      intros H; injection H as <-; unfold evolves, config; rsimpl;
      repeat split; auto.
  - destruct dm.
    + unfold hit_player. rsimpl. destruct (hl - 1 =? 0);
        intros H; injection H as <-; unfold evolves, config; rsimpl;
        repeat split; auto; lia.
    + intros H; injection H as <-; unfold evolves, config; rsimpl;
        repeat split; auto.
Qed.

Lemma handle_evolves (ev : event) (w w' : World) :
  handle ev w = Ok w' -> evolves (game w) (game w') /\ stack w' = stack w.
Proof.
  unfold handle. destruct ev as [| | |k u|hit|hit];
    try (intros H; injection H as <-; split; [apply evolves_refl | reflexivity]).
  unfold on_keydown. destruct k; try apply fire_evolves.
  intros H. injection H as <-. split; [|reflexivity]. repeat split; auto.
Qed.

Lemma scene_handle_evolves (ev : event) (w w' : World) :
  scene_handle ev w = Ok w' -> evolves (game w) (game w').
Proof.
  unfold scene_handle. destruct (stack w) as [|[|m] below]; [discriminate| |].
  - intros H. apply handle_evolves in H. apply H.
  - intros H. apply bind_Ok_inv in H as (r & Hr & H). injection H as <-.
    apply menu_handle_shape in Hr as (A & _). rsimpl. rewrite A. apply evolves_refl.
Qed.

Lemma handle_all_evolves (evs : list event) :
  forall w w', handle_all evs w = Ok w' -> evolves (game w) (game w').
Proof.
  induction evs as [|e r IH]; intros w w' H; cbn [handle_all] in H.
  - injection H as <-. apply evolves_refl.
  - apply bind_Ok_inv in H as (w1 & H1 & H).
    eapply evolves_trans; [apply (scene_handle_evolves _ _ H1) | apply (IH _ _ H)].
Qed.

Lemma frame_body_evolves (fi : FrameIn) (w w' : World) :
  frame_body fi w = Ok w' -> evolves (game w) (game w').
Proof.
  unfold frame_body. intros H. apply bind_Ok_inv in H as (w1 & H1 & H).
  apply handle_all_evolves in H1. rsimpl_in H1.
  eapply evolves_trans; [exact H1|].
  unfold scene_update in H. cbn [stack set_cooldowns] in H.
  destruct (stack w1) as [|[|m] below]; [discriminate| |].
  - apply update_evolves in H. exact H.
  - injection H as <-. apply evolves_refl.
Qed.

Lemma scene_enter_evolves (fi : FrameIn) (s : scene) (w : World) (r : scene * World) :
  scene_enter fi s w = Ok r -> evolves (game w) (game (snd r)).
Proof.
  unfold scene_enter. destruct s as [|m].
  - intros H. apply bind_Ok_inv in H as (g & Hg & H). injection H as <-.
    apply enter_evolves in Hg. exact Hg.
  - pose proof (select_first_button_shape m w) as (A & _).
    destruct (select_first_button m w) as [m' w']. intros H. injection H as <-.
    cbn [snd] in *. rewrite A. apply evolves_refl.
Qed.

Lemma sm_pop_evolves (fi : FrameIn) (w w' : World) :
  sm_pop fi w = Ok w' -> evolves (game w) (game w').
Proof.
  unfold sm_pop. destruct (stack w) as [|s [|top below]]; [discriminate| |].
  - intros H. injection H as <-. apply evolves_refl.
  - intros H. apply bind_Ok_inv in H as (r & Hr & H). injection H as <-.
    apply scene_enter_evolves in Hr. exact Hr.
Qed.

Lemma sm_push_evolves (fi : FrameIn) (s : scene) (w w' : World) :
  sm_push fi s w = Ok w' -> evolves (game w) (game w').
Proof.
  unfold sm_push. intros H. apply bind_Ok_inv in H as (r & Hr & H).
  injection H as <-. apply scene_enter_evolves in Hr. exact Hr.
Qed.

Lemma sm_dispatch_evolves (fi : FrameIn) (evs : list event) :
  forall w w', sm_dispatch fi evs w = Ok w' -> evolves (game w) (game w').
Proof.
  induction evs as [|e r IH]; intros w w' H; cbn [sm_dispatch] in H.
  - injection H as <-. apply evolves_refl.
  - destruct e; try (apply IH in H; exact H).
    + apply bind_Ok_inv in H as (w1 & H1 & H).
      eapply evolves_trans; [apply (sm_pop_evolves _ _ H1) | apply (IH _ _ H)].
    + apply bind_Ok_inv in H as (w1 & H1 & H).
      eapply evolves_trans; [apply (sm_push_evolves _ _ _ H1) | apply (IH _ _ H)].
Qed.

Lemma frame_evolves (fi : FrameIn) (w w' : World) :
  frame fi w = Ok (Some w') -> evolves (game w) (game w').
Proof.
  unfold frame. cbn [events set_events].
  destruct (existsb is_quit (events w ++ inputs fi)); [discriminate|].
  intros H. apply bind_Ok_inv in H as (w1 & H1 & H).
  unfold sm_update in H1. apply sm_dispatch_evolves in H1. rsimpl_in H1.
  destruct (stack w1); [discriminate|].
  apply bind_Ok_inv in H as (w2 & H2 & H).
  apply bind_Ok_inv in H as (d & _ & H). injection H as <-.
  apply frame_body_evolves in H2.
  eapply evolves_trans; eassumption.
Qed.

Lemma run_evolves (fis : list FrameIn) :
  forall w w', run fis w = Ok w' -> evolves (game w) (game w').
Proof.
  induction fis as [|fi r IH]; intros w w' H; cbn [run] in H.
  - injection H as <-. apply evolves_refl.
  - apply bind_Ok_inv in H as (o & Ho & H). destruct o as [w1|].
    + eapply evolves_trans; [apply (frame_evolves _ _ Ho) | apply (IH _ _ H)].
    + injection H as <-. apply evolves_refl.
Qed.

End Evolving.

(** ** The gameplay goes through its frames *)

Section Through.
Context {G : Geometry}.

(** X11: entering the gameplay, when every level can start.  A paused
    gameplay only loses the pause mark and is not reset, on every
    interpreter.  A gameplay that is not paused is reset first: where
    [random.sample] refuses a set (Python 3.11 and later) that raises
    [TypeError]; where it takes one the reset goes through, and what comes
    out is the reset gameplay without the pause mark.  It is sound: the
    sub-state stack is one the game uses, the level exists, a sample is drawn
    and nothing empty is locked.  The configuration and the level are as
    before. *)
Theorem gameplay_enter_outcome (fi : FrameIn) (g : Gameplay) :
  playable g ->
  arenas_ok g ->
  (level g < List.length (levels g))%nat ->
  (paused g = true -> sound g) ->
  (paused g = true ->
   enter fi g = Ok (set_paused false g) /\ sound (set_paused false g))
  /\ (paused g = false ->
      (samples_sets = false -> enter fi g = Raise TypeError)
      /\ (samples_sets = true ->
          exists g1,
            reset fi g = Ok g1
            /\ enter fi g = Ok (set_paused false g1)
            /\ sound (set_paused false g1)
            /\ config g1 = config g
            /\ level g1 = level g)).
Proof.
  intros P A L S. split.
  - intros Hp. unfold enter. rewrite Hp. split; [reflexivity|].
    destruct (S Hp) as (I1 & I2 & I3 & I4 & I5).
    unfold sound, arenas_ok in *. rsimpl. auto 10.
  - intros Hp. split.
    + intros Hs. unfold enter. rewrite Hp.
      destruct (nth_error (levels g) (level g)) as [[k p]|] eqn:E;
        [|apply nth_error_None in E; lia].
      rewrite (reset_refused fi g Hs E). reflexivity.
    + intros Hs.
      destruct (@reset_sound _ Hs fi g P A L) as (g1 & E & S1 & C1 & L1 & _).
      exists g1. split; [exact E|]. unfold enter. rewrite Hp, E.
      split; [reflexivity|]. split; [|split; assumption].
      destruct S1 as (I1 & I2 & I3 & I4 & I5).
      unfold sound, arenas_ok in *. rsimpl. auto 10.
Qed.

(** X12: where [random.sample] takes a set, no frame fails while the
    gameplay is the current scene, whatever the clock, the keys and the
    random draws: from a sound gameplay with a configuration every level of
    which can start, the input, cooldown and update steps of any number of
    frames go through and leave the gameplay sound, the configuration and the
    scene stack as they were and the level no lower. *)
Theorem gameplay_frames_never_raise (fis : list FrameIn) (w : World)
  (below : list scene) :
  samples_sets = true ->
  stack w = SGameplay :: below ->
  playable (game w) ->
  sound (game w) ->
  (forall fi, exists w1, frame_body fi w = Ok w1 /\ sound (game w1))
  /\ exists w',
      quiet_frames fis w = Ok w'
      /\ sound (game w')
      /\ config (game w') = config (game w)
      /\ (level (game w) <= level (game w'))%nat
      /\ stack w' = stack w.
Proof.
  intros Hsets St P Hs. split.
  - intros fi.
    destruct (@frame_body_sound _ Hsets fi w below St P Hs) as (w1 & E & S1 & _).
    eauto.
  - apply (@quiet_frames_sound _ Hsets fis w below St P Hs).
Qed.

Lemma is_plain_not_quit (evs : list event) :
  forallb is_plain evs = true -> existsb is_quit evs = false.
Proof.
  induction evs as [|e r IH]; simpl; [reflexivity|].
  intros H. apply andb_true_iff in H as [He Hr]. rewrite (IH Hr).
  destruct e; try discriminate; reflexivity.
Qed.

(** X13: the first frame of the program.  With the main menu skipped the
    gameplay is pushed and entered, which resets it.  Where [random.sample]
    takes a set, and with a vocabulary that lets every level start, the
    gameplay is entered, updated and drawn without error, and is the one
    scene of the stack.  Where [random.sample] refuses a set (Python 3.11
    and later) the frame raises [TypeError], whatever the vocabulary: the
    game does not start.  With the main menu, on every interpreter, the menu
    is the one scene of the stack, its first button, Play, is hovered, and
    the gameplay is untouched. *)
Theorem start_first_frame (skip_intro : bool) (ws : list string) (fi : FrameIn) :
  (samples_sets = true ->
   playable (game (start true skip_intro ws)) ->
   forallb is_plain (inputs fi) = true ->
   exists w',
     frame fi (start true skip_intro ws) = Ok (Some w')
     /\ stack w' = [SGameplay]
     /\ sound (game w')
     /\ config (game w') = config (game (start true skip_intro ws)))
  /\ (samples_sets = false ->
      existsb is_quit (inputs fi) = false ->
      frame fi (start true skip_intro ws) = Raise TypeError)
  /\ (inputs fi = [] ->
      frame fi (start false skip_intro ws)
      = Ok (Some (mkWorld [] (game (start false skip_intro ws)) []
                          [SMenu (mkMenu (items main_menu) (Some O))]))
      /\ nth_error (buttons main_menu) O = Some CbPushGameplay).
Proof.
  split; [|split].
  - intros Hsets P Hp. unfold frame.
    set (w := start true skip_intro ws) in *.
    assert (Ew : events w = [PUSHSTATE SGameplay]) by reflexivity.
    assert (Sw : stack w = []) by reflexivity.
    assert (Lw : level (game w) = O) by reflexivity.
    assert (Vw : levels (game w) = start_levels) by reflexivity.
    assert (Aw : arenas_ok (game w)) by (intros t Ht; exfalso; apply Ht; reflexivity).
    assert (Pw : paused (game w) = false) by reflexivity.
    clearbody w.
    cbn [events set_events]. rewrite Ew.
    assert (Q : existsb is_quit ([PUSHSTATE SGameplay] ++ inputs fi) = false).
    { cbn. apply is_plain_not_quit. exact Hp. }
    rewrite Q. unfold sm_update. cbn [events set_events app sm_dispatch].
    unfold sm_push, scene_enter. rsimpl.
    destruct (@enter_sound _ Hsets fi (game w) P Aw) as (g' & -> & S' & C' & L' & _).
    { rewrite Lw, Vw. cbn. lia. }
    { rewrite Pw. discriminate. }
    cbn [bind fst snd]. rsimpl. rewrite Sw.
    rewrite (sm_dispatch_plain fi _ _ Hp). cbn [bind].
    match goal with |- context [frame_body fi ?x] => set (w1 := x) end.
    assert (St1 : stack w1 = [SGameplay]) by reflexivity.
    assert (G1 : game w1 = g') by reflexivity.
    clearbody w1. rewrite St1.
    destruct (@frame_body_sound _ Hsets fi w1 [] St1) as (w' & -> & S2 & C2 & _ & St2).
    + rewrite G1. apply (@playable_config _ (game w)); [exact C' | exact P].
    + rewrite G1. exact S'.
    + cbn [bind]. unfold scene_draw. rewrite St2, St1. cbn [bind].
      exists w'. split; [reflexivity|]. split; [congruence|].
      split; [exact S2 | congruence].
  - intros Hsets Hq. unfold frame.
    set (w := start true skip_intro ws) in *.
    assert (Ew : events w = [PUSHSTATE SGameplay]) by reflexivity.
    assert (Pw : paused (game w) = false) by reflexivity.
    assert (Lw : exists k p,
                 nth_error (levels (game w)) (level (game w)) = Some (k, p))
      by (eexists; eexists; reflexivity).
    destruct Lw as (k & p & Lw).
    clearbody w.
    cbn [events set_events]. rewrite Ew.
    change (existsb is_quit ([PUSHSTATE SGameplay] ++ inputs fi))
      with (existsb is_quit (inputs fi)).
    rewrite Hq. unfold sm_update. cbn [events set_events app sm_dispatch].
    unfold sm_push, scene_enter, enter. rsimpl. rewrite Pw.
    rewrite (reset_refused fi (game w) Hsets Lw).
    reflexivity.
  - intros Hi. split; [|reflexivity].
    unfold frame. rewrite Hi. reflexivity.
Qed.

End Through.

Section Kept.
Context {G : Geometry}.

(** X14: whatever the frames and their input, and whatever scenes come and
    go, a run of the engine loop that goes through leaves the configuration
    of the gameplay as it was: the play area, the spawn area, the levels, the
    intro switch, the player's place, the miss rule and the vocabulary.  The
    level never goes down, not even when the game is restarted from a menu,
    and a health of at most 3 stays at most 3. *)
Theorem run_keeps_configuration (fis : list FrameIn) (w w' : World) :
  run fis w = Ok w' ->
  config (game w') = config (game w)
  /\ (level (game w) <= level (game w'))%nat
  /\ (health (game w) <= 3 -> health (game w') <= 3).
Proof. intros H. apply (run_evolves _ _ H). Qed.

End Kept.

(** ** Collisions, the sweep of the sparks and random placement *)

Section Collision.
Context {G : Geometry}.

Lemma move_ships_collision (ids : list nat) (w : World) :
  (health (game (move_ships ids w)) = health (game w)
   /\ cd_get KPlayerHit (cooldowns (move_ships ids w)) = cd_get KPlayerHit (cooldowns w)
   /\ events (move_ships ids w) = events w)
  \/ (cd_get KPlayerHit (cooldowns w) <= 0
      /\ health (game (move_ships ids w)) = health (game w) - 1
      /\ cd_get KPlayerHit (cooldowns (move_ships ids w)) = 1000
      /\ ((health (game (move_ships ids w)) <> 0
           /\ events (move_ships ids w) = events w)
          \/ (health (game (move_ships ids w)) = 0
              /\ events (move_ships ids w)
                 = events w ++ [PUSHSTATE (SMenu died_menu)]))).
Proof.
  revert w. induction ids as [|i r IH]; intros w; cbn [move_ships]; [left; auto|].
  destruct (aget i (ships (game w))) as [s|]; [|apply IH].
  destruct (cd_get KPlayerHit (cooldowns w) <=? 0) eqn:Ec; cbn [andb].
  - match goal with |- context [if colliderect ?a ?b then _ else _] =>
      destruct (colliderect a b) end.
    + right. apply Z.leb_le in Ec. split; [exact Ec|]. rsimpl.
      destruct (health (game w) - 1 =? 0) eqn:Eh; rsimpl;
        rewrite cd_get_set_same; repeat split; auto.
      * right. apply Z.eqb_eq in Eh. auto.
      * left. apply Z.eqb_neq in Eh. auto.
    + specialize (IH (set_game
                        (set_ships
                           (aset i (mkShip (step_toward (position s)
                                                        (player_position (game w)))
                                           (degrees_to (position s)
                                                       (player_position (game w))))
                                 (ships (game w))) (game w)) w)).
      rsimpl_in IH. exact IH.
  - specialize (IH (set_game
                      (set_ships
                         (aset i (mkShip (step_toward (position s)
                                                      (player_position (game w)))
                                         (degrees_to (position s)
                                                     (player_position (game w))))
                               (ships (game w))) (game w)) w)).
    rsimpl_in IH. exact IH.
Qed.

(** X15: a combat tick takes at most one health point, and only when the
    player-hit timer has run out; it then sets that timer to 1000, so that
    the ticks that follow while the timer is pending take none.  When the
    point taken was the last, the death menu is asked for; nothing else is
    posted by a combat tick. *)
Theorem update_gameplay_collision (fi : FrameIn) (w w' : World) :
  update_gameplay fi w = Ok w' ->
  (health (game w') = health (game w)
   /\ cd_get KPlayerHit (cooldowns w') = cd_get KPlayerHit (cooldowns w)
   /\ events w' = events w)
  \/ (cd_get KPlayerHit (cooldowns w) <= 0
      /\ health (game w') = health (game w) - 1
      /\ cd_get KPlayerHit (cooldowns w') = 1000
      /\ ((health (game w') <> 0 /\ events w' = events w)
          \/ (health (game w') = 0
              /\ events w' = events w ++ [PUSHSTATE (SMenu died_menu)]))).
Proof.
  unfold update_gameplay. intros H.
  apply bind_Ok_inv in H as (w1 & H1 & H).
  apply combat_advance_shape in H1 as (C & E & _ & P).
  apply health_core in C. rewrite <- C, <- E, <- P. clear C E P.
  unfold combat_resolve in H.
  destruct (match ship_ids (game w1) with [] => true | _ :: _ => false end
            && is_win_state w1).
  - destruct (updatestack (game w1)); [discriminate|].
    injection H as <-. left. auto.
  - injection H as <-. apply move_ships_collision.
Qed.

Lemma filter_filter (A : Type) (p q : A -> bool) (l : list A) :
  filter p (filter q l) = filter (fun x => q x && p x) l.
Proof.
  induction l as [|x r IH]; simpl; [reflexivity|].
  destruct (q x); simpl; [destruct (p x)|]; now rewrite IH.
Qed.

Lemma filter_all (A : Type) (p : A -> bool) (l : list A) :
  (forall x, p x = true) -> filter p l = l.
Proof.
  intros H. induction l as [|x r IH]; simpl; [reflexivity|].
  rewrite H, IH. reflexivity.
Qed.

Lemma sprite_eqb_sym (a b : sprite) : sprite_eqb a b = sprite_eqb b a.
Proof. destruct a, b; simpl; auto using Nat.eqb_sym. Qed.

Lemma sweep_fold (g : Gameplay) (l : list sprite) :
  forall acc,
    space acc = space g -> sparkobjs acc = sparkobjs g ->
    group (fold_left sweep_step l acc)
    = filter (fun s => in_bounds g s || negb (existsb (sprite_eqb s) l)) (group acc)
    /\ sparkobjs (fold_left sweep_step l acc) = sparkobjs g
    /\ (forall k, In k (pending_sparks (fold_left sweep_step l acc)) ->
                  In k (pending_sparks acc)
                  /\ (In (SparkS k) l -> in_bounds g (SparkS k) = true)).
Proof.
  induction l as [|x r IH]; intros acc Hsp Hso; cbn [fold_left].
  - split; [|split; [exact Hso | intros k Hk; split; [exact Hk | intros []]]].
    rewrite filter_all; [reflexivity|]. intros a. cbn. apply orb_true_r.
  - assert (Keep : forall acc',
               space acc' = space g -> sparkobjs acc' = sparkobjs g ->
               group acc' = filter (fun s => in_bounds g x || negb (sprite_eqb x s))
                                   (group acc) ->
               (forall k, In k (pending_sparks acc') ->
                          In k (pending_sparks acc)
                          /\ (SparkS k = x -> in_bounds g x = true)) ->
               group (fold_left sweep_step r acc')
               = filter (fun s => in_bounds g s
                                  || negb (existsb (sprite_eqb s) (x :: r)))
                        (group acc)
               /\ sparkobjs (fold_left sweep_step r acc') = sparkobjs g
               /\ (forall k, In k (pending_sparks (fold_left sweep_step r acc')) ->
                             In k (pending_sparks acc)
                             /\ (In (SparkS k) (x :: r) ->
                                 in_bounds g (SparkS k) = true))).
    { intros acc' A B C D. destruct (IH acc' A B) as (I1 & I2 & I3).
      split; [|split; [exact I2|]].
      - rewrite I1, C, filter_filter. apply filter_ext. intros s.
        cbn [existsb]. destruct (sprite_eqb s x) eqn:E.
        + apply sprite_eqb_eq in E. subst s.
          assert (X : sprite_eqb x x = true) by now apply sprite_eqb_eq.
          rewrite X. cbn. destruct (in_bounds g x); reflexivity.
        + rewrite sprite_eqb_sym, E. cbn. now rewrite orb_true_r.
      - intros k Hk. destruct (I3 k Hk) as [J1 J2]. destruct (D k J1) as [D1 D2].
        split; [exact D1|].
        intros [E | Hr]; [rewrite <- E; apply D2; now rewrite E | apply J2; exact Hr]. }
    assert (Same : group acc
                   = filter (fun s => true || negb (sprite_eqb x s)) (group acc)).
    { rewrite filter_all; reflexivity. }
    destruct x as [| | | | |k];
      try (apply Keep;
           [exact Hsp | exact Hso | exact Same
           | intros j Hj; split; [exact Hj | discriminate]]).
    assert (Ea : sweep_step acc (SparkS k)
                 = match aget k (sparkobjs g) with
                   | Some o => if contains (space g) (spark_rect o) then acc
                               else kill_spark k acc
                   | None => acc
                   end)
      by (unfold sweep_step; rewrite Hso, Hsp; reflexivity).
    rewrite Ea. clear Ea.
    destruct (aget k (sparkobjs g)) as [o|] eqn:Eo.
    + destruct (contains (space g) (spark_rect o)) eqn:Ec.
      * apply Keep; auto.
        -- cbn [in_bounds]. rewrite Eo, Ec. exact Same.
        -- intros j Hj. split; [exact Hj|]. intros _. cbn [in_bounds].
           now rewrite Eo, Ec.
      * apply Keep; auto.
        -- cbn [in_bounds]. rewrite Eo, Ec. reflexivity.
        -- intros j Hj. unfold pending_sparks, kill_spark in Hj. rsimpl_in Hj.
           apply in_flat_map in Hj as (e & He & Hj).
           apply in_map_iff in He as (e0 & <- & He0). cbn [snd sparks] in Hj.
           apply filter_In in Hj as [Hj Hne]. split.
           ++ unfold pending_sparks. apply in_flat_map. eauto.
           ++ intros X. injection X as ->. rewrite Nat.eqb_refl in Hne. discriminate.
    + apply Keep; auto.
      * cbn [in_bounds]. rewrite Eo. exact Same.
      * intros j Hj. split; [exact Hj|]. intros _. cbn [in_bounds]. now rewrite Eo.
Qed.

(** X16: [remove_sparks_outofbounds] takes out of the group exactly the
    sparks whose rect the play area does not contain, and leaves every other
    sprite in its place.  A spark taken out also leaves the group of its
    explosion, so that the explosion cannot put it back. *)
Theorem remove_sparks_outofbounds_sweeps (g : Gameplay) :
  group (remove_sparks_outofbounds g) = filter (in_bounds g) (group g)
  /\ sparkobjs (remove_sparks_outofbounds g) = sparkobjs g
  /\ (forall k, In (SparkS k) (group g) ->
                in_bounds g (SparkS k) = false ->
                ~ In k (pending_sparks (remove_sparks_outofbounds g)))
  /\ (forall k, In k (pending_sparks (remove_sparks_outofbounds g)) ->
                In k (pending_sparks g)).
Proof.
  change (remove_sparks_outofbounds g) with (fold_left sweep_step (group g) g).
  destruct (sweep_fold g (group g) g eq_refl eq_refl) as (A & B & C).
  split; [|split; [exact B|split]].
  - rewrite A. apply filter_ext_in. intros s Hs.
    assert (X : existsb (sprite_eqb s) (group g) = true).
    { apply existsb_exists. exists s. split; [exact Hs | now apply sprite_eqb_eq]. }
    rewrite X. cbn. apply orb_false_r.
  - intros k Hk Hb Hin. destruct (C k Hin) as [_ D]. rewrite (D Hk) in Hb.
    discriminate.
  - intros k Hk. apply (C k Hk).
Qed.

End Collision.

(** ** Random placement *)

Lemma random_location_from_spec (inside a : Rect) (avoiding : list Rect)
  (limit : option nat) (rect0 r : Rect) (draws : list (Z * Z)) :
  forall count rect,
    width rect = width rect0 -> height rect = height rect0 ->
    random_location_from count rect inside (a :: avoiding) limit draws = Ok r ->
    width r = width rect0 /\ height r = height rect0
    /\ (limit = None ->
        existsb (colliderect r) (a :: avoiding) = false
        /\ exists cx cy,
            left inside <= cx <= right inside
            /\ top inside <= cy <= bottom inside
            /\ r = clamp (set_center rect0 (cx, cy)) inside).
Proof.
  induction draws as [|[rx ry] ds IH]; intros count rect Hw Hh H;
    cbn [random_location_from] in H.
  - destruct limit as [l|].
    + destruct (Nat.leb l count); [|discriminate].
      injection H as <-. repeat split; auto; discriminate.
    + discriminate.
  - destruct (match limit with Some l => Nat.leb l count | None => false end) eqn:El.
    + injection H as <-. split; [exact Hw|]. split; [exact Hh|].
      intros ->. discriminate.
    + apply bind_Ok_inv in H as (cx & Hx & H).
      apply bind_Ok_inv in H as (cy & Hy & H).
      apply randint_range in Hx, Hy.
      assert (Es : set_center rect (cx, cy) = set_center rect0 (cx, cy))
        by (unfold set_center; now rewrite Hw, Hh).
      rewrite Es in H.
      destruct (existsb (colliderect (clamp (set_center rect0 (cx, cy)) inside))
                        (a :: avoiding)) eqn:Ec.
      * apply IH in H; [exact H | reflexivity | reflexivity].
      * injection H as <-. split; [reflexivity|]. split; [reflexivity|].
        intros _. split; [exact Ec|]. exists cx, cy. auto.
Qed.

(** X17: given rects to avoid, and no limit, [random_location] returns the
    rect, with its size, centred on a point drawn in the zone and clamped
    into the zone, and colliding with none of the rects to avoid: it draws
    again as long as the place collides.  With a limit of 0 it returns the
    rect where it is, without drawing. *)
Theorem random_location_avoids (rect inside a : Rect) (avoiding : list Rect)
  (draws : list (Z * Z)) (r : Rect) :
  random_location rect inside (a :: avoiding) None draws = Ok r ->
  width r = width rect /\ height r = height rect
  /\ existsb (colliderect r) (a :: avoiding) = false
  /\ (exists cx cy,
         left inside <= cx <= right inside
         /\ top inside <= cy <= bottom inside
         /\ r = clamp (set_center rect (cx, cy)) inside)
  /\ random_location rect inside (a :: avoiding) (Some O) draws = Ok rect.
Proof.
  unfold random_location. intros H.
  apply (@random_location_from_spec inside a avoiding None rect r draws O rect
           eq_refl eq_refl) in H.
  destruct H as (A & B & C). destruct (C eq_refl) as (D & E).
  repeat split; auto. destruct draws; reflexivity.
Qed.

(** X17 at a rect of 10 by 10 placed in a zone of 100 by 100 while avoiding
    its upper left quarter: the first place drawn collides, the second is
    taken. *)
Lemma random_location_avoids_witness :
  random_location (mkRect 0 0 10 10) (mkRect 0 0 100 100) [mkRect 0 0 50 50] None
    [(10, 10); (80, 80)] = Ok (mkRect 75 75 10 10)
  /\ colliderect (mkRect 75 75 10 10) (mkRect 0 0 50 50) = false.
Proof.
  assert (H : random_location (mkRect 0 0 10 10) (mkRect 0 0 100 100)
                [mkRect 0 0 50 50] None [(10, 10); (80, 80)]
              = Ok (mkRect 75 75 10 10)) by reflexivity.
  split; [exact H|].
  destruct (random_location_avoids _ _ _ _ _ H) as (_ & _ & C & _).
  cbn [existsb] in C. apply orb_false_iff in C. apply C.
Defined.

(** ** Leaving and restarting from a menu *)

Section Menus.
Context {G : Geometry}.

Lemma sm_pop_to_paused (fi : FrameIn) (w : World) (s : scene) (below : list scene) :
  stack w = s :: SGameplay :: below ->
  paused (game w) = true ->
  sm_pop fi w
  = Ok (mkWorld (cooldowns w) (set_paused false (game w)) (events w)
                (SGameplay :: below)).
Proof.
  intros St Pz. unfold sm_pop, scene_enter, enter. rewrite St, Pz. reflexivity.
Qed.

Lemma sm_pop_last (fi : FrameIn) (w : World) (s : scene) :
  stack w = [s] -> sm_pop fi w = Ok (set_stack [] w).
Proof. intros St. unfold sm_pop. rewrite St. reflexivity. Qed.

Lemma sm_pop_to_menu (fi : FrameIn) (w : World) (s : scene) (mm : MenuState)
  (rest : list scene) :
  stack w = s :: SMenu mm :: rest ->
  buttons mm <> [] ->
  sm_pop fi w
  = Ok (mkWorld (cooldowns w) (game w) (events w ++ [MOUSEMOTION (Some O)])
                (SMenu (mkMenu (items mm) (Some O)) :: rest)).
Proof.
  intros St Hb. unfold sm_pop, scene_enter, select_first_button. rewrite St.
  destruct (buttons mm); [contradiction|]. reflexivity.
Qed.

(** X18: the Main menu button of the pause menu posts two pops.  The first
    goes back to the paused gameplay, which only loses its pause mark; the
    second leaves it.  The gameplay is otherwise as it was when it was
    paused, and the cooldowns are as they were.  What was below the gameplay
    is current again: a menu, with its first button hovered, or nothing, and
    then the engine loop ends at once. *)
Theorem back_to_mainmenu_leaves (fi : FrameIn) (w : World) (m : MenuState)
  (below : list scene) :
  stack w = SMenu m :: SGameplay :: below ->
  paused (game w) = true ->
  events w = [] ->
  events (do_callback CbBackToMainmenu w) = [POPSTATE; POPSTATE]
  /\ (below = [] ->
      sm_update fi (do_callback CbBackToMainmenu w)
      = Ok (mkWorld (cooldowns w) (set_paused false (game w)) [] [])
      /\ (inputs fi = [] -> frame fi (do_callback CbBackToMainmenu w) = Ok None))
  /\ (forall mm rest,
        below = SMenu mm :: rest ->
        buttons mm <> [] ->
        sm_update fi (do_callback CbBackToMainmenu w)
        = Ok (mkWorld (cooldowns w) (set_paused false (game w))
                      [MOUSEMOTION (Some O)]
                      (SMenu (mkMenu (items mm) (Some O)) :: rest))).
Proof.
  intros St Pz Ev.
  assert (E : events (do_callback CbBackToMainmenu w) = [POPSTATE; POPSTATE])
    by (cbn; rewrite Ev; reflexivity).
  split; [exact E|].
  assert (P1 : sm_pop fi (set_events [] (do_callback CbBackToMainmenu w))
               = Ok (mkWorld (cooldowns w) (set_paused false (game w)) []
                             (SGameplay :: below))).
  { rewrite (@sm_pop_to_paused fi _ (SMenu m) below); [reflexivity | exact St | exact Pz]. }
  split.
  - intros ->.
    assert (U : sm_update fi (do_callback CbBackToMainmenu w)
                = Ok (mkWorld (cooldowns w) (set_paused false (game w)) [] [])).
    { unfold sm_update. rewrite E. cbn [sm_dispatch]. rewrite P1. cbn [bind].
      rewrite (@sm_pop_last fi _ SGameplay); reflexivity. }
    split; [exact U|]. intros Hi. unfold frame. rewrite Hi, app_nil_r, E.
    replace (set_events [POPSTATE; POPSTATE] (do_callback CbBackToMainmenu w))
      with (do_callback CbBackToMainmenu w)
      by (destruct w; cbn in *; subst; reflexivity).
    rewrite E. cbn [existsb is_quit orb]. rewrite U. reflexivity.
  - intros mm rest -> Hb. unfold sm_update. rewrite E. cbn [sm_dispatch].
    rewrite P1. cbn [bind].
    rewrite (@sm_pop_to_menu fi _ SGameplay mm rest); [reflexivity | reflexivity | exact Hb].
Qed.

Lemma reset_fresh (fi : FrameIn) (g g' : Gameplay) :
  reset fi g = Ok g' ->
  health g' = 3 /\ locked g' = None /\ level g' = level g
  /\ paused g' = paused g
  /\ (group g' = [Player] \/ group g' = [Player; Ready]).
Proof.
  destruct g as [sp sa wb lv si pp pa hl gr pz us rt dm lvl mx lk tx sh bl so ex ni].
  unfold reset. rsimpl.
  destruct (nth_error lv lvl) as [[k p]|]; [|discriminate].
  unfold randomize.
  destruct (random_sample samples_sets (population (words wb) p) k (rnd_sample fi))
    as [s|];
    [|discriminate].
  cbn [bind]. rsimpl.
  destruct si; unfold exit_intro; rsimpl; intros H; injection H as <-; rsimpl;
    repeat split; auto.
Qed.

(** X19: the Restart button of the death menu and of the win menu posts one
    pop.  The menu is left and the gameplay below it, which is not paused, is
    entered again and reset: the health is 3 and nothing is locked, in the
    level that was being played, not the first one, and the cooldowns are not
    cleared.  An error of [reset] is an error of the restart. *)
Theorem restart_resets_level (fi : FrameIn) (w : World) (m : MenuState)
  (below : list scene) :
  stack w = SMenu m :: SGameplay :: below ->
  paused (game w) = false ->
  events w = [] ->
  events (do_callback CbPopstate w) = [POPSTATE]
  /\ (forall e, reset fi (game w) = Raise e ->
                sm_update fi (do_callback CbPopstate w) = Raise e)
  /\ (forall g', reset fi (game w) = Ok g' ->
        sm_update fi (do_callback CbPopstate w)
        = Ok (mkWorld (cooldowns w) (set_paused false g') [] (SGameplay :: below))
        /\ health g' = 3
        /\ locked g' = None
        /\ level g' = level (game w)
        /\ (group g' = [Player] \/ group g' = [Player; Ready])).
Proof.
  intros St Pz Ev.
  assert (E : events (do_callback CbPopstate w) = [POPSTATE])
    by (cbn; rewrite Ev; reflexivity).
  split; [exact E|].
  assert (U : sm_update fi (do_callback CbPopstate w)
              = (g' <- reset fi (game w) ;;
                 Ok (mkWorld (cooldowns w) (set_paused false g') []
                             (SGameplay :: below)))).
  { unfold sm_update. rewrite E. cbn [sm_dispatch].
    unfold sm_pop, scene_enter, enter. cbn [stack set_events do_callback post game].
    rewrite St, Pz. destruct (reset fi (game w)); reflexivity. }
  split.
  - intros e He. rewrite U, He. reflexivity.
  - intros g' Hg. rewrite U, Hg. split; [reflexivity|].
    apply reset_fresh in Hg as (A & B & C & _ & D). auto.
Qed.

End Menus.

(** ** The levels of the game *)

Lemma haspunctuation_spec (word : string) :
  haspunctuation word = true
  <-> exists c, In c (list_ascii_of_string word) /\ is_punctuation c = true.
Proof. unfold haspunctuation. apply existsb_exists. Qed.

(** X20: the words of the five levels.  A level takes no word with a
    punctuation character and no word of fewer than two characters.  The
    first three levels take words of at most four characters, of at least
    two, three and four characters; the last two take words of at least five
    and eight characters.  So every word of a level but the first and the
    fourth is a word of the level before it.  The levels ask for 5, 10, 15,
    20 and 20 words. *)
Theorem start_levels_words (i : nat) (k : Z) (p : string -> bool) (word : string) :
  nth_error start_levels i = Some (k, p) ->
  (p word = true <->
   haspunctuation word = false
   /\ match i with
      | 0 => 2 <= String.length word <= 4
      | 1 => 3 <= String.length word <= 4
      | 2 => String.length word = 4
      | 3 => 5 <= String.length word
      | _ => 8 <= String.length word
      end)%nat
  /\ nth_error [5; 10; 15; 20; 20] i = Some k
  /\ (p word = true -> (2 <= String.length word)%nat)
  /\ (i <> O -> i <> 3%nat ->
      p word = true ->
      exists k' p', nth_error start_levels (pred i) = Some (k', p')
                    /\ p' word = true).
Proof.
  intros H.
  destruct i as [|[|[|[|[|i]]]]]; cbn [nth_error start_levels] in H;
    try (destruct i; discriminate H); injection H as <- <-; cbv beta; cbn [pred nth_error];
    rewrite ?andb_true_iff, ?negb_true_iff, ?Z.ltb_lt;
    (split; [split; [intros; split; [tauto | lia] | intros; repeat split; try tauto; lia]|]);
    (split; [reflexivity|]); (split; [intros; lia|]);
    intros H0 H3 Hp; try contradiction;
    eexists _, _; (split; [reflexivity|]); cbv beta;
    rewrite ?andb_true_iff, ?negb_true_iff, ?Z.ltb_lt; repeat split; try tauto; lia.
Qed.

(** ** Misses *)

Section Misses.
Context {G : Geometry}.

Lemma fire_harmless (letter : string) (w w' : World) :
  damage_on_miss (game w) = false ->
  fire letter w = Ok w' ->
  health (game w') = health (game w)
  /\ paused (game w') = paused (game w)
  /\ events w' = events w
  /\ cooldowns w' = cooldowns w.
Proof.
  destruct w as [cd g ev st].
  destruct g as [sp sa wb lv si pp pa hl gr pz us rt dm lvl mx lk tx sh bl so ex ni].
  rsimpl. intros ->. unfold fire. rsimpl.
  match goal with
  | |- context [match lk with Some t => Some t | None => ?s end] =>
      generalize (match lk with Some t => Some t | None => s end)
  end.
  intros [t|]; [|intros H; injection H as <-; rsimpl; repeat split; auto].
  destruct (aget t tx) as [o|]; [|discriminate].
  destruct (text o) as [|c rest]; [discriminate|].
  destruct (String.eqb letter (String c EmptyString)).
  - destruct (group_has (Text t) gr); rsimpl; destruct rest;
      intros H; injection H as <-; rsimpl; repeat split; auto.
  - intros H; injection H as <-; rsimpl; repeat split; auto.
Qed.

(** X21: in a game set up by [start], misses never do damage: however the
    engine loop has run, the miss rule is off, and a keystroke handled by the
    gameplay changes neither the health nor the pause mark, posts no event,
    so that the game-over menu of [hit_player] is never asked for, and
    touches no cooldown. *)
Theorem typing_never_costs_health (skip_mainmenu skip_intro : bool) (ws : list string)
  (fis : list FrameIn) (w w' : World) (letter : string) :
  run fis (start skip_mainmenu skip_intro ws) = Ok w ->
  fire letter w = Ok w' ->
  damage_on_miss (game w) = false
  /\ health (game w') = health (game w)
  /\ paused (game w') = paused (game w)
  /\ events w' = events w
  /\ cooldowns w' = cooldowns w.
Proof.
  intros R F. apply run_evolves in R as (C & _).
  assert (D : damage_on_miss (game w) = false).
  { unfold config in C. injection C as _ _ _ _ _ D _. exact D. }
  split; [exact D|]. apply (fire_harmless _ _ D F).
Qed.

End Misses.

(** ** The pace of the spawns *)

Section Pace.
Context {G : Geometry}.

Lemma cd_get_tick (e : Z) (cd : Cooldowns) (k : ckey) :
  cd_get k (tick e cd) = tick1 e (cd_get k cd).
Proof.
  unfold cd_get. rewrite cd_find_tick.
  destruct (cd_find k cd); [reflexivity|]. unfold tick1. reflexivity.
Qed.

Lemma fire_pool (letter : string) (w w' : World) :
  fire letter w = Ok w' ->
  wordbag (game w') = wordbag (game w)
  /\ level (game w') = level (game w)
  /\ cooldowns w' = cooldowns w
  /\ stack w' = stack w.
Proof.
  destruct w as [cd g ev st].
  destruct g as [sp sa wb lv si pp pa hl gr pz us rt dm lvl mx lk tx sh bl so ex ni].
  unfold fire. rsimpl.
  match goal with
  | |- context [match lk with Some t => Some t | None => ?s end] =>
      generalize (match lk with Some t => Some t | None => s end)
  end.
  intros [t|]; [|intros H; injection H as <-; rsimpl; repeat split; auto].
  destruct (aget t tx) as [o|]; [|discriminate].
  destruct (text o) as [|c rest]; [discriminate|].
  destruct (String.eqb letter (String c EmptyString)).
  - destruct (group_has (Text t) gr); rsimpl; destruct rest;
      intros H; injection H as <-; rsimpl; repeat split; auto.
  - destruct dm.
    + unfold hit_player. rsimpl. destruct (hl - 1 =? 0);
        intros H; injection H as <-; rsimpl; repeat split; auto.
    + intros H; injection H as <-; rsimpl; repeat split; auto.
Qed.

Lemma handle_all_pool (evs : list event) :
  forall (w w' : World) (below : list scene),
    stack w = SGameplay :: below ->
    handle_all evs w = Ok w' ->
    wordbag (game w') = wordbag (game w)
    /\ level (game w') = level (game w)
    /\ cooldowns w' = cooldowns w
    /\ stack w' = stack w.
Proof.
  induction evs as [|e r IH]; intros w w' below St H; cbn [handle_all] in H.
  - injection H as <-. auto.
  - apply bind_Ok_inv in H as (w1 & H1 & H).
    assert (X : wordbag (game w1) = wordbag (game w)
                /\ level (game w1) = level (game w)
                /\ cooldowns w1 = cooldowns w /\ stack w1 = stack w).
    { unfold scene_handle in H1. rewrite St in H1. unfold handle in H1.
      destruct e as [| | |k u|hit|hit]; try (injection H1 as <-; auto).
      unfold on_keydown in H1. destruct k; try (apply fire_pool in H1; exact H1).
      injection H1 as <-. auto. }
    destruct X as (A & B & C & D).
    destruct (IH w1 w' below) as (A' & B' & C' & D'); [congruence | exact H |].
    repeat split; congruence.
Qed.

Lemma wordbag_keeps (g g' : Gameplay) : keeps g g' -> wordbag g' = wordbag g.
Proof.
  intros (B & _). unfold backbone in B. injection B as _ _ W _ _ _ _ _ _ _ _.
  exact W.
Qed.

Lemma move_ships_spawn_timer (ids : list nat) (w : World) :
  cd_get KSpawnWord (cooldowns (move_ships ids w)) = cd_get KSpawnWord (cooldowns w).
Proof.
  revert w. induction ids as [|i r IH]; intros w; cbn [move_ships]; [reflexivity|].
  destruct (aget i (ships (game w))) as [s|]; [|apply IH].
  match goal with |- context [if ?c then _ else _] => destruct c end.
  - match goal with |- context [if ?c then _ else _] => destruct c end;
      rsimpl; apply cd_get_set_other; discriminate.
  - rewrite IH. reflexivity.
Qed.

(** an update of the gameplay while the spawn timer is pending draws no
    word, leaves the level and leaves the spawn timer *)
Lemma update_waits (fi : FrameIn) (w w' : World) :
  0 < cd_get KSpawnWord (cooldowns w) ->
  update fi w = Ok w' ->
  wordbag (game w') = wordbag (game w)
  /\ level (game w') = level (game w)
  /\ cd_get KSpawnWord (cooldowns w') = cd_get KSpawnWord (cooldowns w)
  /\ stack w' = stack w.
Proof.
  intros Hc H. unfold update in H.
  destruct (updatestack (game w)) as [|[| |] r]; [discriminate| | |].
  - unfold update_intro in H.
    pose proof (keeps_group_update (elapsed fi) (game w)) as K.
    set (g := group_update (elapsed fi) (game w)) in *. clearbody g.
    destruct (intro_over (ready_time (set_ready_time (S (ready_time g)) g))).
    + apply bind_Ok_inv in H as (g2 & H2 & H). injection H as <-.
      unfold exit_intro in H2. rsimpl_in H2.
      destruct (updatestack g); [discriminate|]. injection H2 as <-. rsimpl.
      rewrite (wordbag_keeps K), (level_keeps K). auto.
    + injection H as <-. rsimpl.
      rewrite (wordbag_keeps K), (level_keeps K). auto.
  - unfold update_gameplay in H. apply bind_Ok_inv in H as (w1 & H1 & H).
    assert (A : wordbag (game w1) = wordbag (game w)
                /\ level (game w1) = level (game w)
                /\ cd_get KSpawnWord (cooldowns w1) = cd_get KSpawnWord (cooldowns w)
                /\ stack w1 = stack w).
    { unfold combat_advance, maybe_spawn in H1.
      assert (N : needs_word_spawn w = false).
      { unfold needs_word_spawn. destruct (Z.leb_spec (cd_get KSpawnWord (cooldowns w)) 0);
          [lia | apply andb_false_r]. }
      rewrite N in H1. cbn [bind] in H1.
      set (g1 := remove_sparks_outofbounds (game w)) in *.
      set (g2 := group_update (elapsed fi) g1) in *.
      set (w2 := spawn_explosions_from_deaths fi
                   (filter (not_alive g2) (died_candidates g1)) (set_game g2 w)) in *.
      set (w3 := spawn_explosions_from_cooldowns w2) in *.
      assert (K : keeps (game w) (game w3)).
      { eapply keeps_trans; [apply keeps_remove_sparks_outofbounds|]. fold g1.
        eapply keeps_trans; [apply keeps_group_update|]. fold g2.
        eapply keeps_trans; [|apply keeps_from_cooldowns].
        apply (keeps_deaths fi _ (set_game g2 w)). }
      assert (U : untouched (set_game g2 w) w3).
      { eapply untouched_trans; [apply untouched_deaths | apply untouched_cooldowns]. }
      destruct U as (_ & _ & U3 & U4 & _). rsimpl_in U3. rsimpl_in U4.
      clearbody w3. clear w2 g2 g1.
      destruct (locked (game w3)) as [t|].
      - destruct (aget t (ships (game w3))) as [s|]; [|discriminate].
        injection H1 as <-. rsimpl.
        rewrite (wordbag_keeps K), (level_keeps K). auto.
      - injection H1 as <-. rewrite (wordbag_keeps K), (level_keeps K). auto. }
    destruct A as (A1 & A2 & A3 & A4). rewrite <- A1, <- A2, <- A3, <- A4.
    unfold combat_resolve in H.
    destruct (match ship_ids (game w1) with [] => true | _ :: _ => false end
              && is_win_state w1).
    + destruct (updatestack (game w1)); [discriminate|]. injection H as <-. auto.
    + injection H as <-.
      pose proof (keeps_move_ships (ship_ids (game w1)) w1) as K.
      rewrite (wordbag_keeps K), (level_keeps K), move_ships_spawn_timer.
      repeat split; auto. apply move_ships_shape.
  - unfold update_gameplay_wait_for_animations in H.
    assert (A : wordbag (game (wait_advance fi w)) = wordbag (game w)
                /\ level (game (wait_advance fi w)) = level (game w)
                /\ cd_get KSpawnWord (cooldowns (wait_advance fi w))
                   = cd_get KSpawnWord (cooldowns w)
                /\ stack (wait_advance fi w) = stack w).
    { unfold wait_advance.
      set (g1 := group_update (elapsed fi) (game w)).
      set (g2 := remove_sparks_outofbounds g1).
      set (w2 := spawn_explosions_from_deaths fi
                   (filter (not_alive g1) (died_candidates (game w))) (set_game g2 w)).
      assert (K : keeps (game w) (game (spawn_explosions_from_cooldowns w2))).
      { eapply keeps_trans; [apply keeps_group_update|]. fold g1.
        eapply keeps_trans; [apply keeps_remove_sparks_outofbounds|]. fold g2.
        eapply keeps_trans; [|apply keeps_from_cooldowns].
        apply (keeps_deaths fi _ (set_game g2 w)). }
      assert (U : untouched (set_game g2 w) (spawn_explosions_from_cooldowns w2)).
      { eapply untouched_trans; [apply untouched_deaths | apply untouched_cooldowns]. }
      destruct U as (_ & _ & U3 & U4 & _). rsimpl_in U3. rsimpl_in U4.
      rewrite (wordbag_keeps K), (level_keeps K). auto. }
    destruct A as (A1 & A2 & A3 & A4).
    set (w1 := wait_advance fi w) in *. clearbody w1.
    rewrite <- A1, <- A2, <- A3, <- A4.
    unfold check_win_state in H. apply bind_Ok_inv in H as (n & _ & H).
    assert (N : is_win_state w1 = false).
    { unfold is_win_state.
      destruct (Z.leb_spec (cd_get KSpawnWord (cooldowns w1)) 0); [lia|].
      rewrite andb_false_r. reflexivity. }
    rewrite N, andb_false_r in H. injection H as <-. auto.
Qed.

Lemma frame_body_waits (fi : FrameIn) (w w' : World) (below : list scene) :
  stack w = SGameplay :: below ->
  0 <= elapsed fi < cd_get KSpawnWord (cooldowns w) ->
  frame_body fi w = Ok w' ->
  wordbag (game w') = wordbag (game w)
  /\ level (game w') = level (game w)
  /\ cd_get KSpawnWord (cooldowns w') = cd_get KSpawnWord (cooldowns w) - elapsed fi
  /\ stack w' = stack w.
Proof.
  intros St He H. unfold frame_body in H.
  apply bind_Ok_inv in H as (w1 & H1 & H).
  apply (@handle_all_pool (events w) (set_events [] w) w1 below St) in H1
    as (A & B & C & D).
  rsimpl_in A. rsimpl_in B. rsimpl_in C. rsimpl_in D.
  unfold scene_update in H. cbn [stack set_cooldowns] in H. rewrite D, St in H.
  assert (T : cd_get KSpawnWord (tick (elapsed fi) (cooldowns w1))
              = cd_get KSpawnWord (cooldowns w) - elapsed fi).
  { rewrite cd_get_tick, C. unfold tick1.
    destruct (Z.ltb_spec 0 (cd_get KSpawnWord (cooldowns w))); lia. }
  apply update_waits in H; [|cbn [cooldowns set_cooldowns]; lia].
  destruct H as (A' & B' & C' & D'). rsimpl_in A'. rsimpl_in B'. rsimpl_in C'. rsimpl_in D'.
  repeat split; congruence.
Qed.

(** X22: the pace of the spawns.  While the gameplay is the current scene
    and the frames take less time in all than is left on the spawn timer, no
    word leaves the pool and the level does not end: the pool and the level
    are as they were, and the spawn timer has lost exactly the time the frames
    took.  Since a spawn sets the timer to 1000, two spawns are at least a
    second of frame time apart. *)
Theorem spawn_timer_paces (fis : list FrameIn) (w w' : World) (below : list scene) :
  stack w = SGameplay :: below ->
  Forall (fun fi => 0 <= elapsed fi) fis ->
  total_elapsed fis < cd_get KSpawnWord (cooldowns w) ->
  quiet_frames fis w = Ok w' ->
  wordbag (game w') = wordbag (game w)
  /\ level (game w') = level (game w)
  /\ cd_get KSpawnWord (cooldowns w')
     = cd_get KSpawnWord (cooldowns w) - total_elapsed fis.
Proof.
  revert w. induction fis as [|fi r IH]; intros w St Hp Ht H;
    cbn [quiet_frames total_elapsed fold_right] in *.
  - injection H as <-. repeat split; lia.
  - inversion Hp as [|x l Hx Hr]; subst.
    fold (total_elapsed r) in Ht.
    assert (Tr : 0 <= total_elapsed r).
    { clear - Hr. induction Hr; cbn [total_elapsed fold_right]; [lia|].
      fold (total_elapsed l). lia. }
    apply bind_Ok_inv in H as (w1 & H1 & H).
    apply (@frame_body_waits fi (set_events (events w ++ inputs fi) w) w1 below St)
      in H1; [|cbn [cooldowns set_events]; lia].
    destruct H1 as (A & B & C & D). rsimpl_in A. rsimpl_in B. rsimpl_in C. rsimpl_in D.
    destruct (IH w1) as (A' & B' & C'); [congruence | exact Hr | lia | exact H |].
    fold (total_elapsed r). repeat split; try congruence. lia.
Qed.

End Pace.

(** ** Pausing and resuming through the engine loop *)

Section PauseRun.
Context {G : Geometry}.

Lemma check_win_state_stack (fi : FrameIn) (w w' : World) :
  check_win_state fi w = Ok w' -> stack w' = stack w.
Proof.
  unfold check_win_state. intros H.
  apply bind_Ok_inv in H as (n & _ & H).
  destruct (Nat.eqb n 0 && is_win_state w); [|injection H as <-; reflexivity].
  change (game (set_cooldowns (clear_explosions (cooldowns w)) w)) with (game w) in H.
  destruct (Nat.eqb (S (level (game w))) (List.length (levels (game w)))).
  - injection H as <-. reflexivity.
  - apply bind_Ok_inv in H as (g' & _ & H). injection H as <-. reflexivity.
Qed.

Lemma update_stack (fi : FrameIn) (w w' : World) :
  update fi w = Ok w' -> stack w' = stack w.
Proof.
  unfold update. destruct (updatestack (game w)) as [|[| |] r]; [discriminate| | |].
  - unfold update_intro.
    match goal with |- context [if ?c then _ else _] => destruct c end.
    + intros H. apply bind_Ok_inv in H as (g2 & _ & H). injection H as <-.
      reflexivity.
    + intros H. injection H as <-. reflexivity.
  - unfold update_gameplay. intros H.
    apply bind_Ok_inv in H as (w1 & H1 & H).
    apply combat_advance_shape in H1 as (_ & _ & St & _).
    rewrite <- St. unfold combat_resolve in H.
    match type of H with (if ?c then _ else _) = _ => destruct c end.
    + destruct (updatestack (game w1)); [discriminate|].
      injection H as <-. reflexivity.
    + injection H as <-. apply move_ships_shape.
  - unfold update_gameplay_wait_for_animations. intros H.
    apply check_win_state_stack in H. rewrite H. unfold wait_advance.
    match goal with
    | |- stack (spawn_explosions_from_cooldowns ?x) = _ =>
        pose proof (untouched_cooldowns x) as (_ & _ & A & _); rewrite A
    end.
    match goal with
    | |- stack (spawn_explosions_from_deaths ?f ?d ?x) = _ =>
        pose proof (untouched_deaths f d x) as (_ & _ & B & _); rewrite B
    end.
    reflexivity.
Qed.

(** drawing the gameplay goes through: the update decides the frame *)
Lemma frame_gameplay_drawn (fi : FrameIn) (w : World) (below : list scene) :
  stack w = SGameplay :: below ->
  (w' <- update fi w ;; _ <- scene_draw w' ;; Ok (Some w'))
  = (w' <- update fi w ;; Ok (Some w')).
Proof.
  intros St. destruct (update fi w) as [w'|e] eqn:E; [|reflexivity].
  cbn [bind]. apply update_stack in E. unfold scene_draw. rewrite E, St.
  reflexivity.
Qed.

(** the frame of the escape key *)
Lemma frame_escape (fi : FrameIn) (w : World) (below : list scene) (u : string) :
  stack w = SGameplay :: below ->
  events w = [] ->
  inputs fi = [KEYDOWN K_ESCAPE u] ->
  frame fi w
  = (w' <- update fi (mkWorld (tick (elapsed fi) (cooldowns w))
                        (set_paused true (game w))
                        [PUSHSTATE (SMenu pause_menu)] (SGameplay :: below)) ;;
     Ok (Some w')).
Proof.
  intros St Ev Hi. destruct w as [cd g ev st]. rsimpl_all. subst.
  unfold frame. rsimpl. rewrite Hi.
  cbn [app existsb is_quit orb sm_update events set_events sm_dispatch post bind
       stack frame_body handle_all scene_handle handle on_keydown game set_game
       cooldowns set_cooldowns scene_update].
  apply (@frame_gameplay_drawn fi _ below). reflexivity.
Qed.

(** the frame that opens the pause menu, without input *)
Lemma frame_push_idle (fi : FrameIn) (w : World) (below : list scene) :
  stack w = SGameplay :: below ->
  events w = [PUSHSTATE (SMenu pause_menu)] ->
  inputs fi = [] ->
  frame fi w
  = Ok (Some (mkWorld (tick (elapsed fi) (cooldowns w)) (game w) []
                (SMenu (mkMenu (items pause_menu) (Some O)) :: SGameplay :: below))).
Proof.
  intros St Ev Hi. destruct w as [cd g ev st]. rsimpl_all. subst.
  unfold frame. rsimpl. rewrite Hi. reflexivity.
Qed.

(** the frame that opens the pause menu and takes the return key *)
Lemma frame_push_return (fi : FrameIn) (w : World) (below : list scene)
  (u : string) :
  stack w = SGameplay :: below ->
  events w = [PUSHSTATE (SMenu pause_menu)] ->
  inputs fi = [KEYDOWN K_RETURN u] ->
  frame fi w
  = Ok (Some (mkWorld (tick (elapsed fi) (cooldowns w)) (game w) [POPSTATE]
                (SMenu (mkMenu (items pause_menu) (Some O)) :: SGameplay :: below))).
Proof.
  intros St Ev Hi. destruct w as [cd g ev st]. rsimpl_all. subst.
  unfold frame. rsimpl. rewrite Hi. reflexivity.
Qed.

(** a frame without input in the open pause menu *)
Lemma frame_menu_idle (fi : FrameIn) (w : World) (below : list scene) :
  stack w = SMenu (mkMenu (items pause_menu) (Some O)) :: below ->
  events w = [] ->
  inputs fi = [] ->
  frame fi w
  = Ok (Some (mkWorld (tick (elapsed fi) (cooldowns w)) (game w) [] (stack w))).
Proof.
  intros St Ev Hi. destruct w as [cd g ev st]. rsimpl_all. subst.
  unfold frame. rsimpl. rewrite Hi. reflexivity.
Qed.

(** the return key in the open pause menu, on Resume *)
Lemma frame_menu_return (fi : FrameIn) (w : World) (below : list scene)
  (u : string) :
  stack w = SMenu (mkMenu (items pause_menu) (Some O)) :: below ->
  events w = [] ->
  inputs fi = [KEYDOWN K_RETURN u] ->
  frame fi w
  = Ok (Some (mkWorld (tick (elapsed fi) (cooldowns w)) (game w) [POPSTATE]
                (stack w))).
Proof.
  intros St Ev Hi. destruct w as [cd g ev st]. rsimpl_all. subst.
  unfold frame. rsimpl. rewrite Hi. reflexivity.
Qed.

Lemma run_menu_return (fiR : FrameIn) (u : string) (below : list scene)
  (fis : list FrameIn) :
  inputs fiR = [KEYDOWN K_RETURN u] ->
  Forall (fun fi => inputs fi = []) fis ->
  forall w,
    stack w = SMenu (mkMenu (items pause_menu) (Some O)) :: below ->
    events w = [] ->
    run (fis ++ [fiR]) w
    = Ok (mkWorld (ticks (fis ++ [fiR]) (cooldowns w)) (game w) [POPSTATE]
                  (stack w)).
Proof.
  intros HR Hf. induction Hf as [|fi r Hi Hr IH]; intros w St Ev.
  - cbn [app run]. rewrite (@frame_menu_return fiR w below u St Ev HR).
    reflexivity.
  - cbn [app run]. rewrite (@frame_menu_idle fi w below St Ev Hi). cbn [bind].
    rewrite IH; [reflexivity | exact St | reflexivity].
Qed.

(** the frame after the return key: the menu is popped, the paused gameplay
    is entered without reset and updated *)
Lemma frame_resume (fi : FrameIn) (w : World) (m : MenuState) (below : list scene) :
  stack w = SMenu m :: SGameplay :: below ->
  events w = [POPSTATE] ->
  paused (game w) = true ->
  inputs fi = [] ->
  frame fi w
  = (w' <- update fi (mkWorld (tick (elapsed fi) (cooldowns w))
                        (set_paused false (game w)) [] (SGameplay :: below)) ;;
     Ok (Some w')).
Proof.
  intros St Ev Pz Hi. destruct w as [cd g ev st]. rsimpl_all. subst.
  unfold frame. rsimpl. rewrite Hi.
  cbn [app existsb is_quit orb sm_update events set_events sm_dispatch].
  unfold sm_pop, scene_enter, enter. rsimpl. rewrite Pz.
  cbn [bind fst snd stack set_stack set_game game frame_body handle_all events
       set_events cooldowns set_cooldowns scene_update].
  apply (@frame_gameplay_drawn fi _ below). reflexivity.
Qed.

(** X26: pausing and resuming, as the engine loop runs them.  In the frame
    of the escape key the gameplay is marked as paused and asks for the pause
    menu, and it is still ticked and updated once in that frame, with the
    mark on.  When that update leaves the mark and asks for no other scene,
    the next frame opens the pause menu over the gameplay with Resume, its
    first button, hovered.  Over the frames spent in the menu and the frame
    of the return key the gameplay is not touched, and the cooldowns are not
    held: each is ticked once per frame.  The return key asks for a pop, and
    the frame after it pops the menu and enters the gameplay, which is not
    reset and only loses the pause mark, and then ticks and updates it in
    that same frame. *)
Theorem C9_pause_resume (fi0 fiR fiN : FrameIn) (fis : list FrameIn)
  (w w1 : World) (below : list scene) (u u' : string) :
  stack w = SGameplay :: below ->
  events w = [] ->
  inputs fi0 = [KEYDOWN K_ESCAPE u] ->
  Forall (fun fi => inputs fi = []) fis ->
  inputs fiR = [KEYDOWN K_RETURN u'] ->
  inputs fiN = [] ->
  frame fi0 w = Ok (Some w1) ->
  events w1 = [PUSHSTATE (SMenu pause_menu)] ->
  paused (game w1) = true ->
  update fi0 (mkWorld (tick (elapsed fi0) (cooldowns w)) (set_paused true (game w))
                [PUSHSTATE (SMenu pause_menu)] (SGameplay :: below))
  = Ok w1
  /\ stack w1 = SGameplay :: below
  /\ exists w3,
      run (fi0 :: fis ++ [fiR]) w = Ok w3
      /\ game w3 = game w1
      /\ cooldowns w3 = ticks (fis ++ [fiR]) (cooldowns w1)
      /\ stack w3 = SMenu (mkMenu (items pause_menu) (Some O)) :: SGameplay :: below
      /\ events w3 = [POPSTATE]
      /\ frame fiN w3
         = (w4 <- update fiN (mkWorld (tick (elapsed fiN) (cooldowns w3))
                                (set_paused false (game w1)) []
                                (SGameplay :: below)) ;;
            Ok (Some w4)).
Proof.
  intros St Ev H0 Hf HR HN F0 Ev1 Pz1.
  assert (U : update fi0 (mkWorld (tick (elapsed fi0) (cooldowns w))
                            (set_paused true (game w))
                            [PUSHSTATE (SMenu pause_menu)] (SGameplay :: below))
              = Ok w1).
  { rewrite (@frame_escape fi0 w below u St Ev H0) in F0.
    destruct (update fi0 _) as [x|e]; [|discriminate].
    cbn [bind] in F0. injection F0 as <-. reflexivity. }
  split; [exact U|].
  assert (St1 : stack w1 = SGameplay :: below).
  { apply update_stack in U. exact U. }
  split; [exact St1|].
  set (top := SMenu (mkMenu (items pause_menu) (Some O))).
  exists (mkWorld (ticks (fis ++ [fiR]) (cooldowns w1)) (game w1) [POPSTATE]
                  (top :: SGameplay :: below)).
  split.
  - cbn [run]. rewrite F0. cbn [bind].
    destruct Hf as [|fi r Hi Hr].
    + cbn [app run]. rewrite (@frame_push_return fiR w1 below u' St1 Ev1 HR).
      reflexivity.
    + cbn [app run]. rewrite (@frame_push_idle fi w1 below St1 Ev1 Hi). cbn [bind].
      rewrite (@run_menu_return fiR u' (SGameplay :: below) r HR Hr);
        reflexivity.
  - split; [reflexivity|]. split; [reflexivity|]. split; [reflexivity|].
    split; [reflexivity|].
    rewrite (@frame_resume fiN _ (mkMenu (items pause_menu) (Some O)) below);
      auto.
Qed.

End PauseRun.

(** ** The properties at example plays *)

Section MoreExamples.
#[local] Existing Instance grid.

Ltac run_it := vm_compute; reflexivity.

(** X7 at the demo game with the word red on screen: the key z does
    nothing. *)
Lemma fire_without_target_witness :
  fire "z" first_word_world = Ok first_word_world.
Proof.
  set (w := first_word_world).
  assert (Hl : locked (game w) = None) by run_it.
  assert (Hg : group (game w) = [Player; Ship O; Text O]) by run_it.
  assert (Ht : text_of O (game w) = "red"%string) by run_it.
  clearbody w.
  apply fire_without_target; [exact Hl|].
  intros i Hi. rewrite Hg in Hi.
  destruct Hi as [X | [X | [X | []]]]; try discriminate X.
  injection X as <-. rewrite Ht. reflexivity.
Defined.

Lemma ok_game_of (r : res Gameplay) (d : Gameplay) :
  is_ok r = true -> r = Ok (game_of r d).
Proof. destruct r; [reflexivity | discriminate]. Qed.

(** X8 at the first transition of the demo game: one push on the empty
    stack. *)
Lemma sm_update_height_witness :
  List.length (stack (world_of (sm_update (demo_frame 16 []) demo_start))) = 1%nat.
Proof.
  set (fi := demo_frame 16 []). set (w := demo_start).
  assert (Hok : is_ok (sm_update fi w) = true) by run_it.
  assert (He : events w = [PUSHSTATE SGameplay]) by reflexivity.
  assert (Hs : stack w = []) by reflexivity.
  apply ok_world_of in Hok.
  set (w' := world_of (sm_update fi w)) in *. clearbody w'. clearbody w.
  destruct (@sm_update_height grid fi w w' Hok) as [H _].
  rewrite He, Hs in H. cbn in H. lia.
Defined.

(** X9 at the pause menu with Exit to desktop hovered. *)
Lemma quit_ends_run_witness :
  exists w1,
    scene_handle (KEYDOWN K_RETURN EmptyString) quitting_world = Ok w1
    /\ events w1 = events quitting_world ++ [QUIT]
    /\ run (idle 3) w1 = Ok w1.
Proof.
  apply (proj1 (@quit_ends_run grid (idle 3) quitting_world
                  (mkMenu (items pause_menu) (Some 2%nat)) [] 2%nat EmptyString
                  eq_refl eq_refl eq_refl)).
Defined.

Lemma tiny_playable : playable tiny_game.
Proof.
  split; [apply Z.leb_le; reflexivity|]. split; [apply Z.leb_le; reflexivity|].
  intros i k p H. destruct i as [|i]; [|destruct i; discriminate H].
  injection H as <- <-. split; apply Z.leb_le; reflexivity.
Qed.

(** X11 at the gameplay of one level of two words, which is not paused:
    it is reset and entered. *)
Lemma gameplay_enter_outcome_witness :
  exists g1,
    reset (demo_frame 16 []) tiny_game = Ok g1
    /\ enter (demo_frame 16 []) tiny_game = Ok (set_paused false g1)
    /\ sound (set_paused false g1)
    /\ config g1 = config tiny_game
    /\ level g1 = level tiny_game.
Proof.
  destruct (@gameplay_enter_outcome grid (demo_frame 16 []) tiny_game) as [_ H].
  - exact tiny_playable.
  - intros t Ht. exfalso. apply Ht. reflexivity.
  - apply Nat.ltb_lt. reflexivity.
  - intros X. discriminate X.
  - apply (proj2 (H eq_refl) eq_refl).
Defined.

Lemma tiny_world_sound : sound (game tiny_world).
Proof.
  split; [right; left; run_it|]. split; [apply Nat.ltb_lt; run_it|].
  split; [vm_compute; discriminate|]. split.
  - intros t Ht. vm_compute in Ht. discriminate Ht.
  - intros t Ht. exfalso. apply Ht. run_it.
Qed.

(** X12 at that gameplay: two idle frames and a frame in which the key d is
    pressed. *)
Lemma gameplay_frames_never_raise_witness :
  exists w',
    quiet_frames (idle 2 ++ [demo_frame 16 (keys "d")]) tiny_world = Ok w'
    /\ sound (game w')
    /\ config (game w') = config (game tiny_world)
    /\ (level (game tiny_world) <= level (game w'))%nat
    /\ stack w' = stack tiny_world.
Proof.
  apply (proj2 (@gameplay_frames_never_raise grid
                  (idle 2 ++ [demo_frame 16 (keys "d")]) tiny_world [] eq_refl
                  eq_refl
                  (@playable_config grid tiny_game (game tiny_world) eq_refl
                     tiny_playable)
                  tiny_world_sound)).
Defined.

Lemma full_words_playable : playable (game (start true true full_words)).
Proof.
  split; [apply Z.leb_le; reflexivity|]. split; [apply Z.leb_le; reflexivity|].
  intros i k p H.
  change (levels (game (start true true full_words))) with start_levels in H.
  destruct i as [|[|[|[|[|i]]]]]; cbn [nth_error start_levels] in H;
    try (destruct i; discriminate H);
    injection H as <- <-; split; apply Z.leb_le; vm_compute; reflexivity.
Qed.

(** X13 at a vocabulary of fifteen words of four letters and twenty words of
    eight. *)
Lemma start_first_frame_witness :
  exists w',
    frame (demo_frame 16 []) (start true true full_words) = Ok (Some w')
    /\ stack w' = [SGameplay]
    /\ sound (game w')
    /\ config (game w') = config (game (start true true full_words)).
Proof.
  apply (proj1 (@start_first_frame grid true full_words (demo_frame 16 []))).
  - reflexivity.
  - exact full_words_playable.
  - reflexivity.
Defined.

(** X14 at three idle frames of the demo game. *)
Lemma run_keeps_configuration_witness :
  config (game (world_of (run (idle 3) demo_start))) = config (game demo_start)
  /\ (level (game demo_start)
      <= level (game (world_of (run (idle 3) demo_start))))%nat.
Proof.
  assert (Hok : is_ok (run (idle 3) demo_start) = true) by run_it.
  apply ok_world_of in Hok.
  destruct (@run_keeps_configuration grid _ _ _ Hok) as (A & B & _).
  split; assumption.
Defined.

(** X15 at the collision of the play in which a locked word reaches the
    player: the health goes from 3 to 2 and the player-hit timer is set. *)
Lemma update_gameplay_collision_witness :
  let w := ticked (world_after (firstn 675 lock_play)) in
  let w' := world_of (update_gameplay (demo_frame 16 []) w) in
  cd_get KPlayerHit (cooldowns w) <= 0
  /\ health (game w') = health (game w) - 1
  /\ cd_get KPlayerHit (cooldowns w') = 1000.
Proof.
  intros w w'.
  assert (Hok : is_ok (update_gameplay (demo_frame 16 []) w) = true) by run_it.
  assert (H3 : health (game w) = 3) by run_it.
  assert (H2 : health (game w') = 2) by run_it.
  apply ok_world_of in Hok. fold w' in Hok. clearbody w'. clearbody w.
  destruct (@update_gameplay_collision grid _ _ _ Hok)
    as [(A & _) | (A & B & C & _)]; [lia | auto].
Defined.

(** X18 at the pause menu over the demo gameplay over the main menu. *)
Lemma back_to_mainmenu_leaves_witness :
  sm_update (demo_frame 16 []) (do_callback CbBackToMainmenu paused_world)
  = Ok (mkWorld (cooldowns paused_world) (set_paused false (game paused_world))
                [MOUSEMOTION (Some O)]
                [SMenu (mkMenu (items main_menu) (Some O))]).
Proof.
  destruct (@back_to_mainmenu_leaves grid (demo_frame 16 []) paused_world
              (mkMenu (items pause_menu) (Some O))
              [SMenu (mkMenu (items main_menu) (Some O))] eq_refl eq_refl eq_refl)
    as (_ & _ & H).
  apply (H (mkMenu (items main_menu) (Some O)) [] eq_refl). discriminate.
Defined.

(** X19 at the death menu over the demo gameplay. *)
Lemma restart_resets_level_witness :
  let g' := game_of (reset (demo_frame 16 []) (game died_world)) (game died_world) in
  sm_update (demo_frame 16 []) (do_callback CbPopstate died_world)
  = Ok (mkWorld (cooldowns died_world) (set_paused false g') [] [SGameplay])
  /\ health g' = 3.
Proof.
  intros g'.
  assert (Hok : is_ok (reset (demo_frame 16 []) (game died_world)) = true) by run_it.
  apply (ok_game_of _ (game died_world)) in Hok. fold g' in Hok. clearbody g'.
  destruct (@restart_resets_level grid (demo_frame 16 []) died_world
              (mkMenu (items died_menu) (Some O)) [] eq_refl eq_refl eq_refl)
    as (_ & _ & H).
  destruct (H g' Hok) as (A & B & _). split; assumption.
Defined.

(** X20 at the third level and a word of four letters. *)
Lemma start_levels_words_witness :
  snd (nth 2 start_levels (0, fun _ => false)) "tree"%string = true.
Proof.
  apply (proj1 (@start_levels_words 2 15 (snd (nth 2 start_levels (0, fun _ => false)))
                  "tree"%string eq_refl)).
  split; reflexivity.
Defined.

(** X21 at the demo game after its first frame and the key r. *)
Lemma typing_never_costs_health_witness :
  let w := world_of (run (idle 1) demo_start) in
  let w' := world_of (fire "r" w) in
  damage_on_miss (game w) = false /\ health (game w') = health (game w).
Proof.
  intros w w'.
  assert (Hr : is_ok (run (idle 1) demo_start) = true) by run_it.
  assert (Hf : is_ok (fire "r" w) = true) by run_it.
  apply ok_world_of in Hr, Hf. fold w in Hr. fold w' in Hf. clearbody w'. clearbody w.
  destruct (@typing_never_costs_health grid true true demo_words (idle 1) w w'
              "r"%string Hr Hf) as (A & B & _).
  split; assumption.
Defined.

(** X6 at the gameplay of one level of two words: the level starts with
    both words drawn. *)
Lemma reset_starts_level_witness :
  exists g' s,
    reset (demo_frame 16 []) tiny_game = Ok g'
    /\ wordbag g' = mkWordbag ["cat"; "dog"]%string (Some s)
    /\ List.length s = 2%nat
    /\ health g' = 3
    /\ group g' = [Player].
Proof.
  destruct (proj2 (proj2 (@reset_starts_level grid (demo_frame 16 []) tiny_game) 2
                     (fun _ => true) eq_refl) eq_refl) as [_ H].
  destruct H as (g' & s & R & W & L & _ & _ & Hh & _ & _ & _ & _ & Hg & _).
  - split; apply Z.leb_le; reflexivity.
  - exists g', s. repeat split; assumption.
Defined.

(** The last letter of a word, at the demo game with the word red typed up
    to its last letter: the key d empties the text and releases the lock,
    and the target stays in the group. *)
Lemma C8_last_character_witness :
  let w := world_of (fire "e" (world_of (fire "r" first_word_world))) in
  exists w',
    fire "d" w = Ok w'
    /\ text_of O (game w') = EmptyString
    /\ locked (game w') = None
    /\ In (Text O) (group (game w'))
    /\ In (Ship O) (group (game w')).
Proof.
  intros w.
  assert (Hl : locked (game w) = Some O) by run_it.
  assert (Ho : aget O (texts (game w)) = Some (mkText "d" true)) by run_it.
  assert (Ht : group_has (Text O) (group (game w)) = true) by run_it.
  assert (Hs : group_has (Ship O) (group (game w)) = true) by run_it.
  clearbody w. apply group_has_In in Ht, Hs.
  destruct (proj1 (@C8_last_character grid w O "d"%char (mkText "d" true)
                     (or_introl Hl) Ho eq_refl Ht Hs))
    as (w' & F & T & L & A & B & _).
  exists w'. repeat split; assumption.
Defined.

(** X26 at the demo game with the first word on screen: the escape key,
    two frames spent in the pause menu and the return key. *)
Lemma C9_pause_resume_witness :
  let fi0 := demo_frame 16 [KEYDOWN K_ESCAPE EmptyString] in
  let fiR := demo_frame 16 [KEYDOWN K_RETURN EmptyString] in
  let w := first_word_world in
  let w1 := world_of (run [fi0] w) in
  frame fi0 w = Ok (Some w1)
  /\ exists w3,
      run (fi0 :: idle 2 ++ [fiR]) w = Ok w3
      /\ game w3 = game w1
      /\ cooldowns w3 = ticks (idle 2 ++ [fiR]) (cooldowns w1)
      /\ stack w3 = [SMenu (mkMenu (items pause_menu) (Some O)); SGameplay]
      /\ events w3 = [POPSTATE].
Proof.
  intros fi0 fiR w w1.
  assert (Hs : stack w = [SGameplay]) by run_it.
  assert (He : events w = []) by run_it.
  assert (F0 : frame fi0 w = Ok (Some w1)) by run_it.
  assert (E1 : events w1 = [PUSHSTATE (SMenu pause_menu)]) by run_it.
  assert (P1 : paused (game w1) = true) by run_it.
  assert (Hi : Forall (fun fi => inputs fi = []) (idle 2))
    by (repeat constructor).
  clearbody w1. clearbody w.
  split; [exact F0|].
  destruct (@C9_pause_resume grid fi0 fiR (demo_frame 16 []) (idle 2) w w1 []
              EmptyString EmptyString Hs He eq_refl Hi eq_refl eq_refl F0 E1 P1)
    as (_ & _ & w3 & R & A & B & C & D & _).
  exists w3. repeat split; assumption.
Defined.

(** X10 at the pause menu: before it is entered the up key raises; once
    entered, with Resume hovered, the up key goes round to the last button,
    Exit to desktop. *)
Lemma selection_wraps_witness :
  menu_handle (KEYDOWN K_UP EmptyString) pause_menu tiny_world
  = Raise AttributeError
  /\ menu_handle (KEYDOWN K_UP EmptyString) (mkMenu (items pause_menu) (Some O))
       tiny_world
     = Ok (mkMenu (items pause_menu) (Some O),
           post (MOUSEMOTION (Some 2%nat)) tiny_world).
Proof.
  split.
  - destruct (@selection_wraps grid (demo_frame 16 []) (-1) pause_menu tiny_world
                EmptyString) as (A & _ & _ & _ & _ & U).
    rewrite U. apply (proj1 (A eq_refl)).
  - destruct (@selection_wraps grid (demo_frame 16 []) (-1)
                (mkMenu (items pause_menu) (Some O)) tiny_world EmptyString)
      as (_ & _ & B & _ & _ & U).
    rewrite U. apply (proj1 (B O (Nat.lt_0_succ 2) eq_refl)).
Defined.

(** X22 at the demo game after the first spawn: ten frames of 16 ms leave
    840 of the 1000 ms on the spawn timer and the pool as it was. *)
Lemma spawn_timer_paces_witness :
  let w := first_word_world in
  let w' := world_of (quiet_frames (idle 10) w) in
  wordbag (game w') = wordbag (game w)
  /\ cd_get KSpawnWord (cooldowns w') = 840.
Proof.
  intros w w'.
  assert (Hs : stack w = [SGameplay]) by run_it.
  assert (Hc : cd_get KSpawnWord (cooldowns w) = 1000) by run_it.
  assert (Hok : is_ok (quiet_frames (idle 10) w) = true) by run_it.
  apply ok_world_of in Hok. fold w' in Hok. clearbody w'. clearbody w.
  destruct (@spawn_timer_paces grid (idle 10) w w' [] Hs) as (A & _ & C).
  - repeat constructor; discriminate.
  - rewrite Hc. reflexivity.
  - exact Hok.
  - split; [exact A|]. rewrite C, Hc. reflexivity.
Defined.

End MoreExamples.
